(** * TicTacToe_MobileApp: the outcome evaluator and the move selector

    A shallow embedding of [checkWinner], [getAIMove] (with its nested
    [minimax]), [handleCellPress] and [updateStats] of
    [frontend/app/index.tsx], and the properties of the game logic that the
    specification states about them.

    The file has two layers.  The functional layer reads a board as an
    immutable list; the layer of [Module Imp] keeps the arrays in a store,
    so that the in-place writes of [minimax] and the copies [[...board]] of
    [getAIMove] are visible, and is proved to compute the same results.

    The second part, from [goToMenu] on, covers the rest of the game
    screen: the controls and what is rendered in which mode ([act],
    [session]), the reply of the computer as the timer callback that it is
    ([press_now], [reply_later], [timeline]), and [formatDuration] of
    [frontend/app/stats.tsx]. *)

From stdpp Require Import base option list numbers sorting strings pretty.
From Stdlib Require Import ZArith Lia Bool Ascii.

(** ** Data model *)

(** [type Player = 'X' | 'O' | null]. *)
Inductive Player := X | O | null.

(** [type GameMode = 'menu' | 'pvp' | 'ai']. *)
Inductive GameMode := menu | pvp | ai.

(** [type Difficulty = 'easy' | 'medium' | 'hard']. *)
Inductive Difficulty := easy | medium | hard.

(** The result type [Player | 'draw' | null] of [checkWinner]: [P null] is
    the JavaScript [null] (no result yet). *)
Inductive Winner := P (p : Player) | draw.

(** A value of type [number] that may be [undefined] (an array read past
    the end). *)
Inductive Value := undefined | number (n : nat).

(** [Player[]]: cell [i] of [board] is [board !! i]; a read past the end is
    [None], JavaScript's [undefined]. *)
Abbreviation Board := (list Player).

#[global] Instance Player_eq_dec : EqDecision Player.
Proof. solve_decision. Defined.
#[global] Instance Winner_eq_dec : EqDecision Winner.
Proof. solve_decision. Defined.
#[global] Instance Difficulty_eq_dec : EqDecision Difficulty.
Proof. solve_decision. Defined.
#[global] Instance GameMode_eq_dec : EqDecision GameMode.
Proof. solve_decision. Defined.
#[global] Instance Value_eq_dec : EqDecision Value.
Proof. solve_decision. Defined.

(** The scores of the search: JavaScript numbers that are integers or one
    of the two infinities that initialise [bestScore]. *)
Inductive Score := NegInf | Fin (z : Z) | PosInf.

(** [a <= b] on scores. *)
Definition Score_leb (a b : Score) : bool :=
  match a, b with
  | NegInf, _ => true
  | _, PosInf => true
  | Fin x, Fin y => Z.leb x y
  | _, _ => false
  end.

(** [a > b] on scores, the test [score > bestScore]. *)
Definition Score_gtb (a b : Score) : bool := negb (Score_leb a b).

(** [Math.max(a, b)]. *)
Definition Score_max (a b : Score) : Score := if Score_leb a b then b else a.

(** [Math.min(a, b)]. *)
Definition Score_min (a b : Score) : Score := if Score_leb a b then a else b.

(** ** The outcome evaluator *)

(** The constant table [lines] of [checkWinner]. *)
Definition lines : list (nat * nat * nat) :=
  [ (0, 1, 2); (3, 4, 5); (6, 7, 8);   (* rows *)
    (0, 3, 6); (1, 4, 7); (2, 5, 8);   (* columns *)
    (0, 4, 8); (2, 4, 6) ].            (* diagonals *)

(** Truthiness of a cell read: ['X'] and ['O'] are truthy, [null] and
    [undefined] are not. *)
Definition truthy (v : option Player) : bool :=
  match v with
  | Some X | Some O => true
  | _ => false
  end.

(** [v === w] on cell reads. *)
Definition strict_eq (v w : option Player) : bool :=
  match v, w with
  | Some X, Some X | Some O, Some O | Some null, Some null | None, None => true
  | _, _ => false
  end.

(** The test of the loop body:
    [board[a] && board[a] === board[b] && board[a] === board[c]]. *)
Definition line_complete (board : Board) (line : nat * nat * nat) : bool :=
  let '(a, b, c) := line in
  truthy (board !! a) && strict_eq (board !! a) (board !! b)
  && strict_eq (board !! a) (board !! c).

(** [for (let line of lines) { ... return board[a]; }]: the value returned
    from inside the loop, if any. *)
Fixpoint check_lines (board : Board) (ls : list (nat * nat * nat)) : option Player :=
  match ls with
  | [] => None
  | line :: rest =>
      if line_complete board line
      then board !! line.1.1
      else check_lines board rest
  end.

(** [cell !== null]. *)
Definition not_null (cell : Player) : bool :=
  match cell with null => false | _ => true end.

Definition checkWinner (board : Board) : Winner :=
  match check_lines board lines with
  | Some p => P p
  | None => if forallb not_null board then draw else P null
  end.

(** [v === w] on results of [checkWinner]. *)
Definition Winner_eqb (v w : Winner) : bool :=
  match v, w with
  | P X, P X | P O, P O | P null, P null | draw, draw => true
  | _, _ => false
  end.

(** ** The move selector *)

(** [board.map((cell, index) => cell === null ? index : null)
         .filter(val => val !== null)]. *)
Definition emptyCells (board : Board) : list nat :=
  omap id (imap (fun index cell => if not_null cell then None else Some index) board).

(** [Math.floor(Math.random() * n)]: the random source is the argument
    [rnd]; for [n > 0] every index below [n] is the image of some [rnd] and
    no other value is, and for [n = 0] the product is [0]. *)
Definition random_index (rnd n : nat) : nat :=
  match n with
  | 0 => 0
  | _ => rnd mod n
  end.

(** An array read [cells[i]] of a [number[]]. *)
Definition read (cells : list nat) (i : nat) : Value :=
  match cells !! i with
  | Some c => number c
  | None => undefined
  end.

(** [cells[Math.floor(Math.random() * cells.length)]]. *)
Definition random_cell (rnd : nat) (cells : list nat) : Value :=
  read cells (random_index rnd (length cells)).

(** The two scanning loops of [getAIMove], for [mark = 'O'] (winning move)
    and [mark = 'X'] (blocking move):
    [for (let cell of emptyCells) { const testBoard = [...board];
       testBoard[cell] = mark;
       if (checkWinner(testBoard) === mark) return cell; }]. *)
Fixpoint scan (mark : Player) (board : Board) (cells : list nat) : option nat :=
  match cells with
  | [] => None
  | cell :: rest =>
      let testBoard := <[cell := mark]> board in
      if Winner_eqb (checkWinner testBoard) (P mark)
      then Some cell
      else scan mark board rest
  end.

(** [board[i] === null]. *)
Definition is_null_at (board : Board) (i : nat) : bool :=
  match board !! i with
  | Some null => true
  | _ => false
  end.

(** The nested function [minimax].  The recursion of the source is bounded
    by the number of [null] cells among the indices [0..8]; here it is
    structural in [fuel], and [None] means that [fuel] ran out
    ([minimax_terminates]: one more than that number is enough).  The writes
    [board[i] = 'O'; ...; board[i] = null] around the recursive call are
    the functional update of the argument of that call ([Imp.minimax] has
    them in place). *)
Fixpoint minimax (fuel : nat) (board : Board) (depth : Z) (isMaximizing : bool)
  : option Score :=
  match fuel with
  | 0 => None
  | S fuel =>
      match checkWinner board with
      | P O => Some (Fin (10 - depth))
      | P X => Some (Fin (depth - 10))
      | draw => Some (Fin 0)
      | P null =>
          if isMaximizing then
            foldl (fun acc i =>
                     bestScore ← acc;
                     if is_null_at board i then
                       score ← minimax fuel (<[i := O]> board) (depth + 1) false;
                       Some (Score_max score bestScore)
                     else Some bestScore)
                  (Some NegInf) (seq 0 9)
          else
            foldl (fun acc i =>
                     bestScore ← acc;
                     if is_null_at board i then
                       score ← minimax fuel (<[i := X]> board) (depth + 1) true;
                       Some (Score_min score bestScore)
                     else Some bestScore)
                  (Some PosInf) (seq 0 9)
      end
  end.

(** The root loop of the hard tier:
    [for (let cell of emptyCells) { ... if (score > bestScore) {...} }],
    entered with [bestScore = -Infinity] and [bestMove = emptyCells[0]]. *)
Fixpoint root_loop (fuel : nat) (board : Board) (cells : list nat)
    (bestScore : Score) (bestMove : Value) : option Value :=
  match cells with
  | [] => Some bestMove
  | cell :: rest =>
      let testBoard := <[cell := O]> board in
      score ← minimax fuel testBoard 0 false;
      if Score_gtb score bestScore
      then root_loop fuel board rest score (number cell)
      else root_loop fuel board rest bestScore bestMove
  end.

(** [getAIMove], with the fuel of its [minimax] calls and the random draw
    [rnd] as arguments.  [None]: the fuel ran out; [Some v]: the call
    returns [v].  Every path draws at most one random number. *)
Definition getAIMove_fuel (fuel : nat) (board : Board) (difficulty : Difficulty)
    (rnd : nat) : option Value :=
  let emptyCells := emptyCells board in
  if bool_decide (difficulty = easy) then Some (random_cell rnd emptyCells)
  else
    (* Check for winning move *)
    match scan O board emptyCells with
    | Some cell => Some (number cell)
    | None =>
        (* Check for blocking move *)
        match scan X board emptyCells with
        | Some cell => Some (number cell)
        | None =>
            let after_medium :=
              if bool_decide (difficulty = hard)
              then root_loop fuel board emptyCells NegInf (read emptyCells 0)
              else Some (random_cell rnd emptyCells) in
            if bool_decide (difficulty = medium) then
              (* Take center if available *)
              if is_null_at board 4 then Some (number 4)
              else
                (* Take corners *)
                let corners := List.filter (is_null_at board) [0; 2; 6; 8] in
                if (0 <? length corners) then Some (random_cell rnd corners)
                else after_medium
            else after_medium
        end
    end.

(** The search is at most nine plies deep (the cells of the indices
    [0..8]), so ten levels of [minimax] always suffice. *)
Definition search_fuel : nat := 10.

Definition getAIMove (board : Board) (difficulty : Difficulty) (rnd : nat)
  : option Value :=
  getAIMove_fuel search_fuel board difficulty rnd.

(** ** The same functions over a store of arrays *)

Module Imp.

(** The arrays allocated so far; an address is a position in the store. *)
Abbreviation Store := (list Board).

(** A computation returns a value and the new store, or stops ([None]):
    when the fuel of [minimax] runs out, at a dangling address, and at a
    write past the end of an array (which would lengthen the array; no
    write of this program is one). *)
Definition M (A : Type) : Type := Store → option (A * Store).

Definition ret {A} (a : A) : M A := fun σ => Some (a, σ).

Definition bind {A B} (m : M A) (k : A → M B) : M B :=
  fun σ => match m σ with
           | Some (a, σ') => k a σ'
           | None => None
           end.

Definition stop {A} : M A := fun _ => None.

(** The outcome of a computation that returns the value of [r] in the
    store [σ], or stops if [r] is [None]. *)
Abbreviation lift r σ :=
  (match r with Some v => Some (v, σ) | None => None end).

(** The contents of the array at [a]. *)
Definition contents (a : nat) : M Board :=
  fun σ => match σ !! a with
           | Some board => Some (board, σ)
           | None => None
           end.

(** [a[i]]. *)
Definition load (a i : nat) : M (option Player) :=
  bind (contents a) (fun board => ret (board !! i)).

(** [a[i] = v]. *)
Definition store (a i : nat) (v : Player) : M unit :=
  fun σ => match σ !! a with
           | Some board =>
               if (i <? length board)
               then Some (tt, <[a := <[i := v]> board]> σ)
               else None
           | None => None
           end.

(** [[...a]]: a new array with the contents of [a]. *)
Definition spread (a : nat) : M nat :=
  fun σ => match σ !! a with
           | Some board => Some (length σ, σ ++ [board])
           | None => None
           end.

(** [checkWinner] reads its argument and writes nothing. *)
Definition checkWinner (board : nat) : M Winner :=
  bind (contents board) (fun cells => ret (checkWinner cells)).

Fixpoint minimax (fuel : nat) (board : nat) (depth : Z) (isMaximizing : bool)
  : M Score :=
  match fuel with
  | 0 => stop
  | S fuel =>
      bind (checkWinner board) (fun result =>
      match result with
      | P O => ret (Fin (10 - depth))
      | P X => ret (Fin (depth - 10))
      | draw => ret (Fin 0)
      | P null =>
          if isMaximizing then
            foldl (fun acc i =>
                     bind acc (fun bestScore =>
                     bind (load board i) (fun cell =>
                     if strict_eq cell (Some null) then
                       bind (store board i O) (fun _ =>
                       bind (minimax fuel board (depth + 1) false) (fun score =>
                       bind (store board i null) (fun _ =>
                       ret (Score_max score bestScore))))
                     else ret bestScore)))
                  (ret NegInf) (seq 0 9)
          else
            foldl (fun acc i =>
                     bind acc (fun bestScore =>
                     bind (load board i) (fun cell =>
                     if strict_eq cell (Some null) then
                       bind (store board i X) (fun _ =>
                       bind (minimax fuel board (depth + 1) true) (fun score =>
                       bind (store board i null) (fun _ =>
                       ret (Score_min score bestScore))))
                     else ret bestScore)))
                  (ret PosInf) (seq 0 9)
      end)
  end.

Fixpoint scan (mark : Player) (board : nat) (cells : list nat) : M (option nat) :=
  match cells with
  | [] => ret None
  | cell :: rest =>
      bind (spread board) (fun testBoard =>
      bind (store testBoard cell mark) (fun _ =>
      bind (checkWinner testBoard) (fun result =>
      if Winner_eqb result (P mark) then ret (Some cell)
      else scan mark board rest)))
  end.

Fixpoint root_loop (fuel : nat) (board : nat) (cells : list nat)
    (bestScore : Score) (bestMove : Value) : M Value :=
  match cells with
  | [] => ret bestMove
  | cell :: rest =>
      bind (spread board) (fun testBoard =>
      bind (store testBoard cell O) (fun _ =>
      bind (minimax fuel testBoard 0 false) (fun score =>
      if Score_gtb score bestScore
      then root_loop fuel board rest score (number cell)
      else root_loop fuel board rest bestScore bestMove)))
  end.

(** [[0, 2, 6, 8].filter(i => board[i] === null)]. *)
Fixpoint filter_null (board : nat) (cells : list nat) : M (list nat) :=
  match cells with
  | [] => ret []
  | i :: rest =>
      bind (load board i) (fun cell =>
      bind (filter_null board rest) (fun kept =>
      ret (if strict_eq cell (Some null) then i :: kept else kept)))
  end.

Definition getAIMove (fuel : nat) (board : nat) (difficulty : Difficulty)
    (rnd : nat) : M Value :=
  bind (contents board) (fun cells =>
  let emptyCells := emptyCells cells in
  if bool_decide (difficulty = easy) then ret (random_cell rnd emptyCells)
  else
    bind (scan O board emptyCells) (fun won =>
    match won with
    | Some cell => ret (number cell)
    | None =>
        bind (scan X board emptyCells) (fun blocked =>
        match blocked with
        | Some cell => ret (number cell)
        | None =>
            let after_medium :=
              if bool_decide (difficulty = hard)
              then root_loop fuel board emptyCells NegInf (read emptyCells 0)
              else ret (random_cell rnd emptyCells) in
            if bool_decide (difficulty = medium) then
              bind (load board 4) (fun centre =>
              if strict_eq centre (Some null) then ret (number 4)
              else
                bind (filter_null board [0; 2; 6; 8]) (fun corners =>
                if (0 <? length corners) then ret (random_cell rnd corners)
                else after_medium))
            else after_medium
        end)
    end)).

End Imp.

(** ** The component state and its handlers *)

Module App.

Record GameStats := { playerWins : nat; aiWins : nat; draws : nat }.

(** The state variables of [TicTacToeGame]. *)
Record State := {
  board : Board;
  currentPlayer : Player;
  gameMode : GameMode;
  difficulty : Difficulty;
  winner : Winner;
  stats : GameStats;
  gameCount : nat
}.

(** The initial values of the [useState] calls. *)
Definition initial : State :=
  {| board := replicate 9 null; currentPlayer := X; gameMode := menu;
     difficulty := medium; winner := P null;
     stats := {| playerWins := 0; aiWins := 0; draws := 0 |};
     gameCount := 0 |}.

(** Truthiness of a [Player | 'draw' | null]. *)
Definition is_over (w : Winner) : bool := negb (Winner_eqb w (P null)).

Definition updateStats (w : Winner) (s : State) : State :=
  let prev := stats s in
  {| board := board s; currentPlayer := currentPlayer s; gameMode := gameMode s;
     difficulty := difficulty s; winner := winner s;
     stats :=
       {| playerWins := if Winner_eqb w (P X) then playerWins prev + 1
                        else playerWins prev;
          aiWins := if Winner_eqb w (P O) && bool_decide (gameMode s = ai)
                    then aiWins prev + 1 else aiWins prev;
          draws := if Winner_eqb w draw then draws prev + 1 else draws prev |};
     gameCount := gameCount s + 1 |}.

Definition setBoard (b : Board) (s : State) : State :=
  {| board := b; currentPlayer := currentPlayer s; gameMode := gameMode s;
     difficulty := difficulty s; winner := winner s; stats := stats s;
     gameCount := gameCount s |}.

Definition setCurrentPlayer (p : Player) (s : State) : State :=
  {| board := board s; currentPlayer := p; gameMode := gameMode s;
     difficulty := difficulty s; winner := winner s; stats := stats s;
     gameCount := gameCount s |}.

Definition setWinner (w : Winner) (s : State) : State :=
  {| board := board s; currentPlayer := currentPlayer s; gameMode := gameMode s;
     difficulty := difficulty s; winner := w; stats := stats s;
     gameCount := gameCount s |}.

Definition setGameMode (m : GameMode) (s : State) : State :=
  {| board := board s; currentPlayer := currentPlayer s; gameMode := m;
     difficulty := difficulty s; winner := winner s; stats := stats s;
     gameCount := gameCount s |}.

Definition setDifficulty (d : Difficulty) (s : State) : State :=
  {| board := board s; currentPlayer := currentPlayer s; gameMode := gameMode s;
     difficulty := d; winner := winner s; stats := stats s;
     gameCount := gameCount s |}.

Definition resetGame (s : State) : State :=
  setWinner (P null) (setCurrentPlayer X (setBoard (replicate 9 null) s)).

Definition startGame (mode : GameMode) (diff : option Difficulty) (s : State) : State :=
  let s := setGameMode mode (resetGame s) in
  match diff with
  | Some d => setDifficulty d s
  | None => s
  end.

(** [handleCellPress(index)] together with the callback that it schedules
    for the reply of the computer, run as one step; [rnd] is the random
    draw of that reply.  The rendered cells are those of the board, so a
    press at an index past the end does nothing. *)
Definition handleCellPress (index rnd : nat) (s : State) : State :=
  if truthy (board s !! index) || is_over (winner s) then s
  else if negb (index <? length (board s)) then s
  else
    let newBoard := <[index := currentPlayer s]> (board s) in
    let s1 := setBoard newBoard s in
    let gameWinner := checkWinner newBoard in
    if is_over gameWinner then updateStats gameWinner (setWinner gameWinner s1)
    else if bool_decide (gameMode s = ai) && bool_decide (currentPlayer s = X) then
      let s2 := setCurrentPlayer O s1 in
      match getAIMove newBoard (difficulty s) rnd with
      | None => s2
      | Some aiMove =>
          let aiBoard := match aiMove with
                         | number i => <[i := O]> newBoard
                         | undefined => newBoard
                         end in
          let s3 := setBoard aiBoard s2 in
          let aiWinner := checkWinner aiBoard in
          if is_over aiWinner then updateStats aiWinner (setWinner aiWinner s3)
          else setCurrentPlayer X s3
      end
    else if bool_decide (gameMode s = pvp) then
      setCurrentPlayer (if bool_decide (currentPlayer s = X) then O else X) s1
    else s1.

(** What the user can do on the game screen. *)
Inductive Event :=
| press (index rnd : nat)
| pickDifficulty (d : Difficulty)
| newGame.

Definition step (s : State) (e : Event) : State :=
  match e with
  | press index rnd => handleCellPress index rnd s
  | pickDifficulty d => setDifficulty d s
  | newGame => resetGame s
  end.

Definition run (s : State) (events : list Event) : State := foldl step s events.

End App.

Import App.

(** ** Vocabulary of the specification *)

(** The three cells of [line] hold the same mark [p], and are not empty. *)
Definition filled (board : Board) (line : nat * nat * nat) (p : Player) : Prop :=
  p ≠ null ∧ board !! line.1.1 = Some p ∧ board !! line.1.2 = Some p
  ∧ board !! line.2 = Some p.

(** [line] is complete: its three cells are non-empty and identical. *)
Definition complete (board : Board) (line : nat * nat * nat) : Prop :=
  ∃ p, filled board line p.

(** The grid of the specification: the indices 0 to 8 are the cells of a
    3x3 grid in row-major order, so the cell in row [r] and column [c] has
    index [3 r + c]. *)
Definition cell_at (r c : nat) : nat := 3 * r + c.

(** The lines of the specification, in its order: the three rows, then
    the three columns, then the two diagonals of the grid.  This table is
    written from the grid, not from the table [lines] of the code. *)
Definition grid_lines : list (nat * nat * nat) :=
  ((fun r => (cell_at r 0, cell_at r 1, cell_at r 2)) <$> [0; 1; 2])
  ++ ((fun c => (cell_at 0 c, cell_at 1 c, cell_at 2 c)) <$> [0; 1; 2])
  ++ [ (cell_at 0 0, cell_at 1 1, cell_at 2 2);
       (cell_at 0 2, cell_at 1 1, cell_at 2 0) ].

(** The outcome that the specification assigns to a board: the mark of the
    first complete line among the rows, then the columns, then the
    diagonals; [draw] when no line is complete and no cell is empty;
    otherwise [null]. *)
Inductive Outcome (board : Board) : Winner → Prop :=
| Outcome_win before line after p :
    grid_lines = before ++ line :: after →
    Forall (fun l => ¬ complete board l) before →
    filled board line p →
    Outcome board (P p)
| Outcome_draw :
    Forall (fun l => ¬ complete board l) grid_lines →
    Forall (fun cell => cell ≠ null) board →
    Outcome board draw
| Outcome_in_progress :
    Forall (fun l => ¬ complete board l) grid_lines →
    Exists (fun cell => cell = null) board →
    Outcome board (P null).

(** The minimax value that the specification assigns to a position that
    lies [depth] plies below the root of the search, with ['O'] to move
    ([maximizing]) or ['X'].  A position with a result scores
    [depth - 10] if ['X'] has won, [10 - depth] if ['O'] has won and [0]
    if it is a draw.  A position without a result has the highest of the
    values of the positions that a move of ['O'] leads to, or the lowest
    of those that a move of ['X'] leads to, one ply deeper.  The relation
    is stated with [Outcome] and the empty cells of the board, not with
    the search of the code. *)
#[warnings="-register-all"]
Inductive Minimax : Board → Z → bool → Z → Prop :=
| Minimax_X board depth maximizing :
    Outcome board (P X) → Minimax board depth maximizing (depth - 10)
| Minimax_O board depth maximizing :
    Outcome board (P O) → Minimax board depth maximizing (10 - depth)
| Minimax_draw board depth maximizing :
    Outcome board draw → Minimax board depth maximizing 0
| Minimax_max board depth best i :
    Outcome board (P null) →
    board !! i = Some null →
    Minimax (<[i := O]> board) (depth + 1) false best →
    (∀ j, board !! j = Some null →
          ∃ z, Minimax (<[j := O]> board) (depth + 1) false z ∧ (z ≤ best)%Z) →
    Minimax board depth true best
| Minimax_min board depth best i :
    Outcome board (P null) →
    board !! i = Some null →
    Minimax (<[i := X]> board) (depth + 1) true best →
    (∀ j, board !! j = Some null →
          ∃ z, Minimax (<[j := X]> board) (depth + 1) true z ∧ (best ≤ z)%Z) →
    Minimax board depth false best.

(** The position after ['O'] plays at [cell] has the highest minimax value
    among the positions after the moves of ['O'] at the empty cells of
    [board]; the root of the search is that position, at depth 0 with
    ['X'] to move. *)
Definition highest_value (board : Board) (cell : nat) : Prop :=
  ∃ best, Minimax (<[cell := O]> board) 0 false best
          ∧ ∀ c, board !! c = Some null →
                 ∃ z, Minimax (<[c := O]> board) 0 false z ∧ (z ≤ best)%Z.

(** [cell] is the first empty cell, in increasing index order, of the
    highest minimax value: the empty cells before it have a smaller
    one. *)
Definition first_highest_value (board : Board) (cell : nat) : Prop :=
  ∃ best, Minimax (<[cell := O]> board) 0 false best
          ∧ (∀ c, board !! c = Some null →
                  ∃ z, Minimax (<[c := O]> board) 0 false z ∧ (z ≤ best)%Z)
          ∧ (∀ c, c < cell → board !! c = Some null →
                  ∃ z, Minimax (<[c := O]> board) 0 false z ∧ (z < best)%Z).

(** [cell] is one of the three indices of [line]. *)
Definition on_line (cell : nat) (line : nat * nat * nat) : bool :=
  let '(a, b, c) := line in
  (cell =? a) || (cell =? b) || (cell =? c).

(** The three cells of [line] hold [mark]. *)
Definition line_of (mark : Player) (board : Board) (line : nat * nat * nat) : bool :=
  let '(a, b, c) := line in
  strict_eq (board !! a) (Some mark) && strict_eq (board !! b) (Some mark)
  && strict_eq (board !! c) (Some mark).

(** The empty cell [cell] completes a line for [mark]: it lies on a line
    of the table whose three cells hold [mark] once [mark] is played at
    [cell]. *)
Definition completes (mark : Player) (board : Board) (cell : nat) : bool :=
  is_null_at board cell
  && existsb (fun line => on_line cell line
                          && line_of mark (<[cell := mark]> board) line) lines.

(** The test of the scanning loops of [getAIMove] at [cell]. *)
Definition scan_test (mark : Player) (board : Board) (cell : nat) : bool :=
  Winner_eqb (checkWinner (<[cell := mark]> board)) (P mark).

(** The number of [null] cells among the indices [0..8], which bounds the
    depth of the recursion of [minimax]. *)
Definition nulls9 (board : Board) : nat :=
  length (List.filter (is_null_at board) (seq 0 9)).

(** The minimax value of the position reached by playing ['O'] at [cell]:
    the score that the root loop of the hard tier computes for [cell]. *)
Definition move_value (board : Board) (cell : nat) : option Score :=
  minimax search_fuel (<[cell := O]> board) 0 false.

(** [cell] has a maximal minimax value among the empty cells of [board]. *)
Definition maximal (board : Board) (cell : nat) : Prop :=
  ∃ best, move_value board cell = Some best
          ∧ ∀ c, board !! c = Some null →
                 ∃ s, move_value board c = Some s ∧ Score_leb s best = true.

(** [cell] is the first empty cell, in increasing index order, of maximal
    minimax value: the empty cells before it have a smaller value. *)
Definition first_maximal (board : Board) (cell : nat) : Prop :=
  ∃ best, move_value board cell = Some best
          ∧ (∀ c, board !! c = Some null →
                  ∃ s, move_value board c = Some s ∧ Score_leb s best = true)
          ∧ (∀ c, c < cell → board !! c = Some null →
                  ∃ s, move_value board c = Some s ∧ Score_gtb best s = true).

(** [cell] is the lowest cell that completes a line for [mark]. *)
Definition lowest_completing (mark : Player) (board : Board) (cell : nat) : Prop :=
  completes mark board cell = true
  ∧ ∀ c, c < cell → completes mark board c = false.

(** [test] holds at some index of [cells] (the indices after a success are
    not tested). *)
Fixpoint some_cell (test : nat → bool) (cells : list nat) : bool :=
  match cells with
  | [] => false
  | c :: rest => if test c then true else some_cell test rest
  end.

(** [test] holds at every index of [cells] (the indices after a failure
    are not tested). *)
Fixpoint every_cell (test : nat → bool) (cells : list nat) : bool :=
  match cells with
  | [] => true
  | c :: rest => if test c then every_cell test rest else false
  end.

(** With ['X'] to move on [board], ['O'] can avoid a defeat: the game is
    over and ['X'] has not won, or to every move of ['X'] that does not end
    the game ['O'] has a reply after which it can again avoid a defeat.
    [n] bounds the number of rounds. *)
Fixpoint holds (n : nat) (board : Board) : bool :=
  match checkWinner board with
  | P X => false
  | P O | draw => true
  | P null =>
      match n with
      | 0 => false
      | S n =>
          every_cell
            (fun i =>
               let board1 := <[i := X]> board in
               match checkWinner board1 with
               | P X => false
               | P O | draw => true
               | P null =>
                   some_cell (fun c => holds n (<[c := O]> board1))
                     (emptyCells board1)
               end)
            (emptyCells board)
      end
  end.

(** With ['O'] to move on [board], ['O'] can avoid a defeat: the game is
    over and ['X'] has not won, or some reply of ['O'] leads to a position
    in which it can avoid a defeat in [n] rounds. *)
Definition holds_reply (n : nat) (board : Board) : bool :=
  match checkWinner board with
  | P X => false
  | P O | draw => true
  | P null => some_cell (fun c => holds n (<[c := O]> board)) (emptyCells board)
  end.

(** What a session at the hard tier keeps true of the state: the game is
    not won by ['X'], and while it is open it is the turn of ['X'] on a
    board on which ['O'] can avoid a defeat. *)
Definition hard_invariant (s : State) : Prop :=
  gameMode s = ai ∧ difficulty s = hard ∧ length (board s) = 9
  ∧ match winner s with
    | P X => False
    | P null => currentPlayer s = X ∧ checkWinner (board s) = P null
                ∧ ∃ n, holds n (board s) = true
    | _ => True
    end.

(** What the user does in a session at the hard tier: presses of cells
    ([Some (index, rnd)], with the random draw of the reply) and presses of
    the button for a new game ([None]). *)
Definition hard_session (actions : list (option (nat * nat))) : list Event :=
  (fun a => match a with
            | Some (index, rnd) => press index rnd
            | None => newGame
            end) <$> actions.

(** The board with the two marks exchanged. *)
Definition swap_marks (board : Board) : Board :=
  (fun cell => match cell with X => O | O => X | null => null end) <$> board.

(** The game in which the human side plays the choice of the hard tier
    too: [getAIMove] always plays ['O'], so the choice for ['X'] is its
    result on the board with the marks exchanged.  [n] bounds the number of
    presses. *)
Fixpoint self_play (n : nat) (s : State) : State :=
  match n with
  | 0 => s
  | S n =>
      if is_over (winner s) then s
      else match getAIMove (swap_marks (board s)) hard 0 with
           | Some (number index) => self_play n (handleCellPress index 0 s)
           | _ => s
           end
  end.

(** How a call ends: it returns a value or it throws. *)
Inductive Completion := returns (v : Value) | throws.

(** A call of [getAIMove].  The function has no [throw] statement, and the
    operations it is made of (reads of arrays, writes at indices read from
    them, calls of [checkWinner] and [minimax]) do not throw either: a call
    that ends, ends by returning. *)
Definition call_getAIMove (board : Board) (difficulty : Difficulty) (rnd : nat)
  : option Completion :=
  v ← getAIMove board difficulty rnd; Some (returns v).

(** ** The rest of the game screen, and its vocabulary *)

(** [goToMenu]. *)
Definition goToMenu (s : State) : State := setGameMode menu (resetGame s).

(** The controls of the screen.  The menu shows the two buttons that start
    a game; the game view shows the cells of the board, the button for a
    new game, the button back to the menu and, against the computer, the
    three difficulty buttons. *)
Inductive Action :=
| tapVsAI
| tapTwoPlayers
| tapCell (index rnd : nat)
| tapNewGame
| tapMenu
| tapDifficulty (d : Difficulty).

#[global] Instance Action_eq_dec : EqDecision Action.
Proof. solve_decision. Defined.

(** What a tap does: the handler of the control if the control is rendered
    in the current mode ([gameMode === 'menu' ? ... : ...], and
    [gameMode === 'ai' && ...] for the difficulty buttons), nothing
    otherwise.  A [tapCell] is the press together with the reply of the
    computer, as in [handleCellPress]: the user waits for the reply before
    the next tap.  [timeline] below does without this assumption. *)
Definition act (s : State) (a : Action) : State :=
  match a with
  | tapVsAI => if bool_decide (gameMode s = menu) then startGame ai None s else s
  | tapTwoPlayers => if bool_decide (gameMode s = menu) then startGame pvp None s else s
  | tapCell index rnd =>
      if bool_decide (gameMode s = menu) then s else handleCellPress index rnd s
  | tapNewGame => if bool_decide (gameMode s = menu) then s else resetGame s
  | tapMenu => if bool_decide (gameMode s = menu) then s else goToMenu s
  | tapDifficulty d => if bool_decide (gameMode s = ai) then setDifficulty d s else s
  end.

(** The state of the component after a sequence of taps. *)
Definition session (actions : list Action) : State := foldl act initial actions.

(** The number of cells of [board] that hold [mark]. *)
Definition count_mark (mark : Player) (board : Board) : nat :=
  length (filter (fun cell => cell = mark) board).

(** What every state of a session satisfies: the board has nine cells; the
    stored winner is the outcome of the board; the marks alternate from
    ['X'], so that in an open game it is the turn of ['X'] on a board with
    as many ['X'] as ['O'], or (between two players) the turn of ['O'] with
    one ['X'] more; and no more results are counted than games. *)
Definition session_invariant (s : State) : Prop :=
  length (board s) = 9
  ∧ winner s = checkWinner (board s)
  ∧ (winner s = P null →
     (currentPlayer s = X ∧ count_mark X (board s) = count_mark O (board s))
     ∨ (currentPlayer s = O ∧ gameMode s = pvp
        ∧ count_mark X (board s) = S (count_mark O (board s))))
  ∧ (count_mark X (board s) = count_mark O (board s)
     ∨ count_mark X (board s) = S (count_mark O (board s)))
  ∧ playerWins (stats s) + aiWins (stats s) + draws (stats s) ≤ gameCount s.

(** [v] is the other mark's result: the result of [checkWinner] on the
    board with the marks exchanged. *)
Definition swap_winner (w : Winner) : Winner :=
  match w with
  | P X => P O
  | P O => P X
  | P null => P null
  | draw => draw
  end.

(** ** The reply as a deferred callback *)

(** What the callback that [handleCellPress] hands to [setTimeout] closes
    over: the board after the press and the difficulty of the render in
    which the press was handled.  The mode of that render is ['ai'], and
    that is the mode its [updateStats] reads. *)
Record Reply := { newBoard : Board; replyDifficulty : Difficulty }.

(** The part of [handleCellPress] that runs at the press: the state that it
    leaves and the callback that it schedules, if any. *)
Definition press_now (index : nat) (s : State) : State * option Reply :=
  if truthy (board s !! index) || is_over (winner s) then (s, None)
  else if negb (index <? length (board s)) then (s, None)
  else
    let newBoard := <[index := currentPlayer s]> (board s) in
    let s1 := setBoard newBoard s in
    let gameWinner := checkWinner newBoard in
    if is_over gameWinner
    then (updateStats gameWinner (setWinner gameWinner s1), None)
    else if bool_decide (gameMode s = ai) && bool_decide (currentPlayer s = X) then
      (setCurrentPlayer O s1,
       Some {| newBoard := newBoard; replyDifficulty := difficulty s |})
    else if bool_decide (gameMode s = pvp) then
      (setCurrentPlayer (if bool_decide (currentPlayer s = X) then O else X) s1,
       None)
    else (s1, None).

(** The callback, run on the state [s] that it finds when the timer fires:
    it writes the board, and the winner or the turn; the counters are
    updated from their current values ([setStats(prev => ...)]). *)
Definition reply_later (r : Reply) (rnd : nat) (s : State) : State :=
  match getAIMove (newBoard r) (replyDifficulty r) rnd with
  | None => s
  | Some aiMove =>
      let aiBoard := match aiMove with
                     | number i => <[i := O]> (newBoard r)
                     | undefined => newBoard r
                     end in
      let s3 := setBoard aiBoard s in
      let aiWinner := checkWinner aiBoard in
      if is_over aiWinner
      then setGameMode (gameMode s)
             (updateStats aiWinner (setGameMode ai (setWinner aiWinner s3)))
      else setCurrentPlayer X s3
  end.

(** The screen with its pending timers, oldest first. *)
Record Screen := { state : State; timers : list Reply }.

(** What happens to the screen: the user taps a control, or the oldest
    pending timer fires ([rnd] is the random draw of its reply; the draw of
    a [tapCell] is not used here). *)
Inductive Tick := touch (a : Action) | fire (rnd : nat).

Definition tick (w : Screen) (t : Tick) : Screen :=
  match t with
  | touch (tapCell index _) =>
      if bool_decide (gameMode (state w) = menu) then w
      else
        let '(s, r) := press_now index (state w) in
        {| state := s;
           timers := timers w ++ match r with Some r => [r] | None => [] end |}
  | touch a => {| state := act (state w) a; timers := timers w |}
  | fire rnd =>
      match timers w with
      | [] => w
      | r :: rest => {| state := reply_later r rnd (state w); timers := rest |}
      end
  end.

(** The screen after a sequence of taps and timers. *)
Definition timeline (ticks : list Tick) : Screen :=
  foldl tick {| state := initial; timers := [] |} ticks.

(** The taps of a user who waits for each reply: the timer of a press
    fires before the next tap. *)
Definition patient (actions : list Action) : list Tick :=
  actions ≫= fun a => match a with
                       | tapCell index rnd => [touch a; fire rnd]
                       | _ => [touch a]
                       end.

(** ** The statistics screen *)

(** [formatDuration] of [frontend/app/stats.tsx], on a whole number of
    seconds: the screen passes it rounded averages and totals of game
    durations.  [pretty] is the decimal numeral that a template literal
    [`${n}`] writes for such a number (below [2^53], where the numbers of
    the source are exact). *)
Definition formatDuration (seconds : nat) : string :=
  if seconds <? 60 then pretty seconds +:+ "s"
  else
    let minutes := seconds / 60 in
    let remainingSeconds := seconds mod 60 in
    pretty minutes +:+ "m " +:+ pretty remainingSeconds +:+ "s".

(** [c] is a decimal digit. *)
Definition is_digit (c : ascii) : bool :=
  bool_decide (c ∈ ["0"; "1"; "2"; "3"; "4"; "5"; "6"; "7"; "8"; "9"]%char).

(** [s] consists of decimal digits. *)
Fixpoint all_digits (s : string) : bool :=
  match s with
  | EmptyString => true
  | String c s => is_digit c && all_digits s
  end.

(** * Properties *)

(** ** Scores *)

Lemma Score_leb_refl a : Score_leb a a = true.
Proof. destruct a; simpl; auto using Z.leb_refl. Qed.

Lemma Score_leb_trans a b c :
  Score_leb a b = true → Score_leb b c = true → Score_leb a c = true.
Proof.
  destruct a, b, c; simpl; try done.
  rewrite !Z.leb_le. lia.
Qed.

Lemma Score_leb_total a b : Score_leb a b = true ∨ Score_leb b a = true.
Proof.
  destruct a, b; simpl; auto.
  rewrite !Z.leb_le. lia.
Qed.

Lemma Score_gtb_leb a b : Score_gtb a b = true → Score_leb b a = true.
Proof.
  unfold Score_gtb. destruct (Score_leb_total a b) as [->| ->]; done.
Qed.

Lemma Score_gtb_false a b : Score_gtb a b = false → Score_leb a b = true.
Proof. unfold Score_gtb. by destruct (Score_leb a b). Qed.

Lemma Score_gtb_leb_trans a b c :
  Score_gtb a b = true → Score_leb c b = true → Score_gtb a c = true.
Proof.
  unfold Score_gtb. rewrite !negb_true_iff. intros Hab Hcb.
  destruct (Score_leb a c) eqn:Hac; [|done].
  by rewrite (Score_leb_trans _ _ _ Hac Hcb) in Hab.
Qed.

(** ** The outcome evaluator *)

Lemma line_complete_spec board line :
  line_complete board line = true ↔ complete board line.
Proof.
  destruct line as [[a b] c]. unfold line_complete, complete, filled. simpl.
  split.
  - destruct (board !! a) as [[| |]|], (board !! b) as [[| |]|],
      (board !! c) as [[| |]|]; simpl; try done; intros _;
      [by exists X|by exists O].
  - intros (p & Hp & -> & -> & ->). by destruct p.
Qed.

Lemma line_complete_filled board line p :
  line_complete board line = true → board !! line.1.1 = Some p →
  filled board line p.
Proof.
  intros [q (Hq & Ha & Hb & Hc)]%line_complete_spec Hp.
  assert (q = p) as -> by congruence. done.
Qed.

Lemma check_lines_Some board ls p :
  check_lines board ls = Some p →
  ∃ before line after,
    ls = before ++ line :: after
    ∧ Forall (fun l => ¬ complete board l) before
    ∧ filled board line p.
Proof.
  induction ls as [|l ls IH]; simpl; [done|].
  destruct (line_complete board l) eqn:Hl.
  - intros Hp. exists [], l, ls. eauto using line_complete_filled.
  - intros (before & line & after & -> & Hb & Hf)%IH.
    exists (l :: before), line, after. split_and!; [done| |done].
    constructor; [|done]. rewrite <- line_complete_spec. by rewrite Hl.
Qed.

Lemma check_lines_None board ls :
  check_lines board ls = None ↔ Forall (fun l => ¬ complete board l) ls.
Proof.
  induction ls as [|l ls IH]; simpl; [done|].
  destruct (line_complete board l) eqn:Hl.
  - destruct (proj1 (line_complete_spec _ _) Hl) as (p & Hp & Ha & Hb & Hc).
    rewrite Ha. split; [done|].
    intros [Hn _]%Forall_cons_1. destruct Hn. by exists p.
  - rewrite IH. split.
    + intros Hls. constructor; [|done].
      rewrite <- line_complete_spec. by rewrite Hl.
    + by intros [_ ?]%Forall_cons_1.
Qed.

Lemma check_lines_first board before line after p :
  Forall (fun l => ¬ complete board l) before →
  filled board line p →
  check_lines board (before ++ line :: after) = Some p.
Proof.
  intros Hb Hf. induction Hb as [|l before Hl _ IH]; simpl.
  - assert (line_complete board line = true) as ->
      by (apply line_complete_spec; by exists p).
    by destruct Hf as (_ & ? & _).
  - rewrite <- line_complete_spec in Hl.
    by destruct (line_complete board l).
Qed.

Lemma forallb_not_null board :
  forallb not_null board = true ↔ Forall (fun cell => cell ≠ null) board.
Proof.
  induction board as [|c board IH]; simpl.
  - split; [constructor|done].
  - rewrite andb_true_iff, IH. split.
    + intros [Hc ?]. constructor; [|done]. by destruct c.
    + intros [Hc ?]%Forall_cons_1. split; [|done]. by destruct c.
Qed.

Lemma forallb_not_null_false board :
  forallb not_null board = false ↔ Exists (fun cell => cell = null) board.
Proof.
  induction board as [|c board IH]; simpl.
  - split; [done|]. by intros ?%Exists_nil.
  - rewrite andb_false_iff, IH, Exists_cons.
    destruct c; simpl; intuition congruence.
Qed.

Lemma grid_lines_table : lines = grid_lines.
Proof. reflexivity. Qed.

Lemma checkWinner_is_Outcome (board : Board) : Outcome board (checkWinner board).
Proof.
  unfold checkWinner. destruct (check_lines board lines) as [p|] eqn:Hl.
  - apply check_lines_Some in Hl as (before & line & after & ? & ? & ?).
    eapply Outcome_win; [|done..]. by rewrite <- grid_lines_table.
  - apply check_lines_None in Hl. rewrite grid_lines_table in Hl.
    destruct (forallb not_null board) eqn:Hf.
    + apply Outcome_draw; [done|]. by apply forallb_not_null.
    + apply Outcome_in_progress; [done|]. by apply forallb_not_null_false.
Qed.

Lemma Outcome_is_checkWinner (board : Board) (w : Winner) :
  Outcome board w → checkWinner board = w.
Proof.
  unfold checkWinner. rewrite grid_lines_table.
  intros [before line after p -> Hb Hf|Hl Hf|Hl Hf].
  - by rewrite (check_lines_first _ _ _ _ _ Hb Hf).
  - apply check_lines_None in Hl as ->.
    apply forallb_not_null in Hf. by rewrite Hf.
  - apply check_lines_None in Hl as ->.
    apply forallb_not_null_false in Hf. by rewrite Hf.
Qed.

(** C1. [checkWinner] returns the mark of the first line, in the order
    rows, columns, diagonals of the 3x3 grid, whose three cells are
    non-empty and identical; ['draw'] if no line is complete and no cell is
    empty; and [null] otherwise: its result is the outcome of the board,
    and the only one.  The lines of [Outcome] are those of the grid
    ([grid_lines]), so the statement also says that the table of the code
    holds these eight triples in this order.  (For every board, of nine
    cells or not.) *)
Theorem checkWinner_outcome (board : Board) (w : Winner) :
  checkWinner board = w ↔ Outcome board w.
Proof.
  split.
  - intros <-. unfold checkWinner.
    destruct (check_lines board lines) as [p|] eqn:Hl.
    + apply check_lines_Some in Hl as (before & line & after & Heq & ? & ?).
      change lines with grid_lines in Heq. by eapply Outcome_win.
    + apply check_lines_None in Hl. change lines with grid_lines in Hl.
      destruct (forallb not_null board) eqn:Hf.
      * apply Outcome_draw; [done|]. by apply forallb_not_null.
      * apply Outcome_in_progress; [done|]. by apply forallb_not_null_false.
  - apply Outcome_is_checkWinner.
Qed.

(** ** The empty cells *)

Lemma emptyCells_shift (board : Board) k :
  omap id (imap (fun index c => if not_null c then None else Some (k + index)) board)
  = (fun j => k + j) <$> emptyCells board.
Proof.
  unfold emptyCells. revert k.
  induction board as [|c l IH]; intros k; [done|].
  rewrite !imap_cons.
  rewrite (imap_ext (_ ∘ S) (fun index c => if not_null c then None else Some (S k + index)) l)
    by (intros; simpl; destruct (not_null _); [done|f_equal; lia]).
  rewrite (imap_ext ((fun index c => if not_null c then None else Some index) ∘ S)
             (fun index c => if not_null c then None else Some (1 + index)) l)
    by done.
  change (omap id (?x :: ?l)) with (match id x with Some y => y :: omap id l | None => omap id l end).
  rewrite (IH (S k)), (IH 1).
  destruct (not_null c); simpl; rewrite <- list_fmap_compose.
  - apply list_fmap_ext. intros; simpl; lia.
  - f_equal. apply list_fmap_ext. intros; simpl; lia.
Qed.

Lemma emptyCells_cons cell (board : Board) :
  emptyCells (cell :: board)
  = (if not_null cell then [] else [0]) ++ (S <$> emptyCells board).
Proof.
  change (S <$> emptyCells board) with ((fun j => 1 + j) <$> emptyCells board).
  rewrite <- (emptyCells_shift board 1).
  unfold emptyCells. rewrite imap_cons. simpl.
  by destruct (not_null cell).
Qed.

Lemma elem_of_middle {A} (x : A) l1 l2 : x ∈ l1 ++ x :: l2.
Proof. apply elem_of_app. right. by left. Qed.

Lemma elem_of_emptyCells board cell :
  cell ∈ emptyCells board ↔ board !! cell = Some null.
Proof.
  revert cell. induction board as [|c board IH]; intros cell.
  - split; [by intros ?%elem_of_nil|done].
  - rewrite emptyCells_cons, elem_of_app, list_elem_of_fmap.
    destruct cell as [|cell]; simpl.
    + destruct c; simpl; rewrite ?elem_of_nil, ?list_elem_of_singleton;
        split; try done; try (intros [[]|(? & ? & _)]; done); auto.
    + rewrite <- IH. split.
      * intros [H|(j & [= ->] & ?)]; [|done].
        destruct c; simpl in H;
          rewrite ?elem_of_nil, ?list_elem_of_singleton in H; done.
      * intros. right. eauto.
Qed.

Lemma emptyCells_lt board cell :
  cell ∈ emptyCells board → cell < length board.
Proof. rewrite elem_of_emptyCells. apply lookup_lt_Some. Qed.

Lemma emptyCells_sorted board : StronglySorted lt (emptyCells board).
Proof.
  induction board as [|c board IH]; [constructor|].
  rewrite emptyCells_cons.
  assert (StronglySorted lt (S <$> emptyCells board)) as Hs.
  { clear -IH. induction IH as [|x l Hl IH Hx]; simpl; constructor; [done|].
    apply Forall_fmap. eapply Forall_impl; [done|]. simpl. lia. }
  destruct (not_null c); simpl; [done|].
  constructor; [done|]. apply Forall_fmap, Forall_true. simpl. lia.
Qed.

(** In the list of the empty cells, the cells before [cell] are the empty
    cells of a smaller index. *)
Lemma emptyCells_before board l1 cell l2 c :
  emptyCells board = l1 ++ cell :: l2 →
  c ∈ l1 ↔ board !! c = Some null ∧ c < cell.
Proof.
  intros Heq. pose proof (emptyCells_sorted board) as Hs. rewrite Heq in Hs.
  rewrite <- elem_of_emptyCells, Heq.
  assert (Forall (fun x => x < cell) l1) as H1.
  { clear -Hs. induction l1 as [|x l1 IH]; [constructor|].
    simpl in Hs. apply StronglySorted_inv in Hs as [Hs Hx].
    constructor; [|by apply IH].
    by apply Forall_app in Hx as [_ [? _]%Forall_cons_1]. }
  assert (Forall (fun x => cell < x) l2) as H2.
  { clear -Hs. induction l1 as [|x l1 IH]; simpl in Hs.
    - by apply StronglySorted_inv in Hs as [_ ?].
    - apply StronglySorted_inv in Hs as [Hs _]. by apply IH. }
  rewrite Forall_forall in H1, H2. split.
  - intros Hc. split; [|by apply H1]. apply elem_of_app. by left.
  - intros [[Hc|[->|Hc]%elem_of_cons]%elem_of_app Hlt]; [done|lia|].
    apply H2 in Hc. lia.
Qed.

(** ** The scanning loops *)

Lemma scan_Some mark board cells cell :
  scan mark board cells = Some cell →
  ∃ l1 l2, cells = l1 ++ cell :: l2
           ∧ scan_test mark board cell = true
           ∧ Forall (fun c => scan_test mark board c = false) l1.
Proof.
  induction cells as [|c cells IH]; simpl; [done|].
  fold (scan_test mark board c). destruct (scan_test mark board c) eqn:Hc.
  - intros [= ->]. by exists [], cells.
  - intros (l1 & l2 & -> & ? & ?)%IH. exists (c :: l1), l2. eauto.
Qed.

Lemma scan_None mark board cells :
  scan mark board cells = None ↔
  Forall (fun c => scan_test mark board c = false) cells.
Proof.
  induction cells as [|c cells IH]; simpl; [done|].
  fold (scan_test mark board c). destruct (scan_test mark board c) eqn:Hc.
  - split; [done|]. intros [? _]%Forall_cons_1. congruence.
  - rewrite IH. split; [by constructor|by intros [_ ?]%Forall_cons_1].
Qed.

Lemma checkWinner_mark board mark :
  mark ≠ null →
  checkWinner board = P mark ↔ check_lines board lines = Some mark.
Proof.
  intros Hm. unfold checkWinner.
  destruct (check_lines board lines) as [p|]; [split; congruence|].
  destruct (forallb not_null board); split; congruence.
Qed.

Lemma checkWinner_null_lines board :
  checkWinner board = P null → Forall (fun l => ¬ complete board l) lines.
Proof.
  unfold checkWinner. intros H. apply check_lines_None.
  destruct (check_lines board lines) as [p|] eqn:Hl; [|done].
  apply check_lines_Some in Hl as (_ & _ & _ & _ & _ & [? _]). congruence.
Qed.

Lemma Winner_eqb_eq v w : Winner_eqb v w = true ↔ v = w.
Proof. destruct v as [[]|], w as [[]|]; simpl; split; congruence. Qed.

Lemma strict_eq_eq v w : strict_eq v w = true ↔ v = w.
Proof. destruct v as [[]|], w as [[]|]; simpl; split; congruence. Qed.

Lemma is_null_at_eq board i : is_null_at board i = true ↔ board !! i = Some null.
Proof. unfold is_null_at. destruct (board !! i) as [[]|]; split; congruence. Qed.

Lemma line_of_filled mark board line :
  mark ≠ null → line_of mark board line = true ↔ filled board line mark.
Proof.
  intros Hm. destruct line as [[a b] c]. unfold line_of, filled. simpl.
  rewrite !andb_true_iff, !strict_eq_eq. intuition.
Qed.

(** A line that avoids [cell] reads the same before and after a write at
    [cell]. *)
Lemma filled_insert_off board cell mark line p :
  on_line cell line = false →
  filled (<[cell := mark]> board) line p → filled board line p.
Proof.
  destruct line as [[a b] c]. unfold on_line, filled. simpl.
  rewrite !orb_false_iff, !Nat.eqb_neq. intros [[? ?] ?].
  by rewrite !list_lookup_insert_ne by done.
Qed.

Lemma filled_insert_on board cell mark line p :
  cell < length board → on_line cell line = true →
  filled (<[cell := mark]> board) line p → p = mark.
Proof.
  destruct line as [[a b] c]. unfold on_line, filled. simpl.
  rewrite !orb_true_iff, !Nat.eqb_eq. intros Hlt [[<-|<-]|<-] (_ & Ha & Hb & Hc).
  - rewrite list_lookup_insert_eq in Ha by done. congruence.
  - rewrite list_lookup_insert_eq in Hb by done. congruence.
  - rewrite list_lookup_insert_eq in Hc by done. congruence.
Qed.

(** On a board without a complete line, the test of the scanning loops
    holds at an empty cell exactly when the cell completes a line for the
    mark. *)
Lemma scan_test_completes mark board cell :
  mark ≠ null → checkWinner board = P null → board !! cell = Some null →
  scan_test mark board cell = completes mark board cell.
Proof.
  intros Hm Hnone%checkWinner_null_lines Hcell.
  pose proof (lookup_lt_Some _ _ _ Hcell) as Hlt.
  rewrite Forall_forall in Hnone.
  unfold completes. rewrite (proj2 (is_null_at_eq _ _) Hcell), andb_true_l.
  apply eq_true_iff_eq. unfold scan_test.
  rewrite Winner_eqb_eq, checkWinner_mark, existsb_exists by done. split.
  - intros (before & line & after & Hl & _ & Hf)%check_lines_Some.
    exists line. split; [rewrite Hl; apply in_or_app; right; by left|].
    rewrite andb_true_iff, line_of_filled by done. split; [|done].
    destruct (on_line cell line) eqn:Hon; [done|].
    destruct (Hnone line).
    + rewrite Hl. apply elem_of_middle.
    + exists mark. by eapply filled_insert_off.
  - intros (line & Hin & [Hon Hf]%andb_true_iff).
    apply line_of_filled in Hf; [|done].
    destruct (check_lines (<[cell:=mark]> board) lines) as [p|] eqn:Hcl.
    + apply check_lines_Some in Hcl as (before & l0 & after & Hl & _ & Hf0).
      destruct (on_line cell l0) eqn:Hon0.
      * f_equal. by eapply filled_insert_on.
      * destruct (Hnone l0); [rewrite Hl; apply elem_of_middle|].
        exists p. by eapply filled_insert_off.
    + rewrite check_lines_None, Forall_forall in Hcl.
      destruct (Hcl line); [by apply list_elem_of_In|]. by exists mark.
Qed.

Lemma scan_empty_Some mark board cell :
  mark ≠ null → checkWinner board = P null →
  scan mark board (emptyCells board) = Some cell →
  completes mark board cell = true
  ∧ ∀ c, c < cell → completes mark board c = false.
Proof.
  intros Hm Hb (l1 & l2 & Heq & Ht & Hl1)%scan_Some.
  assert (board !! cell = Some null) as Hcell
    by (apply elem_of_emptyCells; rewrite Heq; apply elem_of_middle).
  rewrite scan_test_completes in Ht by done. split; [done|].
  intros c Hc. destruct (is_null_at board c) eqn:Hn.
  - apply is_null_at_eq in Hn.
    rewrite <- scan_test_completes by done.
    rewrite Forall_forall in Hl1. apply Hl1.
    by apply (emptyCells_before _ _ _ _ _ Heq).
  - unfold completes. by rewrite Hn.
Qed.

Lemma scan_empty_None mark board c :
  mark ≠ null → checkWinner board = P null →
  scan mark board (emptyCells board) = None →
  completes mark board c = false.
Proof.
  intros Hm Hb Hs. rewrite scan_None, Forall_forall in Hs.
  destruct (is_null_at board c) eqn:Hn.
  - apply is_null_at_eq in Hn.
    rewrite <- scan_test_completes by done.
    by apply Hs, elem_of_emptyCells.
  - unfold completes. by rewrite Hn.
Qed.

Lemma scan_empty_exists mark board c :
  mark ≠ null → checkWinner board = P null →
  completes mark board c = true →
  ∃ cell, scan mark board (emptyCells board) = Some cell.
Proof.
  intros Hm Hb Hc. destruct (scan mark board (emptyCells board)) eqn:Hs; [eauto|].
  rewrite (scan_empty_None mark board c) in Hc; done.
Qed.

(** C4. On a board without a result, the medium tier playing ['O'] returns
    an empty cell that completes a line for ['O'] whenever there is one;
    when there is none and some empty cell would complete a line for
    ['X'], it returns such a cell; and it returns index 2 on the two
    boards of the specification. *)
Theorem medium_wins_or_blocks (board : Board) (rnd : nat) :
  checkWinner board = P null →
  ((∃ c, completes O board c = true) →
   ∃ cell, getAIMove board medium rnd = Some (number cell)
           ∧ completes O board cell = true)
  ∧ ((∀ c, completes O board c = false) →
     (∃ c, completes X board c = true) →
     ∃ cell, getAIMove board medium rnd = Some (number cell)
             ∧ completes X board cell = true)
  ∧ getAIMove [O; O; null; X; X; null; null; null; null] medium rnd
    = Some (number 2)
  ∧ getAIMove [X; X; null; null; null; null; null; null; null] medium rnd
    = Some (number 2).
Proof.
  intros Hb. unfold getAIMove, getAIMove_fuel. split_and!; [| |done..].
  - intros [c Hc].
    destruct (scan_empty_exists O board c) as [cell Hs]; [done..|].
    exists cell. simpl. rewrite Hs. split; [done|].
    by apply scan_empty_Some in Hs as [? _].
  - intros HO [c Hc].
    destruct (scan_empty_exists X board c) as [cell Hs]; [done..|].
    exists cell. simpl.
    destruct (scan O board (emptyCells board)) as [cellO|] eqn:HsO.
    + apply scan_empty_Some in HsO as [HsO _]; [|done..].
      by rewrite HO in HsO.
    + rewrite Hs. split; [done|].
      by apply scan_empty_Some in Hs as [? _].
Qed.

(** C4 on the first board of the specification: the winning move at index 2. *)
Lemma medium_wins_or_blocks_witness :
  ∃ cell, getAIMove [O; O; null; X; X; null; null; null; null] medium 0
          = Some (number cell)
          ∧ completes O [O; O; null; X; X; null; null; null; null] cell = true.
Proof.
  apply (medium_wins_or_blocks [O; O; null; X; X; null; null; null; null] 0).
  - reflexivity.
  - by exists 2.
Defined.

(** C9, as the code has it.  On a board without a completed line, the
    scans for a winning and for a blocking move decide the hard tier
    before its search: if some empty cell completes a line for ['O'],
    [getAIMove] returns the lowest such cell; if none does and some empty
    cell completes a line for ['X'], it returns the lowest such cell; in
    both cases whatever the fuel of the search, even none, so [minimax] is
    not called. *)
Theorem hard_scans_first (board : Board) (rnd : nat) :
  checkWinner board = P null →
  ((∃ c, completes O board c = true) →
   ∃ cell, (∀ fuel, getAIMove_fuel fuel board hard rnd = Some (number cell))
           ∧ completes O board cell = true
           ∧ ∀ c, c < cell → completes O board c = false)
  ∧ ((∀ c, completes O board c = false) →
     (∃ c, completes X board c = true) →
     ∃ cell, (∀ fuel, getAIMove_fuel fuel board hard rnd = Some (number cell))
             ∧ completes X board cell = true
             ∧ ∀ c, c < cell → completes X board c = false).
Proof.
  intros Hb. unfold getAIMove_fuel. split.
  - intros [c Hc].
    destruct (scan_empty_exists O board c) as [cell Hs]; [done..|].
    exists cell. simpl. rewrite Hs. split; [done|].
    by apply scan_empty_Some in Hs.
  - intros HO [c Hc].
    destruct (scan_empty_exists X board c) as [cell Hs]; [done..|].
    exists cell. simpl.
    destruct (scan O board (emptyCells board)) as [cellO|] eqn:HsO.
    + apply scan_empty_Some in HsO as [HsO _]; [|done..].
      by rewrite HO in HsO.
    + rewrite Hs. split; [done|].
      by apply scan_empty_Some in Hs.
Qed.

(** C9 on a board where ['O'] can win at index 2. *)
Lemma hard_scans_first_witness :
  ∃ cell,
    (∀ fuel, getAIMove_fuel fuel [O; O; null; X; X; null; null; null; null] hard 0
             = Some (number cell))
    ∧ completes O [O; O; null; X; X; null; null; null; null] cell = true
    ∧ ∀ c, c < cell → completes O [O; O; null; X; X; null; null; null; null] c = false.
Proof.
  apply (hard_scans_first [O; O; null; X; X; null; null; null; null] 0).
  - reflexivity.
  - by exists 2.
Defined.

(** C9 as stated fails on a board that already has a completed line: here
    ['X'] holds the top row, cell 8 is the only empty cell that completes
    a line for ['O'], and the hard tier returns cell 3. *)
Lemma hard_scans_first_needs_open_board :
  completes O [X; X; X; null; null; null; O; O; null] 8 = true
  ∧ forallb (fun c => negb (completes O [X; X; X; null; null; null; O; O; null] c))
      (seq 0 8) = true
  ∧ getAIMove [X; X; X; null; null; null; O; O; null] hard 0 = Some (number 3).
Proof. by vm_compute. Qed.

(** ** Termination of the search *)

Lemma nulls9_le board : nulls9 board ≤ 9.
Proof.
  unfold nulls9.
  etransitivity; [apply List.filter_length_le|]. by rewrite length_seq.
Qed.

Lemma is_null_at_insert_ne (board : Board) i j mark :
  i ≠ j → is_null_at (<[i := mark]> board) j = is_null_at board j.
Proof. intros. unfold is_null_at. by rewrite list_lookup_insert_ne. Qed.

Lemma is_null_at_insert_eq (board : Board) i mark :
  mark ≠ null → is_null_at (<[i := mark]> board) i = false.
Proof.
  intros. unfold is_null_at. destruct (decide (i < length board)).
  - rewrite list_lookup_insert_eq by done. by destruct mark.
  - rewrite list_insert_ge, lookup_ge_None_2 by lia. done.
Qed.

Lemma filter_null_insert (board : Board) i mark (l : list nat) :
  mark ≠ null → board !! i = Some null → NoDup l →
  length (List.filter (is_null_at (<[i := mark]> board)) l)
  + (if bool_decide (i ∈ l) then 1 else 0)
  = length (List.filter (is_null_at board) l).
Proof.
  intros Hm Hi. induction 1 as [|x l Hx Hl IH]; [done|]. simpl.
  destruct (decide (i = x)) as [<-|Hne].
  - rewrite is_null_at_insert_eq by done.
    rewrite (proj2 (is_null_at_eq _ _) Hi).
    rewrite bool_decide_eq_true_2 by left.
    rewrite bool_decide_eq_false_2 in IH by done.
    simpl. lia.
  - rewrite is_null_at_insert_ne by done.
    rewrite (bool_decide_ext (i ∈ x :: l) (i ∈ l))
      by (rewrite elem_of_cons; intuition).
    destruct (is_null_at board x); simpl; lia.
Qed.

Lemma nulls9_insert (board : Board) i mark :
  mark ≠ null → i < 9 → board !! i = Some null →
  S (nulls9 (<[i := mark]> board)) = nulls9 board.
Proof.
  intros Hm Hi Hn. unfold nulls9.
  rewrite <- (filter_null_insert board i mark (seq 0 9)); [|done|done|apply NoDup_seq].
  rewrite bool_decide_eq_true_2; [lia|].
  apply elem_of_seq. lia.
Qed.

(** The loop of [minimax] over the indices ends when the recursive calls
    at the [null] cells do. *)
Lemma minimax_loop_total (board : Board) (child : nat → option Score)
    (op : Score → Score → Score) (l : list nat) (init : Score) :
  (∀ i, i ∈ l → is_null_at board i = true → is_Some (child i)) →
  is_Some (foldl (fun acc i =>
                    bestScore ← acc;
                    if is_null_at board i then
                      score ← child i; Some (op score bestScore)
                    else Some bestScore) (Some init) l).
Proof.
  revert init. induction l as [|i l IH]; intros init Hl; simpl; [done|].
  destruct (is_null_at board i) eqn:Hi.
  - destruct (Hl i) as [s ->]; [by left|done|]. simpl.
    apply IH. intros; apply Hl; [by right|done].
  - apply IH. intros; apply Hl; [by right|done].
Qed.

Lemma minimax_S fuel board depth isMaximizing :
  minimax (S fuel) board depth isMaximizing =
  match checkWinner board with
  | P O => Some (Fin (10 - depth))
  | P X => Some (Fin (depth - 10))
  | draw => Some (Fin 0)
  | P null =>
      if isMaximizing then
        foldl (fun acc i =>
                 bestScore ← acc;
                 if is_null_at board i then
                   score ← minimax fuel (<[i := O]> board) (depth + 1) false;
                   Some (Score_max score bestScore)
                 else Some bestScore)
              (Some NegInf) (seq 0 9)
      else
        foldl (fun acc i =>
                 bestScore ← acc;
                 if is_null_at board i then
                   score ← minimax fuel (<[i := X]> board) (depth + 1) true;
                   Some (Score_min score bestScore)
                 else Some bestScore)
              (Some PosInf) (seq 0 9)
  end.
Proof. reflexivity. Qed.

(** [minimax] returns whenever its fuel exceeds the number of [null] cells
    among the indices [0..8]. *)
Lemma minimax_terminates fuel board depth isMaximizing :
  nulls9 board < fuel → is_Some (minimax fuel board depth isMaximizing).
Proof.
  revert board depth isMaximizing.
  induction fuel as [|fuel IH]; intros board depth isMaximizing Hf; [lia|].
  rewrite minimax_S. destruct (checkWinner board) as [[| |]|]; [done|done| |done].
  destruct isMaximizing.
  - apply (minimax_loop_total board
             (fun i => minimax fuel (<[i := O]> board) (depth + 1) false) Score_max).
    intros i Hi%elem_of_seq Hn%is_null_at_eq. apply IH.
    rewrite <- (nulls9_insert board i O) in Hf; [lia|done|lia|done].
  - apply (minimax_loop_total board
             (fun i => minimax fuel (<[i := X]> board) (depth + 1) true) Score_min).
    intros i Hi%elem_of_seq Hn%is_null_at_eq. apply IH.
    rewrite <- (nulls9_insert board i X) in Hf; [lia|done|lia|done].
Qed.

Lemma minimax_search_fuel board depth isMaximizing :
  is_Some (minimax search_fuel board depth isMaximizing).
Proof.
  apply minimax_terminates. pose proof (nulls9_le board).
  unfold search_fuel. lia.
Qed.

Lemma minimax_loop_mono (board : Board) (child child' : nat → option Score)
    (op : Score → Score → Score) (l : list nat) (init : option Score) s :
  (∀ i v, child i = Some v → child' i = Some v) →
  foldl (fun acc i =>
           bestScore ← acc;
           if is_null_at board i then
             score ← child i; Some (op score bestScore)
           else Some bestScore) init l = Some s →
  foldl (fun acc i =>
           bestScore ← acc;
           if is_null_at board i then
             score ← child' i; Some (op score bestScore)
           else Some bestScore) init l = Some s.
Proof.
  intros Hc. revert init. induction l as [|i l IH]; intros init; simpl; [done|].
  destruct init as [bestScore|]; simpl.
  - destruct (is_null_at board i); [|apply IH].
    destruct (child i) as [v|] eqn:Hv.
    + rewrite (Hc _ _ Hv). apply IH.
    + simpl. intros Hnone. exfalso. clear -Hnone.
      induction l as [|j l IH]; simpl in Hnone; [done|auto].
  - intros Hnone. exfalso. clear -Hnone.
    induction l as [|j l IH]; simpl in Hnone; [done|auto].
Qed.

(** More fuel does not change a result of [minimax]. *)
Lemma minimax_fuel_mono fuel fuel' board depth isMaximizing s :
  fuel ≤ fuel' →
  minimax fuel board depth isMaximizing = Some s →
  minimax fuel' board depth isMaximizing = Some s.
Proof.
  revert fuel' board depth isMaximizing s.
  induction fuel as [|fuel IH]; intros fuel' board depth isMaximizing s Hle; [done|].
  destruct fuel' as [|fuel']; [lia|]. rewrite !minimax_S.
  destruct (checkWinner board) as [[| |]|]; [done|done| |done].
  destruct isMaximizing; apply minimax_loop_mono; intros i v; apply IH; lia.
Qed.

(** ** The root loop of the hard tier *)

(** The loop returns the first cell whose score exceeds [bestScore] and is
    maximal among the scores of [cells], or [bestMove] if no score exceeds
    [bestScore]. *)
Lemma root_loop_spec fuel board cells bestScore bestMove v :
  root_loop fuel board cells bestScore bestMove = Some v →
  (v = bestMove
   ∧ Forall (fun c => ∃ s, minimax fuel (<[c := O]> board) 0 false = Some s
                           ∧ Score_leb s bestScore = true) cells)
  ∨ (∃ l1 cell l2 s,
       cells = l1 ++ cell :: l2 ∧ v = number cell
       ∧ minimax fuel (<[cell := O]> board) 0 false = Some s
       ∧ Score_gtb s bestScore = true
       ∧ Forall (fun c => ∃ s', minimax fuel (<[c := O]> board) 0 false = Some s'
                                ∧ Score_gtb s s' = true) l1
       ∧ Forall (fun c => ∃ s', minimax fuel (<[c := O]> board) 0 false = Some s'
                                ∧ Score_leb s' s = true) l2).
Proof.
  revert bestScore bestMove.
  induction cells as [|cell rest IH]; intros bestScore bestMove; simpl.
  - intros [= ->]. by left.
  - destruct (minimax fuel (<[cell := O]> board) 0 false) as [score|] eqn:Hs;
      [simpl|done].
    destruct (Score_gtb score bestScore) eqn:Hgt.
    + intros [[-> Hrest]|(l1 & c & l2 & s & -> & -> & Hc & Hcs & Hl1 & Hl2)]%IH.
      * right. exists [], cell, rest, score.
        split_and!; [done|done|done|done|constructor|done].
      * right. exists (cell :: l1), c, l2, s. split_and!; try done.
        -- apply Score_gtb_leb in Hgt. by eapply Score_gtb_leb_trans.
        -- constructor; [|done]. eauto.
    + apply Score_gtb_false in Hgt.
      intros [[-> Hrest]|(l1 & c & l2 & s & -> & -> & Hc & Hcs & Hl1 & Hl2)]%IH.
      * left. split; [done|]. constructor; eauto.
      * right. exists (cell :: l1), c, l2, s. split_and!; try done.
        constructor; [|done]. exists score. split; [done|].
        by eapply Score_gtb_leb_trans.
Qed.

Lemma root_loop_total fuel board cells bestScore bestMove :
  Forall (fun c => is_Some (minimax fuel (<[c := O]> board) 0 false)) cells →
  is_Some (root_loop fuel board cells bestScore bestMove).
Proof.
  intros Hc. revert bestScore bestMove.
  induction Hc as [|cell rest [s Hs] _ IH]; intros bestScore bestMove; simpl.
  - done.
  - rewrite Hs. simpl. destruct (Score_gtb s bestScore); apply IH.
Qed.

(** ** Every call returns, and returns an empty cell if there is one *)

Lemma random_cell_elem rnd cells :
  cells ≠ [] → ∃ c, random_cell rnd cells = number c ∧ c ∈ cells.
Proof.
  intros Hne. unfold random_cell, read, random_index.
  destruct (length cells) as [|n] eqn:Hlen.
  - by destruct cells.
  - destruct (lookup_lt_is_Some_2 cells (rnd mod S n)) as [c Hc].
    + rewrite Hlen. apply Nat.mod_upper_bound. lia.
    + rewrite Hc. exists c. split; [done|]. by eapply list_elem_of_lookup_2.
Qed.

Lemma getAIMove_fuel_returns fuel board difficulty rnd :
  9 < fuel → is_Some (getAIMove_fuel fuel board difficulty rnd).
Proof.
  intros Hf. unfold getAIMove_fuel.
  destruct (bool_decide (difficulty = easy)); [done|].
  destruct (scan O board (emptyCells board)); [done|].
  destruct (scan X board (emptyCells board)); [done|].
  assert (is_Some (if bool_decide (difficulty = hard)
                   then root_loop fuel board (emptyCells board) NegInf
                          (read (emptyCells board) 0)
                   else Some (random_cell rnd (emptyCells board)))) as Hrest.
  { destruct (bool_decide (difficulty = hard)); [|done].
    apply root_loop_total, Forall_forall. intros c _.
    apply minimax_terminates.
    pose proof (nulls9_le (<[c := O]> board)). lia. }
  destruct (bool_decide (difficulty = medium)); [|done].
  destruct (is_null_at board 4); [done|].
  by destruct (0 <? _).
Qed.

(** Every call of [getAIMove] returns. *)
Lemma getAIMove_returns board difficulty rnd :
  is_Some (getAIMove board difficulty rnd).
Proof. apply getAIMove_fuel_returns. unfold search_fuel. lia. Qed.

Lemma getAIMove_fuel_empty_cell fuel board difficulty rnd v :
  emptyCells board ≠ [] →
  getAIMove_fuel fuel board difficulty rnd = Some v →
  ∃ cell, v = number cell ∧ board !! cell = Some null.
Proof.
  intros Hne. unfold getAIMove_fuel.
  assert (∀ cells, cells ≠ [] → (∀ c, c ∈ cells → board !! c = Some null) →
            ∃ cell, random_cell rnd cells = number cell
                    ∧ board !! cell = Some null) as Hrandom.
  { intros cells Hcells Hsub.
    destruct (random_cell_elem rnd cells Hcells) as (c & -> & Hc). eauto. }
  pose proof (fun c => proj1 (elem_of_emptyCells board c)) as Hempty.
  destruct (bool_decide (difficulty = easy)).
  { intros [= <-]. by apply Hrandom. }
  destruct (scan O board (emptyCells board)) as [cell|] eqn:HO.
  { intros [= <-]. exists cell. split; [done|].
    apply scan_Some in HO as (l1 & l2 & Heq & _). apply Hempty.
    rewrite Heq. apply elem_of_middle. }
  destruct (scan X board (emptyCells board)) as [cell|] eqn:HX.
  { intros [= <-]. exists cell. split; [done|].
    apply scan_Some in HX as (l1 & l2 & Heq & _). apply Hempty.
    rewrite Heq. apply elem_of_middle. }
  assert ((if bool_decide (difficulty = hard)
           then root_loop fuel board (emptyCells board) NegInf
                  (read (emptyCells board) 0)
           else Some (random_cell rnd (emptyCells board))) = Some v →
          ∃ cell, v = number cell ∧ board !! cell = Some null) as Hrest.
  { destruct (bool_decide (difficulty = hard)).
    - intros [[-> _]|(l1 & cell & l2 & s & Heq & -> & _)]%root_loop_spec.
      + unfold read. destruct (emptyCells board) as [|c cells] eqn:Heq; [done|].
        exists c. split; [done|]. apply Hempty. by left.
      + exists cell. split; [done|]. apply Hempty. rewrite Heq.
        apply elem_of_middle.
    - intros [= <-]. by apply Hrandom. }
  destruct (bool_decide (difficulty = medium)); [|done].
  destruct (is_null_at board 4) eqn:H4.
  { intros [= <-]. exists 4. by apply is_null_at_eq in H4. }
  set (corners := List.filter (is_null_at board) [0; 2; 6; 8]).
  assert (∀ c, c ∈ corners → board !! c = Some null) as Hcorners.
  { intros c [_ Hn]%list_elem_of_In%filter_In. by apply is_null_at_eq. }
  clearbody corners. cbv zeta.
  destruct (0 <? length corners) eqn:Hc; [|done].
  intros [= <-]. apply Hrandom; [|done]. by intros ->.
Qed.

(** C8. On a board of nine cells with an empty cell, [getAIMove] returns,
    at every difficulty and for every random draw, an index between 0 and
    8 of an empty cell of the board. *)
Theorem getAIMove_valid (board : Board) (difficulty : Difficulty) (rnd : nat) :
  length board = 9 →
  (∃ i, board !! i = Some null) →
  ∃ cell, getAIMove board difficulty rnd = Some (number cell)
          ∧ 0 ≤ cell ≤ 8 ∧ board !! cell = Some null.
Proof.
  intros Hlen [i Hi].
  destruct (getAIMove_returns board difficulty rnd) as [v Hv].
  destruct (getAIMove_fuel_empty_cell search_fuel board difficulty rnd v)
    as (cell & -> & Hcell); [|done|].
  - apply elem_of_emptyCells in Hi. intros Heq. rewrite Heq in Hi.
    by apply elem_of_nil in Hi.
  - exists cell. split_and!; [done|lia| |done].
    apply lookup_lt_Some in Hcell. lia.
Qed.

(** C8 at the easy tier on a board with four empty cells. *)
Lemma getAIMove_valid_witness :
  ∃ cell, getAIMove [X; O; null; X; X; null; null; null; O] easy 6
          = Some (number cell)
          ∧ 0 ≤ cell ≤ 8
          ∧ [X; O; null; X; X; null; null; null; O] !! cell = Some null.
Proof.
  apply (getAIMove_valid [X; O; null; X; X; null; null; null; O] easy 6).
  - reflexivity.
  - by exists 2.
Defined.

(** ** A board without an empty cell *)

Lemma emptyCells_full board :
  Forall (fun cell => cell ≠ null) board → emptyCells board = [].
Proof.
  intros Hfull. destruct (emptyCells board) as [|c cells] eqn:Heq; [done|].
  assert (board !! c = Some null) as Hc
    by (apply elem_of_emptyCells; rewrite Heq; by left).
  rewrite Forall_forall in Hfull.
  by destruct (Hfull null); [eapply list_elem_of_lookup_2|].
Qed.

Lemma is_null_at_full board i :
  Forall (fun cell => cell ≠ null) board → is_null_at board i = false.
Proof.
  intros Hfull. destruct (is_null_at board i) eqn:Hi; [|done].
  apply is_null_at_eq in Hi. rewrite Forall_forall in Hfull.
  by destruct (Hfull null); [eapply list_elem_of_lookup_2|].
Qed.

(** C5, as the code has it.  On a board without an empty cell, a call of
    [getAIMove] raises no error: at every difficulty and for every random
    draw it returns [undefined], which is not an index. *)
Theorem getAIMove_full_board (board : Board) (difficulty : Difficulty) (rnd : nat) :
  Forall (fun cell => cell ≠ null) board →
  call_getAIMove board difficulty rnd = Some (returns undefined).
Proof.
  intros Hfull. unfold call_getAIMove, getAIMove, getAIMove_fuel.
  rewrite (emptyCells_full board Hfull), (is_null_at_full board 4 Hfull).
  assert (List.filter (is_null_at board) [0; 2; 6; 8] = []) as ->.
  { simpl. by rewrite !is_null_at_full. }
  by destruct difficulty.
Qed.

(** C5 at the medium tier on a full board. *)
Lemma getAIMove_full_board_witness :
  call_getAIMove [X; O; X; X; O; O; O; X; X] medium 3 = Some (returns undefined).
Proof.
  apply (getAIMove_full_board [X; O; X; X; O; O; O; X; X] medium 3).
  repeat constructor; discriminate.
Defined.

(** C5 as stated fails: on this full board (a draw) the call ends, at each
    difficulty, by returning [undefined], and not by throwing. *)
Lemma getAIMove_full_board_no_error :
  checkWinner [X; O; X; X; O; O; O; X; X] = draw
  ∧ emptyCells [X; O; X; X; O; O; O; X; X] = []
  ∧ call_getAIMove [X; O; X; X; O; O; O; X; X] easy 0 = Some (returns undefined)
  ∧ call_getAIMove [X; O; X; X; O; O; O; X; X] medium 0 = Some (returns undefined)
  ∧ call_getAIMove [X; O; X; X; O; O; O; X; X] hard 0 = Some (returns undefined)
  ∧ Some (returns undefined) ≠ Some throws.
Proof. by vm_compute. Qed.

(** ** The hard tier and the minimax values *)

Lemma checkWinner_null_cell board :
  checkWinner board = P null → ∃ i, board !! i = Some null.
Proof.
  unfold checkWinner.
  destruct (check_lines board lines) as [p|] eqn:Hl.
  - apply check_lines_Some in Hl as (_ & _ & _ & _ & _ & [? _]). congruence.
  - destruct (forallb not_null board) eqn:Hf; [done|]. intros _.
    apply forallb_not_null_false, Exists_exists in Hf as (c & Hc & ->).
    by apply list_elem_of_lookup_1.
Qed.

(** The loop of [minimax] over the indices keeps an invariant of the
    indices visited and the best score so far. *)
Lemma minimax_loop_inv (board : Board) (child : nat → option Score)
    (op : Score → Score → Score) (Inv : list nat → Score → Prop)
    (l : list nat) (init s : Score) :
  Inv [] init →
  (∀ pre i acc, i ∈ l → Inv pre acc → is_null_at board i = false →
                Inv (pre ++ [i]) acc) →
  (∀ pre i acc v, i ∈ l → Inv pre acc → is_null_at board i = true →
                  child i = Some v → Inv (pre ++ [i]) (op v acc)) →
  foldl (fun acc i =>
           bestScore ← acc;
           if is_null_at board i then
             score ← child i; Some (op score bestScore)
           else Some bestScore) (Some init) l = Some s →
  Inv l s.
Proof.
  intros Hinit Hskip Hstep.
  assert (∀ rest pre acc, (∀ i, i ∈ rest → i ∈ l) → Inv pre acc →
            foldl (fun acc i =>
                     bestScore ← acc;
                     if is_null_at board i then
                       score ← child i; Some (op score bestScore)
                     else Some bestScore) (Some acc) rest = Some s →
            Inv (pre ++ rest) s) as Hgen.
  { induction rest as [|i rest IH]; intros pre acc Hsub Hacc; simpl.
    - intros [= <-]. by rewrite app_nil_r.
    - rewrite (cons_middle i pre rest), app_assoc.
      assert (i ∈ l) as Hi by (apply Hsub; by left).
      assert (∀ j, j ∈ rest → j ∈ l) as Hsub' by (intros; apply Hsub; by right).
      destruct (is_null_at board i) eqn:Hn.
      + destruct (child i) as [v|] eqn:Hv; simpl.
        * apply IH; [done|]. by apply Hstep.
        * intros Hnone. exfalso. clear -Hnone.
          induction rest as [|j rest IH]; simpl in Hnone; [done|auto].
      + apply IH; [done|]. by apply Hskip. }
  by apply (Hgen l [] init).
Qed.

(** On a board of nine cells the scores of [minimax] at depth [depth] lie
    between [depth - 10] and [10 - depth], and between [depth - 9] and
    [9 - depth] if the board has no result yet. *)
Lemma minimax_bounds fuel (board : Board) depth isMaximizing s :
  length board = 9 → (0 ≤ depth)%Z → (depth + Z.of_nat (nulls9 board) ≤ 9)%Z →
  minimax fuel board depth isMaximizing = Some s →
  ∃ z, s = Fin z
       ∧ (depth - 10 ≤ z ≤ 10 - depth)%Z
       ∧ (checkWinner board = P null → (depth - 9 ≤ z ≤ 9 - depth)%Z).
Proof.
  revert board depth isMaximizing s.
  induction fuel as [|fuel IH]; intros board depth isMaximizing s Hlen Hd Hn;
    [done|].
  rewrite minimax_S. destruct (checkWinner board) as [[| |]|] eqn:Hw.
  1,2,4: intros [= <-]; eexists; split; [done|]; split; [lia|done].
  destruct (checkWinner_null_cell board Hw) as [i0 Hi0].
  pose proof (lookup_lt_Some _ _ _ Hi0) as Hlt0. rewrite Hlen in Hlt0.
  assert (∀ i mark, mark ≠ null → i ∈ seq 0 9 → is_null_at board i = true →
            ∀ m v, minimax fuel (<[i := mark]> board) (depth + 1) m = Some v →
                   ∃ z, v = Fin z ∧ (depth - 9 ≤ z ≤ 9 - depth)%Z) as Hchild.
  { intros i mark Hm Hi%elem_of_seq Hnull%is_null_at_eq m v Hv.
    apply IH in Hv as (z & -> & Hz & _).
    - exists z. split; [done|lia].
    - by rewrite length_insert.
    - lia.
    - rewrite <- (nulls9_insert board i mark) in Hn; [lia|done|lia|done]. }
  intros Hfold.
  assert ((∀ i, i ∈ seq 0 9 → is_null_at board i = false)
          ∨ ∃ z, s = Fin z ∧ (depth - 9 ≤ z ≤ 9 - depth)%Z) as [Hnone|(z & -> & Hz)].
  { destruct isMaximizing.
    - apply (minimax_loop_inv board _ Score_max
               (fun pre acc =>
                  (∀ i, i ∈ pre → is_null_at board i = false) ∧ acc = NegInf
                  ∨ ∃ z, acc = Fin z ∧ (depth - 9 ≤ z ≤ 9 - depth)%Z)) in Hfold.
      + destruct Hfold as [[? _]|?]; auto.
      + left. split; [|done]. by intros i ?%elem_of_nil.
      + intros pre i acc _ [[Hpre ->]|?] Hi; [left|by right].
        split; [|done].
        intros j [?|Hj%list_elem_of_singleton]%elem_of_app; [auto|by subst].
      + intros pre i acc v Hin Hacc Hi Hv. right.
        apply Hchild in Hv as (z & -> & Hz); [|done..].
        destruct Hacc as [[_ ->]|(z' & -> & Hz')]; [by exists z|].
        unfold Score_max. simpl. destruct (z <=? z')%Z; eauto.
    - apply (minimax_loop_inv board _ Score_min
               (fun pre acc =>
                  (∀ i, i ∈ pre → is_null_at board i = false) ∧ acc = PosInf
                  ∨ ∃ z, acc = Fin z ∧ (depth - 9 ≤ z ≤ 9 - depth)%Z)) in Hfold.
      + destruct Hfold as [[? _]|?]; auto.
      + left. split; [|done]. by intros i ?%elem_of_nil.
      + intros pre i acc _ [[Hpre ->]|?] Hi; [left|by right].
        split; [|done].
        intros j [?|Hj%list_elem_of_singleton]%elem_of_app; [auto|by subst].
      + intros pre i acc v Hin Hacc Hi Hv. right.
        apply Hchild in Hv as (z & -> & Hz); [|done..].
        destruct Hacc as [[_ ->]|(z' & -> & Hz')]; [by exists z|].
        unfold Score_min. simpl. destruct (z <=? z')%Z; eauto. }
  - apply is_null_at_eq in Hi0. rewrite Hnone in Hi0; [done|].
    apply elem_of_seq. lia.
  - exists z. split; [done|]. split; [lia|done].
Qed.

(** ** The scans against the minimax values *)

Lemma filled_on_line (board : Board) line p cell :
  filled board line p → on_line cell line = true → board !! cell = Some p.
Proof.
  destruct line as [[a b] c]. unfold on_line, filled. simpl.
  rewrite !orb_true_iff, !Nat.eqb_eq. intros (_ & ? & ? & ?) [[->| ->]| ->]; done.
Qed.

Lemma filled_insert_keep (board : Board) cell mark line p :
  on_line cell line = false →
  filled board line p → filled (<[cell := mark]> board) line p.
Proof.
  destruct line as [[a b] c]. unfold on_line, filled. simpl.
  rewrite !orb_false_iff, !Nat.eqb_neq. intros [[? ?] ?].
  by rewrite !list_lookup_insert_ne by done.
Qed.

(** After a mark is played at an empty cell of a board without a result,
    the board has no complete line of the other mark. *)
Lemma checkWinner_insert (board : Board) cell mark p :
  checkWinner board = P null → board !! cell = Some null →
  checkWinner (<[cell := mark]> board) = P p → p = mark ∨ p = null.
Proof.
  intros Hb Hcell Hp. destruct (decide (p = null)) as [|Hn]; [by right|left].
  apply checkWinner_mark in Hp; [|done].
  apply check_lines_Some in Hp as (before & line & after & Hl & _ & Hf).
  destruct (on_line cell line) eqn:Hon.
  - eapply filled_insert_on; [|done..]. by eapply lookup_lt_Some.
  - apply checkWinner_null_lines in Hb. rewrite Forall_forall in Hb.
    destruct (Hb line); [rewrite Hl; apply elem_of_middle|].
    exists p. by eapply filled_insert_off.
Qed.

Lemma checkWinner_draw_full (board : Board) i :
  checkWinner board = draw → board !! i ≠ Some null.
Proof.
  unfold checkWinner. destruct (check_lines board lines); [done|].
  destruct (forallb not_null board) eqn:Hf; [|done]. intros _ Hi.
  apply forallb_not_null in Hf. rewrite Forall_forall in Hf.
  by destruct (Hf null); [eapply list_elem_of_lookup_2|].
Qed.

Lemma move_value_bounds (board : Board) cell :
  length board = 9 →
  ∃ z, move_value board cell = Some (Fin z)
       ∧ (-10 ≤ z ≤ 10)%Z
       ∧ (checkWinner (<[cell := O]> board) ≠ P O → (z < 10)%Z)
       ∧ (checkWinner (<[cell := O]> board) ≠ P X → (-9 ≤ z)%Z).
Proof.
  intros Hlen. unfold move_value.
  destruct (minimax_search_fuel (<[cell := O]> board) 0 false) as [s Hs].
  pose proof Hs as Hb. apply minimax_bounds in Hb as (z & -> & Hz & Hz').
  - exists z. split; [done|]. split; [lia|].
    unfold search_fuel in Hs. rewrite minimax_S in Hs.
    destruct (checkWinner (<[cell := O]> board)) as [[| |]|];
      try (injection Hs as <-); split; intros; try done; try lia;
      specialize (Hz' eq_refl); lia.
  - by rewrite length_insert.
  - done.
  - pose proof (nulls9_le (<[cell := O]> board)). lia.
Qed.

(** A cell found by the scan for a winning move is the first cell of
    maximal minimax value: its value is 10 and no other move reaches 10. *)
Lemma scan_win_first_maximal (board : Board) cell :
  length board = 9 → checkWinner board = P null →
  scan O board (emptyCells board) = Some cell →
  first_maximal board cell.
Proof.
  intros Hlen Hb (l1 & l2 & Heq & Ht & Hl1)%scan_Some.
  apply Winner_eqb_eq in Ht. exists (Fin 10). split_and!.
  - unfold move_value, search_fuel. rewrite minimax_S. by rewrite Ht.
  - intros c _. destruct (move_value_bounds board c Hlen) as (z & Hz & ? & _).
    exists (Fin z). split; [done|]. simpl. apply Z.leb_le. lia.
  - intros c Hlt Hc.
    destruct (move_value_bounds board c Hlen) as (z & Hz & _ & Hlt10 & _).
    exists (Fin z). split; [done|]. unfold Score_gtb. simpl.
    apply negb_true_iff, Z.leb_gt. apply Hlt10.
    rewrite Forall_forall in Hl1. intros Hw%Winner_eqb_eq.
    assert (scan_test O board c = false) as Hf.
    { apply Hl1. by apply (emptyCells_before board l1 cell l2 c Heq). }
    unfold scan_test in Hf. congruence.
Qed.

(** When ['O'] cannot win at once and ['X'] could at [cell], every move
    of ['O'] other than [cell] has the value -9: ['X'] wins at its next
    move. *)
Lemma move_value_unblocked (board : Board) cell c :
  length board = 9 → checkWinner board = P null →
  scan O board (emptyCells board) = None →
  board !! cell = Some null → scan_test X board cell = true →
  board !! c = Some null → c ≠ cell →
  move_value board c = Some (Fin (-9)).
Proof.
  intros Hlen Hb HO Hcell Ht Hc Hne.
  pose proof (lookup_lt_Some _ _ _ Hcell) as Hlt.
  pose proof (lookup_lt_Some _ _ _ Hc) as Hltc.
  (* the position after the move of 'O' has no result *)
  assert (checkWinner (<[c := O]> board) = P null) as Hopen.
  { destruct (checkWinner (<[c := O]> board)) as [p|] eqn:Hw.
    - destruct (checkWinner_insert board c O p) as [->| ->]; [done..| |done].
      rewrite scan_None, Forall_forall in HO.
      specialize (HO c (proj2 (elem_of_emptyCells _ _) Hc)).
      unfold scan_test in HO. by rewrite Hw in HO.
    - destruct (checkWinner_draw_full _ cell Hw).
      by rewrite list_lookup_insert_ne. }
  (* 'X' wins at [cell] *)
  assert (checkWinner (<[cell := X]> (<[c := O]> board)) = P X) as Hwin.
  { apply checkWinner_mark; [done|].
    apply Winner_eqb_eq, checkWinner_mark in Ht; [|done].
    apply check_lines_Some in Ht as (before & line & after & Hl & _ & Hf).
    assert (on_line c line = false) as Hoff.
    { destruct (on_line c line) eqn:Hon; [|done].
      pose proof (filled_on_line _ _ _ _ Hf Hon) as Hx.
      rewrite list_lookup_insert_ne in Hx by done. congruence. }
    assert (filled (<[cell := X]> (<[c := O]> board)) line X) as Hf'.
    { rewrite list_insert_insert_ne by done. by apply filled_insert_keep. }
    destruct (check_lines (<[cell := X]> (<[c := O]> board)) lines) as [p|] eqn:Hcl.
    - f_equal.
      apply check_lines_Some in Hcl as (before' & l0 & after' & Hl' & _ & Hf0).
      destruct (on_line cell l0) eqn:Hon.
      + eapply filled_insert_on; [|done..]. by rewrite length_insert.
      + apply checkWinner_null_lines in Hopen. rewrite Forall_forall in Hopen.
        destruct (Hopen l0); [rewrite Hl'; apply elem_of_middle|].
        exists p. by eapply filled_insert_off.
    - rewrite check_lines_None, Forall_forall in Hcl.
      destruct (Hcl line); [rewrite Hl; apply elem_of_middle|]. by exists X. }
  unfold move_value.
  destruct (minimax_search_fuel (<[c := O]> board) 0 false) as [s Hs].
  rewrite Hs. f_equal. unfold search_fuel in Hs.
  rewrite minimax_S, Hopen in Hs.
  apply (minimax_loop_inv (<[c := O]> board) _ Score_min
           (fun pre acc =>
              (acc = PosInf ∨ ∃ z, acc = Fin z ∧ (-9 ≤ z)%Z)
              ∧ (cell ∈ pre → acc = Fin (-9)))) in Hs.
  - apply Hs, elem_of_seq. lia.
  - split; [by left|]. by intros ?%elem_of_nil.
  - intros pre i acc _ [Hacc Hpre] Hi. split; [done|].
    intros [?|Hj%list_elem_of_singleton]%elem_of_app; [auto|subst i].
    unfold is_null_at in Hi. rewrite list_lookup_insert_ne, Hcell in Hi; done.
  - intros pre i acc v Hin%elem_of_seq [Hacc Hpre] Hi%is_null_at_eq Hv.
    assert (∃ z, v = Fin z ∧ (-9 ≤ z)%Z ∧ (i = cell → z = (-9)%Z))
      as (z & -> & Hz & Hzc).
    { destruct (decide (i = cell)) as [->|Hic].
      - rewrite minimax_S, Hwin in Hv. injection Hv as <-. by exists (-9)%Z.
      - apply minimax_bounds in Hv as (z & -> & Hz & _).
        + exists z. split; [done|]. split; [lia|done].
        + by rewrite !length_insert.
        + done.
        + assert (i ≠ c) as Hic'.
          { intros ->. rewrite list_lookup_insert_eq in Hi; done. }
          rewrite list_lookup_insert_ne in Hi by done.
          pose proof (nulls9_le board) as Hle.
          rewrite <- (nulls9_insert board c O) in Hle; [|done|lia|done].
          rewrite <- (nulls9_insert (<[c := O]> board) i X) in Hle;
            [lia|done|lia|].
          by rewrite list_lookup_insert_ne. }
    split.
    + right. destruct Hacc as [->|(z' & -> & Hz')].
      * by exists z.
      * unfold Score_min. simpl. destruct (z <=? z')%Z; eauto.
    + intros [Hc'|Hj%list_elem_of_singleton]%elem_of_app.
      * rewrite (Hpre Hc'). unfold Score_min. simpl.
        destruct (z <=? -9)%Z eqn:Hle; [|done].
        apply Z.leb_le in Hle. f_equal. lia.
      * subst i. rewrite (Hzc eq_refl).
        destruct Hacc as [->|(z' & -> & Hz')]; [done|].
        unfold Score_min. simpl.
        destruct (-9 <=? z')%Z eqn:Hle; [done|].
        apply Z.leb_gt in Hle. lia.
Qed.

(** A cell found by the scan for a blocking move has a maximal minimax
    value. *)
Lemma scan_block_maximal (board : Board) cell :
  length board = 9 → checkWinner board = P null →
  scan O board (emptyCells board) = None →
  scan X board (emptyCells board) = Some cell →
  maximal board cell.
Proof.
  intros Hlen Hb HO (l1 & l2 & Heq & Ht & Hl1)%scan_Some.
  assert (board !! cell = Some null) as Hcell
    by (apply elem_of_emptyCells; rewrite Heq; apply elem_of_middle).
  destruct (move_value_bounds board cell Hlen) as (z & Hz & _ & _ & Hlow).
  exists (Fin z). split; [done|]. intros c Hc.
  destruct (decide (c = cell)) as [->|Hne].
  - exists (Fin z). split; [done|]. apply Score_leb_refl.
  - exists (Fin (-9)). split; [by apply (move_value_unblocked board cell c)|].
    simpl. apply Z.leb_le, Hlow. intros Hw.
    by destruct (checkWinner_insert board cell O X) as [?|?].
Qed.

(** The choice of the hard tier on a board of nine cells without a
    result. *)
Lemma hard_choice (board : Board) (rnd : nat) :
  length board = 9 →
  checkWinner board = P null →
  ∃ cell,
    getAIMove board hard rnd = Some (number cell)
    ∧ board !! cell = Some null
    ∧ maximal board cell
    ∧ ((∃ c, completes O board c = true) ∨ (∀ c, completes X board c = false) →
       first_maximal board cell)
    ∧ ((∀ c, completes O board c = false) → (∃ c, completes X board c = true) →
       lowest_completing X board cell).
Proof.
  intros Hlen Hb.
  pose proof (fun c => proj2 (elem_of_emptyCells board c)) as Hempty.
  unfold getAIMove, getAIMove_fuel. simpl.
  destruct (scan O board (emptyCells board)) as [cell|] eqn:HO.
  { (* a winning move *)
    destruct (scan_empty_Some O board cell) as [Hcell Hlow]; [done..|].
    pose proof (scan_win_first_maximal board cell Hlen Hb HO) as Hfirst.
    exists cell. split_and!; [done| | |done|].
    - apply andb_true_iff in Hcell as [Hn _]. by apply is_null_at_eq.
    - destruct Hfirst as (b & ? & ? & _). by exists b.
    - intros HnoO. by rewrite HnoO in Hcell. }
  destruct (scan X board (emptyCells board)) as [cell|] eqn:HX.
  { (* a blocking move *)
    destruct (scan_empty_Some X board cell) as [Hcell Hlow]; [done..|].
    exists cell. split_and!; [done| | | |done].
    - apply andb_true_iff in Hcell as [Hn _]. by apply is_null_at_eq.
    - by apply scan_block_maximal.
    - intros [[c Hc]|HnoX].
      + by rewrite (scan_empty_None O board c) in Hc.
      + by rewrite HnoX in Hcell. }
  (* the search *)
  destruct (checkWinner_null_cell board Hb) as [i Hi].
  destruct (getAIMove_returns board hard rnd) as [v Hv].
  unfold getAIMove, getAIMove_fuel in Hv. simpl in Hv. rewrite HO, HX in Hv.
  rewrite Hv.
  assert (∃ cell, v = number cell ∧ first_maximal board cell) as (cell & -> & Hf).
  { apply root_loop_spec
      in Hv as [[-> Hall]|(l1 & cell & l2 & s & Heq & -> & Hs & _ & Hl1 & Hl2)].
    - assert (∃ c0 cells, emptyCells board = c0 :: cells) as (c0 & cells & Heq).
      { apply Hempty in Hi.
        destruct (emptyCells board); [by apply elem_of_nil in Hi|eauto]. }
      exists c0. split; [by rewrite Heq|].
      rewrite Forall_forall in Hall.
      destruct (Hall c0) as (s0 & Hs0 & _); [rewrite Heq; by left|].
      exists s0. split_and!; [done| |].
      + intros c (s & Hs & Hle)%Hempty%Hall. exists s. split; [done|].
        by destruct s.
      + intros c Hlt Hc.
        assert (c ∈ @nil nat) as []%elem_of_nil.
        by apply (emptyCells_before board [] c0 cells c Heq).
    - rewrite Forall_forall in Hl1, Hl2.
      exists cell. split; [done|]. exists s. split_and!; [done| |].
      + intros c Hc%Hempty. rewrite Heq in Hc.
        apply elem_of_app in Hc as [Hc|[->|Hc]%elem_of_cons].
        * destruct (Hl1 c Hc) as (s' & ? & ?%Score_gtb_leb). eauto.
        * exists s. split; [done|]. apply Score_leb_refl.
        * by apply Hl2.
      + intros c Hlt Hc. apply Hl1.
        by apply (emptyCells_before board l1 cell l2 c Heq). }
  exists cell. split_and!; [done| | |done|].
  - destruct Hf as (best & Hbest & _).
    destruct (getAIMove_fuel_empty_cell search_fuel board hard rnd (number cell))
      as (c & [= <-] & ?); [| |done].
    + intros Heq. apply Hempty in Hi. rewrite Heq in Hi.
      by apply elem_of_nil in Hi.
    + unfold getAIMove_fuel. simpl. by rewrite HO, HX.
  - destruct Hf as (b & ? & ? & _). by exists b.
  - intros _ [c Hc]. by rewrite (scan_empty_None X board c) in Hc.
Qed.

(** ** The search against the minimax value of the specification *)

(** The search of the code computes the minimax value: on a board of nine
    cells its result is a number, the value of the position. *)
Lemma minimax_Minimax fuel (board : Board) depth isMaximizing s :
  length board = 9 →
  minimax fuel board depth isMaximizing = Some s →
  ∃ z, s = Fin z ∧ Minimax board depth isMaximizing z.
Proof.
  revert board depth isMaximizing s.
  induction fuel as [|fuel IH]; intros board depth isMaximizing s Hlen; [done|].
  rewrite minimax_S.
  pose proof (checkWinner_is_Outcome board) as Hout.
  destruct (checkWinner board) as [[| |]|] eqn:Hw.
  1,2,4: intros [= <-]; eexists; split; [done|]; by constructor.
  destruct (checkWinner_null_cell board Hw) as [i0 Hi0].
  pose proof (lookup_lt_Some _ _ _ Hi0) as Hlt0. rewrite Hlen in Hlt0.
  intros Hfold. destruct isMaximizing.
  - apply (minimax_loop_inv board _ Score_max
             (fun pre acc =>
                (acc = NegInf ∧ ∀ i, i ∈ pre → is_null_at board i = false)
                ∨ ∃ z i, acc = Fin z ∧ board !! i = Some null
                         ∧ Minimax (<[i := O]> board) (depth + 1) false z
                         ∧ ∀ j, j ∈ pre → board !! j = Some null →
                                ∃ z', Minimax (<[j := O]> board) (depth + 1)
                                        false z' ∧ (z' ≤ z)%Z)) in Hfold.
    + destruct Hfold as [[_ Hnone]|(z & i & -> & Hi & Hz & Hall)].
      { apply is_null_at_eq in Hi0. rewrite Hnone in Hi0; [done|].
        apply elem_of_seq. lia. }
      exists z. split; [done|]. apply (Minimax_max _ _ _ i); [done..|].
      intros j Hj. apply Hall; [|done].
      apply elem_of_seq. pose proof (lookup_lt_Some _ _ _ Hj). lia.
    + left. split; [done|]. by intros i ?%elem_of_nil.
    + intros pre i acc _ [[-> Hpre]|(z & i1 & -> & Hi1 & Hz & Hall)] Hi.
      * left. split; [done|].
        intros j [?|Hj%list_elem_of_singleton]%elem_of_app; [auto|by subst].
      * right. exists z, i1. split_and!; [done..|].
        intros j [?|Hj%list_elem_of_singleton]%elem_of_app Hnull; [auto|].
        subst j. apply is_null_at_eq in Hnull. congruence.
    + intros pre i acc v _ Hacc Hi%is_null_at_eq Hv. right.
      apply IH in Hv as (zv & -> & Hzv); [|by rewrite length_insert].
      destruct Hacc as [[-> Hpre]|(z & i1 & -> & Hi1 & Hz & Hall)].
      * exists zv, i. split_and!; [done..|].
        intros j [Hj|Hj%list_elem_of_singleton]%elem_of_app Hnull.
        -- apply is_null_at_eq in Hnull. rewrite Hpre in Hnull; done.
        -- subst j. exists zv. split; [done|lia].
      * unfold Score_max. simpl. destruct (zv <=? z)%Z eqn:Hle.
        -- apply Z.leb_le in Hle. exists z, i1. split_and!; [done..|].
           intros j [Hj|Hj%list_elem_of_singleton]%elem_of_app Hnull;
             [auto|]. subst j. by exists zv.
        -- apply Z.leb_gt in Hle. exists zv, i. split_and!; [done..|].
           intros j [Hj|Hj%list_elem_of_singleton]%elem_of_app Hnull.
           ++ destruct (Hall j Hj Hnull) as (z' & ? & ?).
              exists z'. split; [done|lia].
           ++ subst j. exists zv. split; [done|lia].
  - apply (minimax_loop_inv board _ Score_min
             (fun pre acc =>
                (acc = PosInf ∧ ∀ i, i ∈ pre → is_null_at board i = false)
                ∨ ∃ z i, acc = Fin z ∧ board !! i = Some null
                         ∧ Minimax (<[i := X]> board) (depth + 1) true z
                         ∧ ∀ j, j ∈ pre → board !! j = Some null →
                                ∃ z', Minimax (<[j := X]> board) (depth + 1)
                                        true z' ∧ (z ≤ z')%Z)) in Hfold.
    + destruct Hfold as [[_ Hnone]|(z & i & -> & Hi & Hz & Hall)].
      { apply is_null_at_eq in Hi0. rewrite Hnone in Hi0; [done|].
        apply elem_of_seq. lia. }
      exists z. split; [done|]. apply (Minimax_min _ _ _ i); [done..|].
      intros j Hj. apply Hall; [|done].
      apply elem_of_seq. pose proof (lookup_lt_Some _ _ _ Hj). lia.
    + left. split; [done|]. by intros i ?%elem_of_nil.
    + intros pre i acc _ [[-> Hpre]|(z & i1 & -> & Hi1 & Hz & Hall)] Hi.
      * left. split; [done|].
        intros j [?|Hj%list_elem_of_singleton]%elem_of_app; [auto|by subst].
      * right. exists z, i1. split_and!; [done..|].
        intros j [?|Hj%list_elem_of_singleton]%elem_of_app Hnull; [auto|].
        subst j. apply is_null_at_eq in Hnull. congruence.
    + intros pre i acc v _ Hacc Hi%is_null_at_eq Hv. right.
      apply IH in Hv as (zv & -> & Hzv); [|by rewrite length_insert].
      destruct Hacc as [[-> Hpre]|(z & i1 & -> & Hi1 & Hz & Hall)].
      * exists zv, i. split_and!; [done..|].
        intros j [Hj|Hj%list_elem_of_singleton]%elem_of_app Hnull.
        -- apply is_null_at_eq in Hnull. rewrite Hpre in Hnull; done.
        -- subst j. exists zv. split; [done|lia].
      * unfold Score_min. simpl. destruct (zv <=? z)%Z eqn:Hle.
        -- apply Z.leb_le in Hle. exists zv, i. split_and!; [done..|].
           intros j [Hj|Hj%list_elem_of_singleton]%elem_of_app Hnull.
           ++ destruct (Hall j Hj Hnull) as (z' & ? & ?).
              exists z'. split; [done|lia].
           ++ subst j. exists zv. split; [done|lia].
        -- apply Z.leb_gt in Hle. exists z, i1. split_and!; [done..|].
           intros j [Hj|Hj%list_elem_of_singleton]%elem_of_app Hnull;
             [auto|]. subst j. exists zv. split; [done|lia].
Qed.

(** A position of nine cells has one minimax value. *)
Lemma Minimax_unique (board : Board) depth maximizing z1 z2 :
  length board = 9 →
  Minimax board depth maximizing z1 → Minimax board depth maximizing z2 →
  z1 = z2.
Proof.
  remember (nulls9 board) as n eqn:Hn.
  revert board depth maximizing z1 z2 Hn.
  induction (lt_wf n) as [n _ IH].
  intros board depth maximizing z1 z2 -> Hlen H1 H2.
  assert (∀ i mark d m a b, mark ≠ null → board !! i = Some null →
            Minimax (<[i := mark]> board) d m a →
            Minimax (<[i := mark]> board) d m b → a = b) as Hchild.
  { intros i mark d m a b Hm Hi Ha Hb.
    pose proof (lookup_lt_Some _ _ _ Hi) as Hlt. rewrite Hlen in Hlt.
    apply (IH (nulls9 (<[i := mark]> board)))
      with (board := <[i := mark]> board) (depth := d) (maximizing := m);
      [|done|by rewrite length_insert|done..].
    rewrite <- (nulls9_insert board i mark); [lia|done..]. }
  inversion H1 as [? ? ? Ho1|? ? ? Ho1|? ? ? Ho1|? ? ? i1 Ho1 Hi1 Hv1 Hall1
                  |? ? ? i1 Ho1 Hi1 Hv1 Hall1]; subst;
    inversion H2 as [? ? ? Ho2|? ? ? Ho2|? ? ? Ho2|? ? ? i2 Ho2 Hi2 Hv2 Hall2
                    |? ? ? i2 Ho2 Hi2 Hv2 Hall2]; subst;
    apply Outcome_is_checkWinner in Ho1, Ho2; try congruence.
  - destruct (Hall2 i1 Hi1) as (a & Ha & Hle2).
    destruct (Hall1 i2 Hi2) as (b & Hb & Hle1).
    rewrite (Hchild i1 O _ _ _ _ ltac:(done) Hi1 Ha Hv1) in Hle2.
    rewrite (Hchild i2 O _ _ _ _ ltac:(done) Hi2 Hb Hv2) in Hle1. lia.
  - destruct (Hall2 i1 Hi1) as (a & Ha & Hle2).
    destruct (Hall1 i2 Hi2) as (b & Hb & Hle1).
    rewrite (Hchild i1 X _ _ _ _ ltac:(done) Hi1 Ha Hv1) in Hle2.
    rewrite (Hchild i2 X _ _ _ _ ltac:(done) Hi2 Hb Hv2) in Hle1. lia.
Qed.

(** The value that the root loop computes for a cell is the minimax value
    of the position after ['O'] plays there. *)
Lemma move_value_Minimax (board : Board) cell s :
  length board = 9 → move_value board cell = Some s →
  ∃ z, s = Fin z ∧ Minimax (<[cell := O]> board) 0 false z.
Proof.
  intros Hlen Hs. apply minimax_Minimax in Hs; [done|].
  by rewrite length_insert.
Qed.

Lemma maximal_highest_value (board : Board) cell :
  length board = 9 → maximal board cell → highest_value board cell.
Proof.
  intros Hlen (best & Hbest & Hall).
  apply move_value_Minimax in Hbest as (zb & -> & Hzb); [|done].
  exists zb. split; [done|]. intros c Hc.
  destruct (Hall c Hc) as (s & Hs & Hle).
  apply move_value_Minimax in Hs as (z & -> & Hz); [|done].
  exists z. split; [done|]. simpl in Hle. by apply Z.leb_le.
Qed.

Lemma first_maximal_first_highest_value (board : Board) cell :
  length board = 9 → first_maximal board cell → first_highest_value board cell.
Proof.
  intros Hlen (best & Hbest & Hall & Hfirst).
  apply move_value_Minimax in Hbest as (zb & -> & Hzb); [|done].
  exists zb. split_and!; [done| |].
  - intros c Hc. destruct (Hall c Hc) as (s & Hs & Hle).
    apply move_value_Minimax in Hs as (z & -> & Hz); [|done].
    exists z. split; [done|]. simpl in Hle. by apply Z.leb_le.
  - intros c Hlt Hc. destruct (Hfirst c Hlt Hc) as (s & Hs & Hgt).
    apply move_value_Minimax in Hs as (z & -> & Hz); [|done].
    exists z. split; [done|].
    unfold Score_gtb in Hgt. simpl in Hgt.
    apply negb_true_iff, Z.leb_gt in Hgt. done.
Qed.

(** C2, as the code has it.  On a board of nine cells without a result,
    the hard tier returns an empty cell such that the position after
    ['O'] plays there has the highest minimax value of the specification
    ([Minimax]: a position won by ['X'] scores [depth - 10], one won by
    ['O'] [10 - depth], a draw [0], the others the highest or the lowest
    value of the positions one ply deeper; the root is at depth 0).  It is
    the first such cell in index order when some cell completes a line for
    ['O'] or none completes one for ['X']; otherwise it is the lowest cell
    that completes a line for ['X'], chosen by the scan for a blocking
    move.  The search of the code computes this value on every board of
    nine cells, at every depth and for either side. *)
Theorem hard_maximises_minimax (board : Board) (rnd : nat) :
  length board = 9 →
  checkWinner board = P null →
  (∃ cell,
     getAIMove board hard rnd = Some (number cell)
     ∧ board !! cell = Some null
     ∧ highest_value board cell
     ∧ ((∃ c, completes O board c = true) ∨ (∀ c, completes X board c = false) →
        first_highest_value board cell)
     ∧ ((∀ c, completes O board c = false) → (∃ c, completes X board c = true) →
        lowest_completing X board cell))
  ∧ (∀ b depth isMaximizing,
       length b = 9 →
       ∃ z, minimax search_fuel b depth isMaximizing = Some (Fin z)
            ∧ Minimax b depth isMaximizing z)
  ∧ (∀ fuel b depth isMaximizing,
       (checkWinner b = P X →
        minimax (S fuel) b depth isMaximizing = Some (Fin (depth - 10)))
       ∧ (checkWinner b = P O →
          minimax (S fuel) b depth isMaximizing = Some (Fin (10 - depth)))
       ∧ (checkWinner b = draw →
          minimax (S fuel) b depth isMaximizing = Some (Fin 0))).
Proof.
  intros Hlen Hb. split_and!.
  - destruct (hard_choice board rnd Hlen Hb)
      as (cell & Hmove & Hcell & Hmax & Hfirst & Hblock).
    exists cell. split_and!; [done..| | |done].
    + by apply maximal_highest_value.
    + intros Hcase. by apply first_maximal_first_highest_value, Hfirst.
  - intros b depth isMaximizing Hl.
    destruct (minimax_search_fuel b depth isMaximizing) as [s Hs].
    destruct (minimax_Minimax _ _ _ _ _ Hl Hs) as (z & -> & Hz).
    by exists z.
  - intros fuel b depth isMaximizing. rewrite minimax_S.
    split_and!; by intros ->.
Qed.

(** C2 on a board where neither side can complete a line, so that the
    search decides: the hard tier returns cell 8, whose value 8 (a win of
    ['O'] two plies later) is the highest, and the empty cells 0, 2 and 6
    before it have the value 0. *)
Lemma hard_maximises_minimax_witness :
  getAIMove [null; X; null; X; X; O; null; O; null] hard 0 = Some (number 8)
  ∧ [null; X; null; X; X; O; null; O; null] !! 8 = Some null
  ∧ highest_value [null; X; null; X; X; O; null; O; null] 8
  ∧ first_highest_value [null; X; null; X; X; O; null; O; null] 8
  ∧ Minimax (<[8 := O]> [null; X; null; X; X; O; null; O; null]) 0 false 8
  ∧ Minimax (<[0 := O]> [null; X; null; X; X; O; null; O; null]) 0 false 0.
Proof.
  destruct (hard_maximises_minimax [null; X; null; X; X; O; null; O; null] 0)
    as ((cell & Hmove & Hcell & Hhigh & Hfirst & _) & Hvalue & _);
    [reflexivity|reflexivity|].
  assert (getAIMove [null; X; null; X; X; O; null; O; null] hard 0
          = Some (number 8)) as H8 by (vm_compute; reflexivity).
  rewrite H8 in Hmove. injection Hmove as <-.
  split_and!; [done..| | |].
  - apply Hfirst. right. intros c.
    do 10 (destruct c as [|c]; [reflexivity|]). reflexivity.
  - destruct (Hvalue (<[8 := O]> [null; X; null; X; X; O; null; O; null])
                0%Z false) as (z & Hz & HM); [reflexivity|].
    vm_compute in Hz. by injection Hz as <-.
  - destruct (Hvalue (<[0 := O]> [null; X; null; X; X; O; null; O; null])
                0%Z false) as (z & Hz & HM); [reflexivity|].
    vm_compute in Hz. by injection Hz as <-.
Defined.

(** C2 as stated fails where ['X'] threatens twice: here every move of
    ['O'] has the value -9, the first empty cell is 2, and the hard tier
    returns cell 5, the lowest of the two cells that complete a line for
    ['X']; cell 5 is not the first cell of the highest value. *)
Lemma hard_blocks_before_first_maximal :
  checkWinner [X; O; null; X; X; null; null; null; O] = P null
  ∧ getAIMove [X; O; null; X; X; null; null; null; O] hard 0 = Some (number 5)
  ∧ [X; O; null; X; X; null; null; null; O] !! 2 = Some null
  ∧ move_value [X; O; null; X; X; null; null; null; O] 2 = Some (Fin (-9))
  ∧ move_value [X; O; null; X; X; null; null; null; O] 5 = Some (Fin (-9))
  ∧ Minimax (<[2 := O]> [X; O; null; X; X; null; null; null; O]) 0 false (-9)
  ∧ Minimax (<[5 := O]> [X; O; null; X; X; null; null; null; O]) 0 false (-9)
  ∧ ¬ first_highest_value [X; O; null; X; X; null; null; null; O] 5.
Proof.
  assert (move_value [X; O; null; X; X; null; null; null; O] 2
          = Some (Fin (-9))) as H2 by (by vm_compute).
  assert (move_value [X; O; null; X; X; null; null; null; O] 5
          = Some (Fin (-9))) as H5 by (by vm_compute).
  apply move_value_Minimax in H2 as HM2; [|reflexivity].
  apply move_value_Minimax in H5 as HM5; [|reflexivity].
  destruct HM2 as (z2 & [= <-] & HM2). destruct HM5 as (z5 & [= <-] & HM5).
  split_and!; [by vm_compute..|done|done|].
  intros (best & Hbest & _ & Hfirst).
  destruct (Hfirst 2) as (z & Hz & Hlt); [lia|done|].
  assert (best = (-9)%Z) as ->
    by (eapply Minimax_unique; [|exact Hbest|exact HM5]; reflexivity).
  assert (z = (-9)%Z) as ->
    by (eapply Minimax_unique; [|exact Hz|exact HM2]; reflexivity).
  lia.
Qed.

(** ** The functions over the store compute the same results *)

Lemma bind_Some {A B} (m : Imp.M A) (k : A → Imp.M B) σ a σ' :
  m σ = Some (a, σ') → Imp.bind m k σ = k a σ'.
Proof. unfold Imp.bind. by intros ->. Qed.

Lemma bind_None {A B} (m : Imp.M A) (k : A → Imp.M B) σ :
  m σ = None → Imp.bind m k σ = None.
Proof. unfold Imp.bind. by intros ->. Qed.

Lemma load_spec (σ : list Board) a board i :
  σ !! a = Some board → Imp.load a i σ = Some (board !! i, σ).
Proof. intros Ha. unfold Imp.load, Imp.bind, Imp.contents. by rewrite Ha. Qed.

Lemma store_spec (σ : list Board) a board i v :
  σ !! a = Some board → i < length board →
  Imp.store a i v σ = Some (tt, <[a := <[i := v]> board]> σ).
Proof.
  intros Ha Hi. unfold Imp.store. rewrite Ha.
  by rewrite (proj2 (Nat.ltb_lt _ _) Hi).
Qed.

Lemma spread_spec (σ : list Board) a board :
  σ !! a = Some board → Imp.spread a σ = Some (length σ, σ ++ [board]).
Proof. intros Ha. unfold Imp.spread. by rewrite Ha. Qed.

Lemma checkWinner_spec (σ : list Board) a board :
  σ !! a = Some board → Imp.checkWinner a σ = Some (checkWinner board, σ).
Proof.
  intros Ha. unfold Imp.checkWinner, Imp.bind, Imp.contents. by rewrite Ha.
Qed.

Lemma strict_eq_null board i :
  strict_eq (board !! i) (Some null) = is_null_at board i.
Proof. unfold is_null_at. by destruct (board !! i) as [[]|]. Qed.

(** A write at an empty cell followed by the write of [null] at the same
    cell gives the store back. *)
Lemma store_restore (σ : list Board) a board i v :
  σ !! a = Some board → board !! i = Some null →
  <[a := <[i := null]> (<[i := v]> board)]> (<[a := <[i := v]> board]> σ) = σ.
Proof.
  intros Ha Hi.
  rewrite list_insert_insert_eq, (list_insert_insert_eq board).
  by rewrite (list_insert_id board), list_insert_id.
Qed.

(** The loop of [minimax] over the indices, given the recursive calls. *)
Lemma minimax_loop_spec (σ : list Board) a board mark
    (childM : Imp.M Score) (child : nat → option Score)
    (op : Score → Score → Score) (l : list nat) :
  σ !! a = Some board →
  (∀ i, board !! i = Some null →
        childM (<[a := <[i := mark]> board]> σ)
        = Imp.lift (child i) (<[a := <[i := mark]> board]> σ)) →
  ∀ (accM : Imp.M Score) (acc : option Score),
    accM σ = Imp.lift acc σ →
    foldl (fun acc i =>
             Imp.bind acc (fun bestScore =>
             Imp.bind (Imp.load a i) (fun cell =>
             if strict_eq cell (Some null) then
               Imp.bind (Imp.store a i mark) (fun _ =>
               Imp.bind childM (fun score =>
               Imp.bind (Imp.store a i null) (fun _ =>
               Imp.ret (op score bestScore))))
             else Imp.ret bestScore))) accM l σ
    = Imp.lift (foldl (fun acc i =>
                     bestScore ← acc;
                     if is_null_at board i then
                       score ← child i; Some (op score bestScore)
                     else Some bestScore) acc l) σ.
Proof.
  intros Ha Hchild. induction l as [|i l IH]; intros accM acc Hacc; simpl; [done|].
  apply IH. destruct acc as [bestScore|]; simpl; [|by apply bind_None].
  rewrite (bind_Some _ _ _ _ _ Hacc).
  rewrite (bind_Some _ _ _ _ _ (load_spec σ a board i Ha)).
  rewrite strict_eq_null. destruct (is_null_at board i) eqn:Hi; [|done].
  apply is_null_at_eq in Hi. pose proof (lookup_lt_Some _ _ _ Hi) as Hlt.
  pose proof (lookup_lt_Some _ _ _ Ha) as Hlta.
  rewrite (bind_Some _ _ _ _ _ (store_spec σ a board i mark Ha Hlt)).
  specialize (Hchild i Hi). destruct (child i) as [score|]; simpl;
    [|by apply bind_None].
  rewrite (bind_Some _ _ _ _ _ Hchild).
  erewrite bind_Some.
  2:{ apply store_spec.
      - by apply list_lookup_insert_eq.
      - by rewrite length_insert. }
  unfold Imp.ret. by rewrite store_restore.
Qed.

(** [minimax] over the store returns the score of the functional [minimax]
    and leaves the store as it found it: each write of a mark is undone
    after the recursive call. *)
Lemma minimax_spec fuel (σ : list Board) a board depth isMaximizing :
  σ !! a = Some board →
  Imp.minimax fuel a depth isMaximizing σ
  = Imp.lift (minimax fuel board depth isMaximizing) σ.
Proof.
  revert σ board depth isMaximizing.
  induction fuel as [|fuel IH]; intros σ board depth isMaximizing Ha; [done|].
  rewrite minimax_S. cbn [Imp.minimax].
  rewrite (bind_Some _ _ _ _ _ (checkWinner_spec σ a board Ha)).
  pose proof (lookup_lt_Some _ _ _ Ha) as Hlt.
  destruct (checkWinner board) as [[| |]|]; [done|done| |done].
  destruct isMaximizing.
  - apply (minimax_loop_spec σ a board O
             (Imp.minimax fuel a (depth + 1) false)
             (fun i => minimax fuel (<[i := O]> board) (depth + 1) false));
      [done| |done].
    intros i _. apply IH. by apply list_lookup_insert_eq.
  - apply (minimax_loop_spec σ a board X
             (Imp.minimax fuel a (depth + 1) true)
             (fun i => minimax fuel (<[i := X]> board) (depth + 1) true));
      [done| |done].
    intros i _. apply IH. by apply list_lookup_insert_eq.
Qed.

Lemma store_fresh (σ : list Board) board cell mark :
  cell < length board →
  Imp.store (length σ) cell mark (σ ++ [board])
  = Some (tt, σ ++ [<[cell := mark]> board]).
Proof.
  intros Hc. erewrite store_spec; [|by apply list_lookup_middle|done].
  do 2 f_equal. rewrite <- (Nat.add_0_r (length σ)) at 1.
  by rewrite insert_app_r.
Qed.

Lemma scan_spec mark (σ : list Board) a board cells :
  σ !! a = Some board → Forall (fun c => c < length board) cells →
  ∃ extra, Imp.scan mark a cells σ = Some (scan mark board cells, σ ++ extra).
Proof.
  intros Ha Hc. revert σ Ha.
  induction Hc as [|cell rest Hcell _ IH]; intros σ Ha; simpl.
  - exists []. by rewrite app_nil_r.
  - rewrite (bind_Some _ _ _ _ _ (spread_spec σ a board Ha)).
    rewrite (bind_Some _ _ _ _ _ (store_fresh σ board cell mark Hcell)).
    erewrite bind_Some; [|by apply checkWinner_spec, list_lookup_middle].
    destruct (Winner_eqb _ _); [by eexists|].
    destruct (IH (σ ++ [<[cell := mark]> board])) as [extra ->].
    { by apply lookup_app_l_Some. }
    eexists. by rewrite <- app_assoc.
Qed.

Lemma root_loop_spec_store fuel (σ : list Board) a board cells bestScore bestMove :
  σ !! a = Some board → Forall (fun c => c < length board) cells →
  match root_loop fuel board cells bestScore bestMove with
  | Some v => ∃ extra, Imp.root_loop fuel a cells bestScore bestMove σ
                       = Some (v, σ ++ extra)
  | None => Imp.root_loop fuel a cells bestScore bestMove σ = None
  end.
Proof.
  intros Ha Hc. revert σ bestScore bestMove Ha.
  induction Hc as [|cell rest Hcell _ IH]; intros σ bestScore bestMove Ha; simpl.
  - exists []. by rewrite app_nil_r.
  - rewrite (bind_Some _ _ _ _ _ (spread_spec σ a board Ha)).
    rewrite (bind_Some _ _ _ _ _ (store_fresh σ board cell O Hcell)).
    assert ((σ ++ [<[cell := O]> board]) !! a = Some board) as Ha'
      by by apply lookup_app_l_Some.
    pose proof (minimax_spec fuel (σ ++ [<[cell := O]> board]) (length σ)
                  (<[cell := O]> board) 0 false) as Hm.
    rewrite list_lookup_middle in Hm by done. specialize (Hm eq_refl).
    destruct (minimax fuel (<[cell := O]> board) 0 false) as [score|]; simpl;
      [|by apply bind_None].
    rewrite (bind_Some _ _ _ _ _ Hm).
    destruct (Score_gtb score bestScore).
    + specialize (IH _ score (number cell) Ha').
      destruct (root_loop fuel board rest score (number cell)); [|done].
      destruct IH as [extra ->]. eexists. by rewrite <- app_assoc.
    + specialize (IH _ bestScore bestMove Ha').
      destruct (root_loop fuel board rest bestScore bestMove); [|done].
      destruct IH as [extra ->]. eexists. by rewrite <- app_assoc.
Qed.

Lemma filter_null_spec (σ : list Board) a board cells :
  σ !! a = Some board →
  Imp.filter_null a cells σ = Some (List.filter (is_null_at board) cells, σ).
Proof.
  intros Ha. induction cells as [|i rest IH]; simpl; [done|].
  rewrite (bind_Some _ _ _ _ _ (load_spec σ a board i Ha)).
  rewrite (bind_Some _ _ _ _ _ IH), strict_eq_null. done.
Qed.

(** [getAIMove] over the store returns what the functional [getAIMove]
    returns, and only adds arrays to the store. *)
Lemma getAIMove_spec fuel (σ : list Board) a board difficulty rnd :
  σ !! a = Some board →
  match getAIMove_fuel fuel board difficulty rnd with
  | Some v => ∃ extra, Imp.getAIMove fuel a difficulty rnd σ = Some (v, σ ++ extra)
  | None => Imp.getAIMove fuel a difficulty rnd σ = None
  end.
Proof.
  intros Ha. unfold getAIMove_fuel, Imp.getAIMove.
  assert (Imp.contents a σ = Some (board, σ)) as Hcontents
    by (unfold Imp.contents; by rewrite Ha).
  rewrite (bind_Some _ _ _ _ _ Hcontents).
  assert (Forall (fun c => c < length board) (emptyCells board)) as Hrange
    by (apply Forall_forall; intros c; apply emptyCells_lt).
  destruct (bool_decide (difficulty = easy)).
  { exists []. by rewrite app_nil_r. }
  destruct (scan_spec O σ a board (emptyCells board) Ha Hrange) as [extraO HO].
  rewrite (bind_Some _ _ _ _ _ HO).
  destruct (scan O board (emptyCells board)) as [cell|]; [by eexists|].
  assert ((σ ++ extraO) !! a = Some board) as HaO by by apply lookup_app_l_Some.
  destruct (scan_spec X (σ ++ extraO) a board (emptyCells board) HaO Hrange)
    as [extraX HX].
  rewrite (bind_Some _ _ _ _ _ HX), <- app_assoc.
  destruct (scan X board (emptyCells board)) as [cell|]; [by eexists|].
  rewrite <- app_assoc in HX.
  assert ((σ ++ extraO ++ extraX) !! a = Some board) as HaX
    by by apply lookup_app_l_Some.
  set (σ1 := σ ++ extraO ++ extraX) in *.
  assert (match (if bool_decide (difficulty = hard)
                 then root_loop fuel board (emptyCells board) NegInf
                        (read (emptyCells board) 0)
                 else Some (random_cell rnd (emptyCells board))) with
          | Some v =>
              ∃ extra,
                (if bool_decide (difficulty = hard)
                 then Imp.root_loop fuel a (emptyCells board) NegInf
                        (read (emptyCells board) 0)
                 else Imp.ret (random_cell rnd (emptyCells board))) σ1
                = Some (v, σ ++ extra)
          | None =>
              (if bool_decide (difficulty = hard)
               then Imp.root_loop fuel a (emptyCells board) NegInf
                      (read (emptyCells board) 0)
               else Imp.ret (random_cell rnd (emptyCells board))) σ1 = None
          end) as Hrest.
  { destruct (bool_decide (difficulty = hard)).
    - pose proof (root_loop_spec_store fuel σ1 a board (emptyCells board) NegInf
                    (read (emptyCells board) 0) HaX Hrange) as Hr.
      destruct (root_loop fuel board (emptyCells board) NegInf _); [|done].
      destruct Hr as [extra ->]. unfold σ1. eexists.
      by rewrite <- !app_assoc.
    - by eexists. }
  cbv zeta.
  destruct (bool_decide (difficulty = medium)); [|done].
  rewrite (bind_Some _ _ _ _ _ (load_spec σ1 a board 4 HaX)), strict_eq_null.
  destruct (is_null_at board 4); [by eexists|].
  rewrite (bind_Some _ _ _ _ _ (filter_null_spec σ1 a board [0; 2; 6; 8] HaX)).
  destruct (0 <? _); [by eexists|done].
Qed.

(** C6. A call of [getAIMove], at any difficulty, and a call of
    [checkWinner] return and leave their argument as it was: afterwards
    the array holds the cells it held before the call, and so does every
    other array of the store; the writes of [getAIMove] go to copies, and
    [minimax] undoes each of its writes before it returns. *)
Theorem calls_preserve_board (σ : list Board) (a : nat) (board : Board)
    (difficulty : Difficulty) (rnd : nat) :
  σ !! a = Some board →
  (∃ v σ', Imp.getAIMove search_fuel a difficulty rnd σ = Some (v, σ')
           ∧ σ' !! a = Some board
           ∧ σ `prefix_of` σ'
           ∧ getAIMove board difficulty rnd = Some v)
  ∧ Imp.checkWinner a σ = Some (checkWinner board, σ)
  ∧ (∀ fuel depth isMaximizing s σ',
       Imp.minimax fuel a depth isMaximizing σ = Some (s, σ') → σ' = σ).
Proof.
  intros Ha. split_and!.
  - destruct (getAIMove_returns board difficulty rnd) as [v Hv].
    pose proof (getAIMove_spec search_fuel σ a board difficulty rnd Ha) as Hs.
    unfold getAIMove in Hv. rewrite Hv in Hs. destruct Hs as [extra Hs].
    exists v, (σ ++ extra). split_and!; [done| | |done].
    + by apply lookup_app_l_Some.
    + by apply prefix_app_r.
  - by apply checkWinner_spec.
  - intros fuel depth isMaximizing s σ'.
    rewrite (minimax_spec fuel σ a board depth isMaximizing Ha).
    destruct (minimax fuel board depth isMaximizing); [|done]. by intros [= _ <-].
Qed.

(** C6 for a call at the hard tier on the only array of a store. *)
Lemma calls_preserve_board_witness :
  ∃ v σ',
    Imp.getAIMove search_fuel 0 hard 0 [[X; O; null; X; null; null; null; null; O]]
    = Some (v, σ')
    ∧ σ' !! 0 = Some [X; O; null; X; null; null; null; null; O]
    ∧ [[X; O; null; X; null; null; null; null; O]] `prefix_of` σ'
    ∧ getAIMove [X; O; null; X; null; null; null; null; O] hard 0 = Some v.
Proof.
  apply (calls_preserve_board [[X; O; null; X; null; null; null; null; O]] 0
           [X; O; null; X; null; null; null; null; O] hard 0).
  reflexivity.
Defined.

(** C7. At the hard tier the result of [getAIMove] is a function of the
    board alone: two calls on the same board return the same value
    whatever the random draws, also over the store, in whatever stores and
    at whatever addresses the board is held.  (The easy tier does depend
    on the draw.) *)
Theorem hard_deterministic (board : Board) (rnd1 rnd2 : nat) :
  getAIMove board hard rnd1 = getAIMove board hard rnd2
  ∧ (∀ (σ1 σ2 : list Board) a1 a2,
       σ1 !! a1 = Some board → σ2 !! a2 = Some board →
       fst <$> Imp.getAIMove search_fuel a1 hard rnd1 σ1
       = fst <$> Imp.getAIMove search_fuel a2 hard rnd2 σ2)
  ∧ getAIMove (replicate 9 null) easy 0 ≠ getAIMove (replicate 9 null) easy 1.
Proof.
  split_and!; [done| |done].
  intros σ1 σ2 a1 a2 H1 H2.
  pose proof (getAIMove_spec search_fuel σ1 a1 board hard rnd1 H1) as Hs1.
  pose proof (getAIMove_spec search_fuel σ2 a2 board hard rnd2 H2) as Hs2.
  change (getAIMove_fuel search_fuel board hard rnd2)
    with (getAIMove_fuel search_fuel board hard rnd1) in Hs2.
  destruct (getAIMove_fuel search_fuel board hard rnd1) as [v|].
  - destruct Hs1 as [e1 ->], Hs2 as [e2 ->]. done.
  - by rewrite Hs1, Hs2.
Qed.

(** ** Games against the hard tier *)

(** Where a press changes nothing: on a cell that holds a mark or is not
    on the board, and after the end of the game. *)
Lemma handleCellPress_idle index rnd s :
  winner s ≠ P null ∨ board s !! index ≠ Some null →
  handleCellPress index rnd s = s.
Proof.
  unfold handleCellPress. intros [Hw|Hc].
  - assert (is_over (winner s) = true) as ->
      by (by destruct (winner s) as [[]|]).
    by rewrite orb_true_r.
  - destruct (board s !! index) as [[| |]|] eqn:Hcell; simpl; [done..|].
    apply lookup_ge_None, Nat.ltb_ge in Hcell. rewrite Hcell.
    by destruct (is_over (winner s)).
Qed.

Lemma is_over_false w : is_over w = false ↔ w = P null.
Proof. unfold is_over. rewrite negb_false_iff. apply Winner_eqb_eq. Qed.

Lemma is_over_true w : is_over w = true ↔ w ≠ P null.
Proof. rewrite <- not_false_iff_true, is_over_false. done. Qed.

(** The reply of the computer on a board without a result is an empty
    cell, at every difficulty. *)
Lemma reply_empty_cell (board : Board) difficulty rnd :
  checkWinner board = P null →
  ∃ cell, getAIMove board difficulty rnd = Some (number cell)
          ∧ board !! cell = Some null.
Proof.
  intros [i Hi]%checkWinner_null_cell.
  destruct (getAIMove_returns board difficulty rnd) as [v Hv].
  destruct (getAIMove_fuel_empty_cell search_fuel board difficulty rnd v)
    as (cell & -> & Hcell); [|done|by exists cell].
  apply elem_of_emptyCells in Hi. intros Heq. rewrite Heq in Hi.
  by apply elem_of_nil in Hi.
Qed.

(** An accepted press: the steps of [handleCellPress] after its guard. *)
Lemma handleCellPress_accepted index rnd s :
  winner s = P null → board s !! index = Some null →
  handleCellPress index rnd s =
  let newBoard := <[index := currentPlayer s]> (board s) in
  let s1 := setBoard newBoard s in
  let gameWinner := checkWinner newBoard in
  if is_over gameWinner then updateStats gameWinner (setWinner gameWinner s1)
  else if bool_decide (gameMode s = ai) && bool_decide (currentPlayer s = X) then
    let s2 := setCurrentPlayer O s1 in
    match getAIMove newBoard (difficulty s) rnd with
    | None => s2
    | Some aiMove =>
        let aiBoard := match aiMove with
                       | number i => <[i := O]> newBoard
                       | undefined => newBoard
                       end in
        let s3 := setBoard aiBoard s2 in
        let aiWinner := checkWinner aiBoard in
        if is_over aiWinner then updateStats aiWinner (setWinner aiWinner s3)
        else setCurrentPlayer X s3
    end
  else if bool_decide (gameMode s = pvp) then
    setCurrentPlayer (if bool_decide (currentPlayer s = X) then O else X) s1
  else s1.
Proof.
  intros Hw Hc. unfold handleCellPress. rewrite Hw, Hc.
  rewrite (proj2 (Nat.ltb_lt _ _) (lookup_lt_Some _ _ _ Hc)). done.
Qed.

(** The press is accepted or it changes nothing. *)
Lemma handleCellPress_guard index rnd s :
  (winner s = P null ∧ board s !! index = Some null)
  ∨ handleCellPress index rnd s = s.
Proof.
  destruct (decide (winner s = P null)) as [Hw|Hw];
    [|right; apply handleCellPress_idle; auto].
  destruct (decide (board s !! index = Some null)) as [Hc|Hc];
    [by left|right; apply handleCellPress_idle; auto].
Qed.

(** ** Positions in which ['O'] can avoid a defeat *)

Lemma every_cell_spec test cells :
  every_cell test cells = true ↔ ∀ c, c ∈ cells → test c = true.
Proof.
  induction cells as [|c cells IH]; simpl.
  - split; [|done]. by intros _ c ?%elem_of_nil.
  - destruct (test c) eqn:Hc.
    + rewrite IH. split.
      * intros H c' [->|?]%elem_of_cons; auto.
      * intros H c' ?. apply H. by right.
    + split; [done|]. intros H. rewrite <- Hc. apply H. by left.
Qed.

Lemma some_cell_spec test cells :
  some_cell test cells = true ↔ ∃ c, c ∈ cells ∧ test c = true.
Proof.
  induction cells as [|c cells IH]; simpl.
  - split; [done|]. by intros (c & ?%elem_of_nil & _).
  - destruct (test c) eqn:Hc.
    + split; [|done]. intros _. exists c. split; [by left|done].
    + rewrite IH. split.
      * intros (c' & ? & ?). exists c'. split; [by right|done].
      * intros (c' & [->|?]%elem_of_cons & ?); [congruence|eauto].
Qed.

Lemma holds_S n board :
  holds (S n) board =
  match checkWinner board with
  | P X => false
  | P O | draw => true
  | P null =>
      every_cell
        (fun i =>
           match checkWinner (<[i := X]> board) with
           | P X => false
           | P O | draw => true
           | P null =>
               some_cell (fun c => holds n (<[c := O]> (<[i := X]> board)))
                 (emptyCells (<[i := X]> board))
           end)
        (emptyCells board)
  end.
Proof. reflexivity. Qed.

Lemma holds_not_X n board : holds n board = true → checkWinner board ≠ P X.
Proof. intros H Hw. destruct n; simpl in H; by rewrite Hw in H. Qed.

Lemma minimax_fuel_eq fuel fuel' board depth isMaximizing :
  nulls9 board < fuel → nulls9 board < fuel' →
  minimax fuel board depth isMaximizing = minimax fuel' board depth isMaximizing.
Proof.
  intros Hf Hf'.
  destruct (minimax_terminates fuel board depth isMaximizing Hf) as [s Hs].
  destruct (minimax_terminates fuel' board depth isMaximizing Hf') as [s' Hs'].
  destruct (Nat.le_ge_cases fuel fuel').
  - rewrite Hs. symmetry. by eapply minimax_fuel_mono.
  - rewrite Hs'. by eapply minimax_fuel_mono.
Qed.

Lemma Score_min_nonneg v acc :
  Score_leb (Fin 0) v = true → Score_leb (Fin 0) acc = true →
  Score_leb (Fin 0) (Score_min v acc) = true.
Proof. unfold Score_min. by destruct (Score_leb v acc). Qed.

Lemma Score_max_nonneg_l v acc :
  Score_leb (Fin 0) v = true → Score_leb (Fin 0) (Score_max v acc) = true.
Proof.
  unfold Score_max. intros Hv. destruct (Score_leb v acc) eqn:Hle; [|done].
  by eapply Score_leb_trans.
Qed.

Lemma Score_max_nonneg_r v acc :
  Score_leb (Fin 0) acc = true → Score_leb (Fin 0) (Score_max v acc) = true.
Proof.
  unfold Score_max. intros Hv. destruct (Score_leb v acc) eqn:Hle; [done|].
  destruct (Score_leb_total v acc) as [?|?]; [congruence|].
  by eapply Score_leb_trans.
Qed.

(** If ['O'] can avoid a defeat, the value of the position for ['X'] to
    move is not negative, at whatever depth the search meets it. *)
Lemma holds_sound n fuel (board : Board) depth :
  length board = 9 → (0 ≤ depth)%Z → (depth + Z.of_nat (nulls9 board) ≤ 9)%Z →
  nulls9 board < fuel →
  holds n board = true →
  ∃ z, minimax fuel board depth false = Some (Fin z) ∧ (0 ≤ z)%Z.
Proof.
  revert fuel board depth.
  induction n as [|n IH]; intros fuel board depth Hlen Hd Hn Hf Hh.
  { destruct fuel; [lia|]. rewrite minimax_S. simpl in Hh.
    destruct (checkWinner board) as [[| |]|]; try done.
    - exists (10 - depth)%Z. split; [done|lia].
    - by exists 0%Z. }
  destruct (minimax_terminates fuel board depth false Hf) as [s Hs].
  destruct (minimax_bounds fuel board depth false s) as (z & -> & _); [done..|].
  exists z. split; [done|].
  destruct fuel as [|fuel]; [done|]. rewrite minimax_S in Hs.
  rewrite holds_S in Hh.
  destruct (checkWinner board) as [[| |]|] eqn:Hw; try done.
  { injection Hs as <-. lia. }
  2:{ injection Hs as <-. lia. }
  rewrite every_cell_spec in Hh.
  cut (Score_leb (Fin 0) (Fin z) = true); [simpl; by intros ?%Z.leb_le|].
  apply (minimax_loop_inv board _ Score_min
           (fun _ acc => Score_leb (Fin 0) acc = true)) in Hs;
    [exact Hs|done|by intros|].
  intros pre i acc v Hi%elem_of_seq Hacc Hnull%is_null_at_eq Hv.
  apply Score_min_nonneg; [|done].
  pose proof (nulls9_insert board i X) as Hn1.
  specialize (Hn1 ltac:(done) ltac:(lia) Hnull).
  specialize (Hh i (proj2 (elem_of_emptyCells _ _) Hnull)).
  destruct fuel as [|fuel]; [done|]. rewrite minimax_S in Hv.
  destruct (checkWinner (<[i := X]> board)) as [[| |]|] eqn:Hw1; try done.
  { injection Hv as <-. simpl. apply Z.leb_le. lia. }
  2:{ by injection Hv as <-. }
  apply some_cell_spec in Hh as (c & Hc%elem_of_emptyCells & Hh).
  pose proof (lookup_lt_Some _ _ _ Hc) as Hltc.
  rewrite length_insert, Hlen in Hltc.
  pose proof (nulls9_insert (<[i := X]> board) c O) as Hn2.
  specialize (Hn2 ltac:(done) ltac:(lia) Hc).
  destruct (IH fuel (<[c := O]> (<[i := X]> board)) (depth + 1 + 1)%Z)
    as (zc & Hzc & Hpos); [by rewrite !length_insert|lia|lia|lia|done|].
  cut (c ∈ seq 0 9 → Score_leb (Fin 0) v = true);
    [intros Hcut; apply Hcut, elem_of_seq; lia|].
  eapply (minimax_loop_inv (<[i := X]> board) _ Score_max
            (fun pre acc => c ∈ pre → Score_leb (Fin 0) acc = true));
    [| | |exact Hv].
  - by intros ?%elem_of_nil.
  - intros pre' j acc' _ Hacc' Hj [?|Hcj%list_elem_of_singleton]%elem_of_app;
      [auto|subst j].
    apply is_null_at_eq in Hc. congruence.
  - intros pre' j acc' v' _ Hacc' Hj Hv'
      [?|Hcj%list_elem_of_singleton]%elem_of_app.
    + apply Score_max_nonneg_r. auto.
    + subst j. rewrite Hzc in Hv'. injection Hv' as <-.
      apply Score_max_nonneg_l. simpl. by apply Z.leb_le.
Qed.

Lemma nulls9_pos (board : Board) i :
  i < 9 → board !! i = Some null → 0 < nulls9 board.
Proof.
  intros Hi Hn. unfold nulls9.
  assert (i ∈ List.filter (is_null_at board) (seq 0 9)) as Hin.
  { apply list_elem_of_In, filter_In. split.
    - apply in_seq. lia.
    - by apply is_null_at_eq. }
  destruct (List.filter _ _); [by apply elem_of_nil in Hin|simpl; lia].
Qed.

Lemma Score_min_le_l v acc : Score_leb (Score_min v acc) v = true.
Proof.
  unfold Score_min. destruct (Score_leb v acc) eqn:Hle.
  - apply Score_leb_refl.
  - destruct (Score_leb_total v acc); congruence.
Qed.

Lemma Score_min_le_r v acc : Score_leb (Score_min v acc) acc = true.
Proof.
  unfold Score_min. destruct (Score_leb v acc) eqn:Hle; [done|].
  apply Score_leb_refl.
Qed.

(** Conversely, if the value of the position for ['X'] to move is not
    negative, ['O'] can avoid a defeat. *)
Lemma holds_complete n fuel (board : Board) depth s :
  length board = 9 → (0 ≤ depth)%Z → (depth + Z.of_nat (nulls9 board) ≤ 9)%Z →
  nulls9 board ≤ 2 * n →
  minimax fuel board depth false = Some s → Score_leb (Fin 0) s = true →
  holds n board = true.
Proof.
  revert fuel board depth s.
  induction n as [|n IH]; intros fuel board depth s Hlen Hd Hn Hn2 Hs Hpos;
    (destruct fuel as [|fuel]; [done|]); rewrite minimax_S in Hs.
  { simpl. destruct (checkWinner board) as [[| |]|] eqn:Hw; try done.
    - injection Hs as <-. simpl in Hpos. apply Z.leb_le in Hpos. lia.
    - destruct (checkWinner_null_cell board Hw) as [i Hi].
      pose proof (lookup_lt_Some _ _ _ Hi) as Hlt. rewrite Hlen in Hlt.
      pose proof (nulls9_pos board i Hlt Hi). lia. }
  rewrite holds_S. destruct (checkWinner board) as [[| |]|] eqn:Hw; try done.
  { injection Hs as <-. simpl in Hpos. apply Z.leb_le in Hpos. lia. }
  apply every_cell_spec. intros i Hi%elem_of_emptyCells.
  pose proof (lookup_lt_Some _ _ _ Hi) as Hlt. rewrite Hlen in Hlt.
  pose proof (nulls9_insert board i X) as Hn1.
  specialize (Hn1 ltac:(done) ltac:(lia) Hi).
  (* the move at [i] has a value of at least [s] *)
  assert (∃ v, minimax fuel (<[i := X]> board) (depth + 1) true = Some v
               ∧ Score_leb (Fin 0) v = true) as (v & Hv & Hvpos).
  { cut (∀ j, j ∈ seq 0 9 → is_null_at board j = true →
              ∃ v, minimax fuel (<[j := X]> board) (depth + 1) true = Some v
                   ∧ Score_leb s v = true).
    { intros Hcut. destruct (Hcut i) as (v & ? & ?).
      - apply elem_of_seq. lia.
      - by apply is_null_at_eq.
      - exists v. split; [done|]. by eapply Score_leb_trans. }
    eapply (minimax_loop_inv board _ Score_min
              (fun pre acc =>
                 ∀ j, j ∈ pre → is_null_at board j = true →
                      ∃ v, minimax fuel (<[j := X]> board) (depth + 1) true = Some v
                           ∧ Score_leb acc v = true));
      [| | |exact Hs].
    - by intros j ?%elem_of_nil.
    - intros pre j' acc _ Hacc Hj' j [?|Hj%list_elem_of_singleton]%elem_of_app Hnull;
        [auto|subst j; congruence].
    - intros pre j' acc v' _ Hacc Hj' Hv' j
        [Hin|Hj%list_elem_of_singleton]%elem_of_app Hnull.
      + destruct (Hacc j Hin Hnull) as (v & ? & ?). exists v. split; [done|].
        eapply Score_leb_trans; [apply Score_min_le_r|done].
      + subst j. exists v'. split; [done|]. apply Score_min_le_l. }
  destruct fuel as [|fuel]; [done|]. rewrite minimax_S in Hv.
  destruct (checkWinner (<[i := X]> board)) as [[| |]|] eqn:Hw1; try done.
  { injection Hv as <-. simpl in Hvpos. apply Z.leb_le in Hvpos. lia. }
  apply some_cell_spec.
  cut (Score_leb (Fin 0) v = true →
       ∃ c, c ∈ seq 0 9 ∧ is_null_at (<[i := X]> board) c = true
            ∧ ∃ vc, minimax fuel (<[c := O]> (<[i := X]> board)) (depth + 1 + 1) false
                    = Some vc
                    ∧ Score_leb (Fin 0) vc = true).
  { intros Hcut.
    destruct (Hcut Hvpos) as (c & Hc%elem_of_seq & Hnull%is_null_at_eq & vc & Hvc & Hvcpos).
    exists c. split; [by apply elem_of_emptyCells|].
    pose proof (nulls9_insert (<[i := X]> board) c O) as Hn3.
    specialize (Hn3 ltac:(done) ltac:(lia) Hnull).
    eapply (IH fuel _ (depth + 1 + 1)%Z vc); [|lia|lia|lia|done|done].
    by rewrite !length_insert. }
  eapply (minimax_loop_inv (<[i := X]> board) _ Score_max
            (fun pre acc =>
               Score_leb (Fin 0) acc = true →
               ∃ c, c ∈ pre ∧ is_null_at (<[i := X]> board) c = true
                    ∧ ∃ vc, minimax fuel (<[c := O]> (<[i := X]> board))
                              (depth + 1 + 1) false = Some vc
                            ∧ Score_leb (Fin 0) vc = true));
    [| | |exact Hv].
  - done.
  - intros pre j acc _ Hacc Hj Hp.
    destruct (Hacc Hp) as (c & ? & ?). exists c. split; [|done].
    apply elem_of_app. by left.
  - intros pre j acc v' _ Hacc Hj Hv' Hp. unfold Score_max in Hp.
    destruct (Score_leb v' acc).
    + destruct (Hacc Hp) as (c & ? & ?). exists c. split; [|done].
      apply elem_of_app. by left.
    + exists j. split; [apply elem_of_app; right; by left|]. eauto.
Qed.

(** The reply of the hard tier keeps a position in which ['O'] can avoid a
    defeat, if some reply does. *)
Lemma hard_reply_holds (board : Board) rnd n c :
  length board = 9 → checkWinner board = P null →
  board !! c = Some null → holds n (<[c := O]> board) = true →
  ∃ cell, getAIMove board hard rnd = Some (number cell)
          ∧ board !! cell = Some null
          ∧ holds 9 (<[cell := O]> board) = true.
Proof.
  intros Hlen Hb Hc Hh.
  destruct (hard_choice board rnd Hlen Hb)
    as (cell & Hmove & Hcell & (best & Hbest & Hmax) & _).
  exists cell. split_and!; [done..|].
  destruct (Hmax c Hc) as (s & Hs & Hle).
  destruct (holds_sound n search_fuel (<[c := O]> board) 0)
    as (z & Hz & Hpos); [by rewrite length_insert|done| | |done|].
  { pose proof (nulls9_le (<[c := O]> board)). lia. }
  { pose proof (nulls9_le (<[c := O]> board)). unfold search_fuel. lia. }
  unfold move_value in Hs. rewrite Hz in Hs. injection Hs as <-.
  apply (holds_complete 9 search_fuel (<[cell := O]> board) 0 best);
    [by rewrite length_insert|done| | |done|].
  - pose proof (nulls9_le (<[cell := O]> board)). lia.
  - pose proof (nulls9_le (<[cell := O]> board)). lia.
  - eapply Score_leb_trans; [|done]. simpl. by apply Z.leb_le.
Qed.

Lemma hard_invariant_press index rnd s :
  hard_invariant s → hard_invariant (handleCellPress index rnd s).
Proof.
  intros Hinv.
  destruct (decide (winner s = P null)) as [Hw|Hw];
    [|by rewrite handleCellPress_idle by auto].
  destruct (decide (board s !! index = Some null)) as [Hc|Hc];
    [|by rewrite handleCellPress_idle by auto].
  destruct s as [b cp gm df w st gc]. unfold hard_invariant in Hinv.
  simpl in Hinv, Hw, Hc.
  subst w. destruct Hinv as (-> & -> & Hlen & -> & Hopen & n & Hn).
  pose proof (lookup_lt_Some _ _ _ Hc) as Hlt.
  (* the press *)
  remember (handleCellPress index rnd _) as s' eqn:Hs'.
  unfold handleCellPress in Hs'.
  cbn [board winner currentPlayer gameMode difficulty] in Hs'.
  rewrite Hc, (proj2 (Nat.ltb_lt _ _) Hlt) in Hs'.
  cbn [truthy is_over Winner_eqb negb orb] in Hs'.
  destruct n as [|n]; [simpl in Hn; by rewrite Hopen in Hn|].
  rewrite holds_S, Hopen, every_cell_spec in Hn.
  specialize (Hn index (proj2 (elem_of_emptyCells _ _) Hc)).
  destruct (checkWinner (<[index := X]> b)) as [[| |]|] eqn:Hw1; [done| | |].
  - (* the press ends the game: 'O' has a line *)
    subst s'. unfold hard_invariant. simpl. by rewrite length_insert.
  - (* the computer replies *)
    apply some_cell_spec in Hn as (c & Hcn%elem_of_emptyCells & Hh).
    destruct (hard_reply_holds (<[index := X]> b) rnd n c)
      as (cell & Hmove & Hcell & Hcellh); [by rewrite length_insert|done..|].
    rewrite Hmove in Hs'.
    cbn [is_over Winner_eqb negb andb bool_decide decide_rel] in Hs'.
    pose proof (holds_not_X _ _ Hcellh) as HnotX.
    destruct (checkWinner (<[cell := O]> (<[index := X]> b))) as [[| |]|] eqn:Hw2;
      [done| | |]; subst s'; unfold hard_invariant; simpl;
      rewrite !length_insert; split_and!; try done.
    exists 9. done.
  - (* the press ends the game: a draw *)
    subst s'. unfold hard_invariant. simpl. by rewrite length_insert.
Qed.

(** On the empty board ['O'] can avoid a defeat (by evaluation of
    [holds]). *)
Lemma holds_empty_board : holds 5 (replicate 9 null) = true.
Proof. vm_cast_no_check (eq_refl true). Qed.

Lemma hard_invariant_new_game s :
  gameMode s = ai → difficulty s = hard → hard_invariant (resetGame s).
Proof.
  intros Hm Hd. unfold hard_invariant. simpl. split_and!; [done..|].
  exists 5. exact holds_empty_board.
Qed.

Lemma hard_invariant_run s actions :
  hard_invariant s → hard_invariant (run s (hard_session actions)).
Proof.
  revert s. induction actions as [|[[index rnd]|] actions IH]; intros s Hs.
  - done.
  - simpl. by apply IH, hard_invariant_press.
  - simpl. apply IH. destruct Hs as (? & ? & _).
    by apply hard_invariant_new_game.
Qed.

(** ** Positions with ['O'] to move *)

Lemma holds_S_reply n board :
  holds (S n) board =
  match checkWinner board with
  | P X => false
  | P O | draw => true
  | P null =>
      every_cell (fun i => holds_reply n (<[i := X]> board)) (emptyCells board)
  end.
Proof. by rewrite holds_S. Qed.

Lemma every_cell_false test cells :
  every_cell test cells = false → ∃ c, c ∈ cells ∧ test c = false.
Proof.
  induction cells as [|c cells IH]; [done|]. simpl.
  destruct (test c) eqn:Hc.
  - intros (c' & ? & ?)%IH. exists c'. split; [by right|done].
  - intros _. exists c. split; [by left|done].
Qed.

Lemma some_cell_false test cells c :
  some_cell test cells = false → c ∈ cells → test c = false.
Proof.
  intros Hs Hc. destruct (test c) eqn:Ht; [|done].
  rewrite <- Hs. symmetry. apply some_cell_spec. by exists c.
Qed.

(** After a press of ['X'] that leaves ['O'] a position in which it can
    avoid a defeat, the reply of the hard tier restores the invariant. *)
Lemma hard_invariant_reply index rnd n s :
  gameMode s = ai → difficulty s = hard → length (board s) = 9 →
  winner s = P null → currentPlayer s = X → board s !! index = Some null →
  holds_reply n (<[index := X]> (board s)) = true →
  hard_invariant (handleCellPress index rnd s).
Proof.
  intros Hm Hd Hlen Hw Hp Hc Hh.
  rewrite handleCellPress_accepted by done. cbv zeta.
  rewrite Hp, Hm, Hd. unfold holds_reply in Hh.
  set (newBoard := <[index := X]> (board s)) in *.
  assert (length newBoard = 9) as Hlen1
    by (unfold newBoard; by rewrite length_insert).
  destruct (checkWinner newBoard) as [[| |]|] eqn:Hw1; [done| | |].
  - unfold hard_invariant. simpl. by rewrite Hm, Hd.
  - apply some_cell_spec in Hh as (c & Hcn%elem_of_emptyCells & Hh).
    destruct (hard_reply_holds newBoard rnd n c Hlen1 Hw1 Hcn Hh)
      as (cell & -> & Hcell & Hcellh).
    rewrite !bool_decide_eq_true_2 by done.
    cbn [is_over Winner_eqb negb andb].
    pose proof (holds_not_X _ _ Hcellh) as HnotX.
    destruct (checkWinner (<[cell := O]> newBoard)) as [[| |]|] eqn:Hw2;
      [done| | |]; unfold hard_invariant; simpl;
      rewrite ?length_insert, ?Hm, ?Hd, ?Hw; split_and!; try done.
    exists 9. done.
  - unfold hard_invariant. simpl. by rewrite Hm, Hd.
Qed.

(** A press of ['X'] after which ['O'] cannot avoid a defeat wins, at once
    or with further presses, against the replies of the hard tier; [later]
    is the same fact for the positions in which ['X'] is to move again. *)
Lemma hard_loses_reply n s index rnd :
  (∀ s', gameMode s' = ai → difficulty s' = hard → length (board s') = 9 →
         winner s' = P null → currentPlayer s' = X →
         checkWinner (board s') = P null →
         nulls9 (board s') ≤ 2 * n → holds n (board s') = false →
         ∃ presses : list (nat * nat),
           winner (run s' (hard_session (Some <$> presses))) = P X) →
  gameMode s = ai → difficulty s = hard → length (board s) = 9 →
  winner s = P null → currentPlayer s = X →
  board s !! index = Some null →
  nulls9 (board s) ≤ 2 * n + 2 →
  holds_reply n (<[index := X]> (board s)) = false →
  ∃ presses : list (nat * nat),
    winner (run s (press index rnd :: hard_session (Some <$> presses))) = P X.
Proof.
  intros later Hm Hd Hlen Hw Hp Hi Hn Hh.
  pose proof (lookup_lt_Some _ _ _ Hi) as Hlt. rewrite Hlen in Hlt.
  pose proof (nulls9_insert (board s) index X ltac:(done) Hlt Hi) as Hn1.
  assert (handleCellPress index rnd s = handleCellPress index rnd s)
    as Hpress by done.
  rewrite handleCellPress_accepted in Hpress at 2 by done.
  cbv zeta in Hpress. rewrite Hp, Hm, Hd in Hpress.
  unfold holds_reply in Hh.
  set (newBoard := <[index := X]> (board s)) in *.
  assert (length newBoard = 9) as Hlen1
    by (unfold newBoard; by rewrite length_insert).
  destruct (checkWinner newBoard) as [[| |]|] eqn:Hw1; [|done| |done];
    cbn [is_over Winner_eqb negb] in Hpress.
  { exists []. unfold run, hard_session. simpl.
    rewrite Hpress. reflexivity. }
  destruct (reply_empty_cell newBoard hard rnd Hw1) as (cell & Hmove & Hcell).
  rewrite Hmove in Hpress.
  rewrite !bool_decide_eq_true_2 in Hpress by done.
  cbn [is_over Winner_eqb negb andb] in Hpress.
  pose proof (some_cell_false _ _ cell Hh
                (proj2 (elem_of_emptyCells _ _) Hcell)) as Hh2.
  simpl in Hh2.
  pose proof (lookup_lt_Some _ _ _ Hcell) as Hlt2. rewrite Hlen1 in Hlt2.
  pose proof (nulls9_insert newBoard cell O ltac:(done) Hlt2 Hcell) as Hn2.
  set (aiBoard := <[cell := O]> newBoard) in *.
  assert (length aiBoard = 9) as Hlen2
    by (unfold aiBoard; by rewrite length_insert).
  destruct (checkWinner aiBoard) as [[| |]|] eqn:Hw2;
    cbn [is_over Winner_eqb negb] in Hpress.
  - exists []. unfold run, hard_session. simpl.
    rewrite Hpress. reflexivity.
  - destruct n; simpl in Hh2; by rewrite Hw2 in Hh2.
  - destruct (later (handleCellPress index rnd s)) as [presses Hwin];
      rewrite ?Hpress; simpl; try done; [lia|].
    exists presses. exact Hwin.
  - destruct n; simpl in Hh2; by rewrite Hw2 in Hh2.
Qed.

(** From a position without a result in which ['O'] cannot avoid a
    defeat, some presses of ['X'] win against the replies of the hard
    tier. *)
Lemma hard_loses n s :
  gameMode s = ai → difficulty s = hard → length (board s) = 9 →
  winner s = P null → currentPlayer s = X →
  checkWinner (board s) = P null →
  nulls9 (board s) ≤ 2 * n → holds n (board s) = false →
  ∃ presses : list (nat * nat),
    winner (run s (hard_session (Some <$> presses))) = P X.
Proof.
  revert s. induction n as [|n IH]; intros s Hm Hd Hlen Hw Hp Hopen Hn Hh.
  { destruct (checkWinner_null_cell _ Hopen) as [i Hi].
    pose proof (lookup_lt_Some _ _ _ Hi) as Hlt. rewrite Hlen in Hlt.
    pose proof (nulls9_pos _ i Hlt Hi). lia. }
  rewrite holds_S_reply, Hopen in Hh.
  apply every_cell_false in Hh as (i & Hi%elem_of_emptyCells & Hh).
  destruct (hard_loses_reply n s i 0 IH) as [presses Hwin]; try done; [lia|].
  by exists ((i, 0) :: presses).
Qed.

(** C3, as the code has it.  When a game against the computer at the hard
    tier is continued from a position from which ['O'] can still avoid a
    defeat, then, whatever cells the human presses and however often a new
    game is started, no game is won by ['X']: the current game is still
    open, or won by ['O'], or a draw.  The position may be one with the
    human to move (the first part), or one with ['O'] to move, reached by
    a press of the human in a position that was lost for ['O'] before it
    (the fourth part).  A new game is such a position, so this holds of
    every session that starts with a new game at the hard tier and keeps
    the difficulty there.  In particular, if the human opens at the centre
    and then plays the choice of the hard tier too, the game ends in a
    draw.  From the other positions the claim fails: where ['O'] cannot
    avoid a defeat, be it with the human to move or after a press of the
    human, some sequence of presses wins for ['X'] (the last two
    parts). *)
Theorem hard_never_loses (s : State) (actions : list (option (nat * nat))) :
  (hard_invariant s →
   winner (run s (hard_session actions)) = P null
   ∨ winner (run s (hard_session actions)) = P O
   ∨ winner (run s (hard_session actions)) = draw)
  ∧ (winner (run (startGame ai None s)
               (pickDifficulty hard :: hard_session actions)) = P null
     ∨ winner (run (startGame ai None s)
                 (pickDifficulty hard :: hard_session actions)) = P O
     ∨ winner (run (startGame ai None s)
                 (pickDifficulty hard :: hard_session actions)) = draw)
  ∧ winner (self_play 4 (run (startGame ai None s)
                           [pickDifficulty hard; press 4 0]))
    = draw
  ∧ (∀ index rnd n,
       gameMode s = ai → difficulty s = hard → length (board s) = 9 →
       winner s = P null → currentPlayer s = X →
       board s !! index = Some null →
       holds_reply n (<[index := X]> (board s)) = true →
       winner (run s (press index rnd :: hard_session actions)) = P null
       ∨ winner (run s (press index rnd :: hard_session actions)) = P O
       ∨ winner (run s (press index rnd :: hard_session actions)) = draw)
  ∧ (gameMode s = ai → difficulty s = hard → length (board s) = 9 →
     winner s = P null → currentPlayer s = X →
     checkWinner (board s) = P null →
     holds 5 (board s) = false →
     ∃ presses, winner (run s (hard_session presses)) = P X)
  ∧ (∀ index rnd,
       gameMode s = ai → difficulty s = hard → length (board s) = 9 →
       winner s = P null → currentPlayer s = X →
       board s !! index = Some null →
       holds_reply 4 (<[index := X]> (board s)) = false →
       ∃ presses,
         winner (run s (press index rnd :: hard_session presses)) = P X).
Proof.
  assert (∀ s', hard_invariant s' →
            winner (run s' (hard_session actions)) = P null
            ∨ winner (run s' (hard_session actions)) = P O
            ∨ winner (run s' (hard_session actions)) = draw) as Hsafe.
  { intros s' Hs'.
    destruct (hard_invariant_run s' actions Hs') as (_ & _ & _ & Hw).
    destruct (winner (run _ _)) as [[| |]|]; auto; done. }
  split_and!; [by apply Hsafe| |by vm_compute| | |].
  - change (run (startGame ai None s)
              (pickDifficulty hard :: hard_session actions))
      with (run (startGame ai (Some hard) s) (hard_session actions)).
    apply Hsafe. unfold hard_invariant. simpl. split_and!; [done..|].
    exists 5. exact holds_empty_board.
  - intros index rnd n Hm Hd Hlen Hw Hp Hc Hh.
    change (run s (press index rnd :: hard_session actions))
      with (run (handleCellPress index rnd s) (hard_session actions)).
    by apply Hsafe, (hard_invariant_reply index rnd n).
  - intros Hm Hd Hlen Hw Hp Hopen Hh.
    destruct (hard_loses 5 s) as [presses Hwin]; try done.
    { pose proof (nulls9_le (board s)). lia. }
    by exists (Some <$> presses).
  - intros index rnd Hm Hd Hlen Hw Hp Hc Hh.
    destruct (hard_loses_reply 4 s index rnd) as [presses Hwin]; try done.
    { intros s'. apply hard_loses. }
    { pose proof (nulls9_le (board s)). lia. }
    by exists (Some <$> presses).
Qed.

(** C3 on a position that is lost for ['O'] with the human to move, and
    not after the press of cell 8: the first reply is drawn at the easy
    tier and leaves ['X'] a winning attack, but ['X'] presses cell 8; the
    hard tier answers at the centre, and ['X'] does not win the game that
    follows. *)
Lemma hard_never_loses_witness :
  board (run (startGame ai None initial)
           [pickDifficulty easy; press 0 0; pickDifficulty hard])
  = [X; O; null; null; null; null; null; null; null]
  ∧ holds 5 [X; O; null; null; null; null; null; null; null] = false
  ∧ getAIMove [X; O; null; null; null; null; null; null; X] hard 0
    = Some (number 4)
  ∧ (winner (run (run (startGame ai None initial)
                    [pickDifficulty easy; press 0 0; pickDifficulty hard])
               (press 8 0 :: hard_session [Some (7, 0); Some (2, 0);
                                           Some (3, 0)])) = P null
     ∨ winner (run (run (startGame ai None initial)
                      [pickDifficulty easy; press 0 0; pickDifficulty hard])
                 (press 8 0 :: hard_session [Some (7, 0); Some (2, 0);
                                             Some (3, 0)])) = P O
     ∨ winner (run (run (startGame ai None initial)
                      [pickDifficulty easy; press 0 0; pickDifficulty hard])
                 (press 8 0 :: hard_session [Some (7, 0); Some (2, 0);
                                             Some (3, 0)])) = draw).
Proof.
  split_and!; [by vm_compute..|].
  apply (hard_never_loses
           (run (startGame ai None initial)
              [pickDifficulty easy; press 0 0; pickDifficulty hard])
           [Some (7, 0); Some (2, 0); Some (3, 0)]) with (n := 4);
    by vm_compute.
Defined.

(** C3 as stated fails from positions that the hard tier did not play
    itself.  The difficulty can be changed during a game: here the first
    two replies are drawn at the easy tier and leave ['X'] a double threat
    after its third move; the hard tier answers that legal position with
    cell 5, and ['X'] wins at cell 6. *)
Lemma hard_loses_lost_position :
  board (run (startGame ai None initial)
           [pickDifficulty easy; press 0 0; press 4 5])
  = [X; O; null; null; X; null; null; null; O]
  ∧ checkWinner [X; O; null; X; X; null; null; null; O] = P null
  ∧ getAIMove [X; O; null; X; X; null; null; null; O] hard 0 = Some (number 5)
  ∧ board (run (startGame ai None initial)
             [pickDifficulty easy; press 0 0; press 4 5;
              pickDifficulty hard; press 3 0])
    = [X; O; null; X; X; O; null; null; O]
  ∧ winner (run (startGame ai None initial)
              [pickDifficulty easy; press 0 0; press 4 5;
               pickDifficulty hard; press 3 0; press 6 0])
    = P X.
Proof. by vm_compute. Qed.

(** ** The statistics *)

(** C10. [updateStats] adds one to [gameCount]; it adds one to
    [playerWins] exactly when the winner is ['X'], to [draws] exactly when
    the game is a draw, and to [aiWins] exactly when the winner is ['O']
    and the mode is ['ai']; it changes nothing else.  Hence a win of ['O']
    in a game of two players counts in none of the three, and their sum
    can be smaller than [gameCount], as after the first such game. *)
Theorem updateStats_counts (w : Winner) (s : State) :
  gameCount (updateStats w s) = gameCount s + 1
  ∧ playerWins (stats (updateStats w s))
    = playerWins (stats s) + (if bool_decide (w = P X) then 1 else 0)
  ∧ draws (stats (updateStats w s))
    = draws (stats s) + (if bool_decide (w = draw) then 1 else 0)
  ∧ aiWins (stats (updateStats w s))
    = aiWins (stats s)
      + (if bool_decide (w = P O ∧ gameMode s = ai) then 1 else 0)
  ∧ (board (updateStats w s), currentPlayer (updateStats w s),
     gameMode (updateStats w s), difficulty (updateStats w s),
     winner (updateStats w s))
    = (board s, currentPlayer s, gameMode s, difficulty s, winner s)
  ∧ (gameMode s = pvp → stats (updateStats (P O) s) = stats s)
  ∧ winner (run (startGame pvp None initial)
              [press 0 0; press 3 0; press 1 0; press 4 0; press 8 0; press 5 0])
    = P O
  ∧ playerWins (stats (run (startGame pvp None initial)
       [press 0 0; press 3 0; press 1 0; press 4 0; press 8 0; press 5 0]))
    + aiWins (stats (run (startGame pvp None initial)
       [press 0 0; press 3 0; press 1 0; press 4 0; press 8 0; press 5 0]))
    + draws (stats (run (startGame pvp None initial)
       [press 0 0; press 3 0; press 1 0; press 4 0; press 8 0; press 5 0]))
    < gameCount (run (startGame pvp None initial)
       [press 0 0; press 3 0; press 1 0; press 4 0; press 8 0; press 5 0]).
Proof.
  split_and!.
  - done.
  - simpl. destruct w as [[| |]|]; simpl; lia.
  - simpl. destruct w as [[| |]|]; simpl; lia.
  - simpl. destruct w as [[| |]|], (gameMode s); simpl; lia.
  - done.
  - intros Hm. unfold updateStats. rewrite Hm. simpl. by destruct (stats s).
  - by vm_compute.
  - vm_compute. lia.
Qed.

(** * Further properties *)

(** ** The handlers of the game screen *)

Lemma count_mark_insert (board : Board) i old new mark :
  board !! i = Some old →
  count_mark mark (<[i := new]> board) + (if bool_decide (old = mark) then 1 else 0)
  = count_mark mark board + (if bool_decide (new = mark) then 1 else 0).
Proof.
  unfold count_mark. revert i.
  induction board as [|c board IH]; intros i Hi; [done|].
  destruct i as [|i]; simpl in *.
  - injection Hi as ->. rewrite !filter_cons.
    repeat case_decide; repeat case_bool_decide; simpl; try lia; done.
  - specialize (IH i Hi). rewrite !filter_cons.
    destruct (decide (c = mark)); simpl; [|done].
    by rewrite IH.
Qed.

(** Playing a mark at an empty cell adds one to the count of that mark and
    leaves the count of the other. *)
Lemma count_mark_play (board : Board) i mark :
  board !! i = Some null → mark ≠ null →
  count_mark mark (<[i := mark]> board) = S (count_mark mark board)
  ∧ ∀ other, other ≠ mark → other ≠ null →
             count_mark other (<[i := mark]> board) = count_mark other board.
Proof.
  intros Hi Hm. split.
  - pose proof (count_mark_insert board i null mark mark Hi) as H.
    rewrite bool_decide_eq_false_2, bool_decide_eq_true_2 in H by done. lia.
  - intros other Ho Hn.
    pose proof (count_mark_insert board i null mark other Hi) as H.
    rewrite !bool_decide_eq_false_2 in H by done. lia.
Qed.

(** ** Sessions *)

Lemma updateStats_sum w s :
  playerWins (stats (updateStats w s)) + aiWins (stats (updateStats w s))
  + draws (stats (updateStats w s))
  ≤ playerWins (stats s) + aiWins (stats s) + draws (stats s) + 1.
Proof.
  unfold updateStats; simpl.
  destruct w as [[]|]; simpl; try case_bool_decide; simpl; lia.
Qed.

Lemma updateStats_sum_ai w s :
  gameMode s = ai → is_over w = true →
  playerWins (stats (updateStats w s)) + aiWins (stats (updateStats w s))
  + draws (stats (updateStats w s))
  = playerWins (stats s) + aiWins (stats s) + draws (stats s) + 1.
Proof.
  intros Hm Hw. unfold updateStats; simpl.
  rewrite bool_decide_eq_true_2 by done.
  destruct w as [[]|]; simpl in *; try done; lia.
Qed.

Lemma count_mark_replicate_null mark n :
  mark ≠ null → count_mark mark (replicate n null) = 0.
Proof.
  intros Hm. unfold count_mark. induction n as [|n IH]; [done|].
  simpl. rewrite filter_cons. by case_decide.
Qed.

Lemma session_invariant_reset s m :
  playerWins (stats s) + aiWins (stats s) + draws (stats s) ≤ gameCount s →
  session_invariant (resetGame s)
  ∧ session_invariant (setGameMode m (resetGame s)).
Proof.
  intros Hs. unfold session_invariant, resetGame.
  cbn [board winner currentPlayer gameMode stats gameCount
       setWinner setCurrentPlayer setBoard setGameMode].
  rewrite !count_mark_replicate_null by done. auto 10.
Qed.

Lemma session_invariant_over (b : Board) w s :
  length b = 9 → w = checkWinner b → is_over w = true →
  (count_mark X b = count_mark O b ∨ count_mark X b = S (count_mark O b)) →
  playerWins (stats s) + aiWins (stats s) + draws (stats s) ≤ gameCount s →
  session_invariant (updateStats w (setWinner w (setBoard b s))).
Proof.
  intros Hl Hw Ho Hc Hs. unfold session_invariant.
  pose proof (updateStats_sum w (setWinner w (setBoard b s))) as Hu.
  split_and!; try done.
  - intros Hn. apply is_over_true in Ho. done.
  - simpl in *. lia.
Qed.

(** A press of a cell of the game view keeps the invariant. *)
Lemma session_invariant_press index rnd s :
  gameMode s ≠ menu → session_invariant s →
  session_invariant (handleCellPress index rnd s).
Proof.
  intros Hmenu Hinv.
  destruct (handleCellPress_guard index rnd s) as [[Hw Hc]| ->]; [|done].
  rewrite handleCellPress_accepted by done. cbv zeta.
  destruct Hinv as (Hl & Hcw & Hturn & Hcount & Hstats).
  destruct (Hturn Hw) as [[Hp Heq]|(Hp & Hm & Heq)]; rewrite Hp.
  - (* the turn of X *)
    destruct (count_mark_play (board s) index X Hc) as [HX HO]; [done|].
    specialize (HO O).
    set (newBoard := <[index := X]> (board s)) in *.
    assert (length newBoard = 9) as Hl1
      by (unfold newBoard; by rewrite length_insert).
    assert (count_mark X newBoard = S (count_mark O newBoard)) as Hcnt
      by (rewrite HX, HO by done; lia).
    destruct (is_over (checkWinner newBoard)) eqn:Hover.
    { apply session_invariant_over; auto. }
    apply is_over_false in Hover.
    rewrite (bool_decide_eq_true_2 (X = X)), andb_true_r by done.
    case_bool_decide as Hai.
    + destruct (reply_empty_cell newBoard (difficulty s) rnd Hover)
        as (cell & -> & Hcell).
      destruct (count_mark_play newBoard cell O Hcell) as [HO' HX']; [done|].
      specialize (HX' X).
      set (aiBoard := <[cell := O]> newBoard) in *.
      assert (length aiBoard = 9) as Hl2
        by (unfold aiBoard; by rewrite length_insert).
      assert (count_mark X aiBoard = count_mark O aiBoard) as Hcnt2
        by (rewrite HX', HO' by done; lia).
      destruct (is_over (checkWinner aiBoard)) eqn:Hover2.
      { apply (session_invariant_over aiBoard _
                 (setCurrentPlayer O (setBoard newBoard s))); auto. }
      apply is_over_false in Hover2.
      unfold session_invariant; simpl. rewrite Hw, Hover2. auto 10.
    + rewrite bool_decide_eq_true_2 by (by destruct (gameMode s)).
      unfold session_invariant; simpl. rewrite Hw, Hover.
      split_and!; auto. intros _. right. split_and!; auto.
      by destruct (gameMode s).
  - (* the turn of O, between two players *)
    destruct (count_mark_play (board s) index O Hc) as [HO HX]; [done|].
    specialize (HX X).
    set (newBoard := <[index := O]> (board s)) in *.
    assert (length newBoard = 9) as Hl1
      by (unfold newBoard; by rewrite length_insert).
    assert (count_mark X newBoard = count_mark O newBoard) as Hcnt
      by (rewrite HX, HO by done; lia).
    destruct (is_over (checkWinner newBoard)) eqn:Hover.
    { apply session_invariant_over; auto. }
    apply is_over_false in Hover.
    rewrite Hm. simpl.
    unfold session_invariant; simpl. rewrite Hw, Hover. auto 10.
Qed.

Lemma session_invariant_act s a :
  session_invariant s → session_invariant (act s a).
Proof.
  intros Hinv. pose proof Hinv as (_ & _ & _ & _ & Hs).
  destruct a; simpl; case_bool_decide; try done.
  - by apply (session_invariant_reset s ai).
  - by apply (session_invariant_reset s pvp).
  - by apply session_invariant_press.
  - by apply (session_invariant_reset s menu).
  - by apply (session_invariant_reset s menu).
Qed.

Lemma session_invariant_run s actions :
  session_invariant s → session_invariant (foldl act s actions).
Proof.
  revert s. induction actions as [|a actions IH]; intros s Hs; [done|].
  simpl. apply IH. by apply session_invariant_act.
Qed.

Lemma session_invariant_initial : session_invariant initial.
Proof.
  unfold session_invariant, initial.
  cbn [board winner currentPlayer gameMode stats gameCount
       playerWins aiWins draws].
  rewrite !count_mark_replicate_null by done. auto 10.
Qed.

Lemma session_invariant_session actions : session_invariant (session actions).
Proof. apply session_invariant_run, session_invariant_initial. Qed.

(** X1. In every state of a session the stored winner is the outcome of the
    stored board: [winner] is [checkWinner(board)], so that the result
    shown and the cells shown never disagree. *)
Theorem session_winner_is_outcome (actions : list Action) :
  winner (session actions) = checkWinner (board (session actions)).
Proof. by destruct (session_invariant_session actions) as (_ & ? & _). Qed.

(** X2. In every state of a session the board has nine cells, and it holds
    as many ['X'] as ['O'] or one ['X'] more: the marks are placed in turn,
    ['X'] first. *)
Theorem session_marks_alternate (actions : list Action) :
  length (board (session actions)) = 9
  ∧ (count_mark X (board (session actions))
     = count_mark O (board (session actions))
     ∨ count_mark X (board (session actions))
       = S (count_mark O (board (session actions)))).
Proof. by destruct (session_invariant_session actions) as (? & _ & _ & ? & _). Qed.

(** X3. In every state of a session the game is over, or it is the turn of
    ['X'] on a board with as many ['X'] as ['O'], or the game is between
    two players and it is the turn of ['O'] on a board with one ['X'] more.
    Against the computer an open game is never left at the turn of
    ['O']. *)
Theorem session_turn (actions : list Action) :
  is_over (winner (session actions)) = true
  ∨ (currentPlayer (session actions) = X
     ∧ count_mark X (board (session actions))
       = count_mark O (board (session actions)))
  ∨ (currentPlayer (session actions) = O
     ∧ gameMode (session actions) = pvp
     ∧ count_mark X (board (session actions))
       = S (count_mark O (board (session actions)))).
Proof.
  destruct (session_invariant_session actions) as (_ & _ & Hturn & _).
  destruct (is_over (winner (session actions))) eqn:Hover; [by left|right].
  by apply Hturn, is_over_false.
Qed.

(** X4. In every state of a session the three counters of [stats] add up
    to at most [gameCount]. *)
Theorem session_results_le_games (actions : list Action) :
  playerWins (stats (session actions)) + aiWins (stats (session actions))
  + draws (stats (session actions))
  ≤ gameCount (session actions).
Proof. by destruct (session_invariant_session actions) as (_ & _ & _ & _ & ?). Qed.

(** What a press does to the result and to the counters: it ends an open
    game, and then it has counted the new result once, or it leaves the
    result and the counters as they are.  The mode and the difficulty are
    never changed. *)
Lemma handleCellPress_result index rnd s :
  gameMode (handleCellPress index rnd s) = gameMode s
  ∧ difficulty (handleCellPress index rnd s) = difficulty s
  ∧ ((is_over (winner s) = false
      ∧ is_over (winner (handleCellPress index rnd s)) = true
      ∧ stats (handleCellPress index rnd s)
        = stats (updateStats (winner (handleCellPress index rnd s)) s)
      ∧ gameCount (handleCellPress index rnd s) = gameCount s + 1)
     ∨ (winner (handleCellPress index rnd s) = winner s
        ∧ stats (handleCellPress index rnd s) = stats s
        ∧ gameCount (handleCellPress index rnd s) = gameCount s)).
Proof.
  destruct (handleCellPress_guard index rnd s) as [[Hw Hc]| ->]; [|auto 10].
  rewrite handleCellPress_accepted by done. cbv zeta.
  assert (is_over (winner s) = false) as Hopen by by apply is_over_false.
  destruct (is_over (checkWinner (<[index:=currentPlayer s]> (board s))))
    eqn:Hover; [simpl; auto 10|].
  destruct (bool_decide (gameMode s = ai) && bool_decide (currentPlayer s = X)).
  - destruct (getAIMove _ _ _) as [aiMove|]; [|simpl; auto 10].
    match goal with
    | |- context [is_over (checkWinner ?b)] =>
        destruct (is_over (checkWinner b)) eqn:Hover2; simpl; auto 10
    end.
  - case_bool_decide; simpl; auto 10.
Qed.

(** X5. A press counts a result exactly when it ends an open game, and it
    counts the result that it stores: [stats] and [gameCount] become those
    of [updateStats] at the new winner; every other press leaves both as
    they are.  No press changes the mode or the difficulty. *)
Theorem handleCellPress_counts_once (index rnd : nat) (s : State) :
  (stats (handleCellPress index rnd s), gameCount (handleCellPress index rnd s))
  = (if negb (is_over (winner s)) && is_over (winner (handleCellPress index rnd s))
     then (stats (updateStats (winner (handleCellPress index rnd s)) s),
           gameCount s + 1)
     else (stats s, gameCount s))
  ∧ gameMode (handleCellPress index rnd s) = gameMode s
  ∧ difficulty (handleCellPress index rnd s) = difficulty s.
Proof.
  destruct (handleCellPress_result index rnd s)
    as (Hm & Hd & [(Ho & Ho' & Hs & Hg)|(Hw & Hs & Hg)]).
  - rewrite Ho, Ho', Hs, Hg. done.
  - rewrite Hw, Hs, Hg. by destruct (is_over (winner s)).
Qed.

(** A press never removes or replaces a mark, and never changes the length
    of the board. *)
Lemma handleCellPress_board index rnd s :
  length (board (handleCellPress index rnd s)) = length (board s)
  ∧ ∀ i mark, board s !! i = Some mark → mark ≠ null →
              board (handleCellPress index rnd s) !! i = Some mark.
Proof.
  destruct (handleCellPress_guard index rnd s) as [[Hw Hc]| ->]; [|done].
  rewrite handleCellPress_accepted by done. cbv zeta.
  set (newBoard := <[index := currentPlayer s]> (board s)).
  assert (∀ i mark, board s !! i = Some mark → mark ≠ null →
                    newBoard !! i = Some mark) as Hkeep.
  { intros i mark Hi Hm. unfold newBoard.
    rewrite list_lookup_insert_ne; [done|]. intros ->. congruence. }
  assert (length newBoard = length (board s)) as Hlen
    by (unfold newBoard; by rewrite length_insert).
  destruct (is_over (checkWinner newBoard)) eqn:Hover; [done|].
  apply is_over_false in Hover.
  destruct (bool_decide (gameMode s = ai) && bool_decide (currentPlayer s = X));
    [|by case_bool_decide].
  destruct (reply_empty_cell newBoard (difficulty s) rnd Hover)
    as (cell & -> & Hcell).
  assert (∀ i mark, board s !! i = Some mark → mark ≠ null →
                    <[cell := O]> newBoard !! i = Some mark) as Hkeep2.
  { intros i mark Hi Hm. rewrite list_lookup_insert_ne; [by apply Hkeep|].
    intros ->. apply Hkeep in Hi; congruence. }
  destruct (is_over (checkWinner (<[cell := O]> newBoard))); simpl;
    by rewrite length_insert.
Qed.

(** X6. A press, with the reply of the computer, never removes or replaces
    a mark: a cell that holds a mark holds the same mark afterwards, in
    every state.  The board keeps its length. *)
Theorem handleCellPress_keeps_marks (index rnd : nat) (s : State)
    (i : nat) (mark : Player) :
  board s !! i = Some mark → mark ≠ null →
  board (handleCellPress index rnd s) !! i = Some mark
  ∧ length (board (handleCellPress index rnd s)) = length (board s).
Proof.
  intros Hi Hm. destruct (handleCellPress_board index rnd s) as [Hl Hk]. auto.
Qed.

Lemma handleCellPress_keeps_marks_witness :
  board (handleCellPress 1 0 (session [tapVsAI; tapCell 0 0])) !! 0 = Some X
  ∧ length (board (handleCellPress 1 0 (session [tapVsAI; tapCell 0 0])))
    = length (board (session [tapVsAI; tapCell 0 0])).
Proof.
  apply (handleCellPress_keeps_marks 1 0 (session [tapVsAI; tapCell 0 0]) 0 X);
    [reflexivity|discriminate].
Defined.

Lemma vs_computer_act s a :
  a ≠ tapTwoPlayers →
  gameMode s ≠ pvp
  ∧ playerWins (stats s) + aiWins (stats s) + draws (stats s) = gameCount s →
  gameMode (act s a) ≠ pvp
  ∧ playerWins (stats (act s a)) + aiWins (stats (act s a))
    + draws (stats (act s a)) = gameCount (act s a).
Proof.
  intros Ha [Hm Hs].
  destruct a; simpl; try done; case_bool_decide; try done.
  destruct (handleCellPress_result index rnd s)
    as (Hm' & _ & [(_ & Ho & Hst & Hg)|(_ & Hst & Hg)]);
    rewrite Hm', Hst, Hg; [|done].
  split; [done|].
  rewrite updateStats_sum_ai; [lia| |done]. by destruct (gameMode s).
Qed.

Lemma vs_computer_run s actions :
  tapTwoPlayers ∉ actions →
  gameMode s ≠ pvp
  ∧ playerWins (stats s) + aiWins (stats s) + draws (stats s) = gameCount s →
  gameMode (foldl act s actions) ≠ pvp
  ∧ playerWins (stats (foldl act s actions)) + aiWins (stats (foldl act s actions))
    + draws (stats (foldl act s actions)) = gameCount (foldl act s actions).
Proof.
  revert s. induction actions as [|a actions IH]; intros s Hn Hs; [done|].
  apply not_elem_of_cons in Hn as [Ha Hn].
  simpl. apply IH; [done|]. by apply vs_computer_act.
Qed.

(** X7. In a session without a game between two players every finished
    game is counted in one of the three counters: [stats] adds up to
    [gameCount]. *)
Theorem session_vs_computer_counts (actions : list Action) :
  tapTwoPlayers ∉ actions →
  playerWins (stats (session actions)) + aiWins (stats (session actions))
  + draws (stats (session actions))
  = gameCount (session actions).
Proof. intros Hn. by apply vs_computer_run. Qed.

Lemma session_vs_computer_counts_witness :
  playerWins (stats (session [tapVsAI; tapDifficulty easy; tapCell 0 0;
                              tapCell 3 0; tapCell 6 0]))
  + aiWins (stats (session [tapVsAI; tapDifficulty easy; tapCell 0 0;
                            tapCell 3 0; tapCell 6 0]))
  + draws (stats (session [tapVsAI; tapDifficulty easy; tapCell 0 0;
                           tapCell 3 0; tapCell 6 0]))
  = gameCount (session [tapVsAI; tapDifficulty easy; tapCell 0 0;
                        tapCell 3 0; tapCell 6 0]).
Proof.
  apply (session_vs_computer_counts
           [tapVsAI; tapDifficulty easy; tapCell 0 0; tapCell 3 0; tapCell 6 0]).
  apply (bool_decide_unpack _). reflexivity.
Defined.

Lemma menu_act s a :
  (gameMode s = menu →
   board s = replicate 9 null ∧ winner s = P null ∧ currentPlayer s = X) →
  gameMode (act s a) = menu →
  board (act s a) = replicate 9 null ∧ winner (act s a) = P null
  ∧ currentPlayer (act s a) = X.
Proof.
  intros Hs.
  destruct a; simpl; case_bool_decide as Hm; simpl; try done; auto;
    try (intros; congruence).
  destruct (handleCellPress_result index rnd s) as (-> & _). done.
Qed.

Lemma menu_run s actions :
  (gameMode s = menu →
   board s = replicate 9 null ∧ winner s = P null ∧ currentPlayer s = X) →
  gameMode (foldl act s actions) = menu →
  board (foldl act s actions) = replicate 9 null
  ∧ winner (foldl act s actions) = P null
  ∧ currentPlayer (foldl act s actions) = X.
Proof.
  revert s. induction actions as [|a actions IH]; intros s Hs; [done|].
  simpl. apply IH. by apply menu_act.
Qed.

(** X8. For a user who waits for each reply of the computer before the
    next tap (the sessions of [session]): whenever such a session is at
    the menu, no game is left behind: the board is empty, there is no
    winner and the turn is that of ['X'].  The menu is reached by
    [goToMenu] only, which resets the game, and its buttons start from a
    reset game.  Without the wait this fails: a reply that is still
    pending when the user goes back to the menu writes its board there
    ([reply_lands_in_menu]). *)
Theorem session_menu_is_reset (actions : list Action) :
  gameMode (session actions) = menu →
  board (session actions) = replicate 9 null
  ∧ winner (session actions) = P null
  ∧ currentPlayer (session actions) = X.
Proof. by apply menu_run. Qed.

Lemma session_menu_is_reset_witness :
  board (session [tapVsAI; tapCell 0 0; tapCell 1 0; tapMenu]) = replicate 9 null
  ∧ winner (session [tapVsAI; tapCell 0 0; tapCell 1 0; tapMenu]) = P null
  ∧ currentPlayer (session [tapVsAI; tapCell 0 0; tapCell 1 0; tapMenu]) = X.
Proof.
  apply (session_menu_is_reset [tapVsAI; tapCell 0 0; tapCell 1 0; tapMenu]).
  reflexivity.
Defined.

(** ** The move selector *)

(** X9. The easy tier returns exactly the empty cells: every empty cell is
    the result for some random draw, and no other index is ever
    returned. *)
Theorem easy_returns_any_empty_cell (board : Board) (cell : nat) :
  (∃ rnd, getAIMove board easy rnd = Some (number cell))
  ↔ board !! cell = Some null.
Proof.
  unfold getAIMove, getAIMove_fuel. rewrite bool_decide_eq_true_2 by done.
  rewrite <- elem_of_emptyCells. unfold random_cell, read. split.
  - intros [rnd Hr].
    destruct (emptyCells board !! _) as [c|] eqn:Hc; [|done].
    injection Hr as ->. by eapply list_elem_of_lookup_2.
  - intros [i Hi]%list_elem_of_lookup_1. exists i.
    pose proof (lookup_lt_Some _ _ _ Hi) as Hlt.
    unfold random_index. destruct (length (emptyCells board)) eqn:Hlen; [lia|].
    rewrite Nat.mod_small by done. by rewrite Hi.
Qed.

Lemma scan_no_completing mark (board : Board) :
  mark ≠ null → checkWinner board = P null →
  (∀ c, completes mark board c = false) →
  scan mark board (emptyCells board) = None.
Proof.
  intros Hm Hw Hc. apply scan_None, Forall_forall. intros c Hin.
  apply elem_of_emptyCells in Hin. by rewrite scan_test_completes.
Qed.

Lemma corners_spec (board : Board) c :
  c ∈ List.filter (is_null_at board) [0; 2; 6; 8]
  ↔ c ∈ [0; 2; 6; 8] ∧ board !! c = Some null.
Proof.
  rewrite !list_elem_of_In, filter_In, is_null_at_eq. done.
Qed.

(** X10. The medium tier, when neither side can complete a line: it takes
    the centre if the centre is empty; otherwise an empty corner if there
    is one; otherwise it draws among the empty cells as the easy tier
    does. *)
Theorem medium_centre_corner_any (board : Board) (rnd : nat) :
  checkWinner board = P null →
  (∀ c, completes O board c = false) →
  (∀ c, completes X board c = false) →
  (board !! 4 = Some null → getAIMove board medium rnd = Some (number 4))
  ∧ (board !! 4 ≠ Some null →
     (∃ c, c ∈ [0; 2; 6; 8] ∧ board !! c = Some null) →
     ∃ cell, getAIMove board medium rnd = Some (number cell)
             ∧ cell ∈ [0; 2; 6; 8] ∧ board !! cell = Some null)
  ∧ (board !! 4 ≠ Some null →
     (∀ c, c ∈ [0; 2; 6; 8] → board !! c ≠ Some null) →
     getAIMove board medium rnd = getAIMove board easy rnd).
Proof.
  intros Hw HO HX.
  unfold getAIMove, getAIMove_fuel.
  rewrite !scan_no_completing by done.
  rewrite (bool_decide_eq_false_2 (medium = easy)) by done.
  rewrite (bool_decide_eq_true_2 (medium = medium)) by done.
  rewrite (bool_decide_eq_false_2 (medium = hard)) by done.
  rewrite (bool_decide_eq_true_2 (easy = easy)) by done.
  split_and!.
  - intros H4%is_null_at_eq. by rewrite H4.
  - intros H4 (c & Hc). apply corners_spec in Hc.
    rewrite <- is_null_at_eq, not_true_iff_false in H4. rewrite H4.
    destruct (List.filter (is_null_at board) [0; 2; 6; 8]) as [|c0 cs] eqn:Hcs;
      [by apply elem_of_nil in Hc|].
    replace (0 <? length (c0 :: cs)) with true by done.
    destruct (random_cell_elem rnd (c0 :: cs)) as (cell & -> & Hin); [done|].
    exists cell. rewrite <- Hcs in Hin. apply corners_spec in Hin as [? ?].
    done.
  - intros H4 Hno.
    rewrite <- is_null_at_eq, not_true_iff_false in H4. rewrite H4.
    destruct (List.filter (is_null_at board) [0; 2; 6; 8]) as [|c0 cs] eqn:Hcs;
      [done|].
    assert (c0 ∈ List.filter (is_null_at board) [0; 2; 6; 8]) as Hin
      by (rewrite Hcs; left).
    apply corners_spec in Hin as [Hin Hnull]. by destruct (Hno c0 Hin).
Qed.

Lemma medium_centre_corner_any_witness :
  ([X; null; null; null; null; null; null; null; null] !! 4 = Some null →
   getAIMove [X; null; null; null; null; null; null; null; null] medium 0
   = Some (number 4))
  ∧ ([X; null; null; null; null; null; null; null; null] !! 4 ≠ Some null →
     (∃ c, c ∈ [0; 2; 6; 8]
           ∧ [X; null; null; null; null; null; null; null; null] !! c = Some null) →
     ∃ cell, getAIMove [X; null; null; null; null; null; null; null; null] medium 0
             = Some (number cell)
             ∧ cell ∈ [0; 2; 6; 8]
             ∧ [X; null; null; null; null; null; null; null; null] !! cell
               = Some null)
  ∧ ([X; null; null; null; null; null; null; null; null] !! 4 ≠ Some null →
     (∀ c, c ∈ [0; 2; 6; 8] →
           [X; null; null; null; null; null; null; null; null] !! c ≠ Some null) →
     getAIMove [X; null; null; null; null; null; null; null; null] medium 0
     = getAIMove [X; null; null; null; null; null; null; null; null] easy 0).
Proof.
  apply (medium_centre_corner_any
           [X; null; null; null; null; null; null; null; null] 0).
  - reflexivity.
  - intros c. do 10 (destruct c as [|c]; [reflexivity|]). reflexivity.
  - intros c. do 10 (destruct c as [|c]; [reflexivity|]). reflexivity.
Defined.

Lemma root_loop_fuel_eq fuel fuel' board cells bestScore bestMove :
  9 < fuel → 9 < fuel' →
  root_loop fuel board cells bestScore bestMove
  = root_loop fuel' board cells bestScore bestMove.
Proof.
  intros Hf Hf'. revert bestScore bestMove.
  induction cells as [|cell rest IH]; intros bestScore bestMove; [done|].
  simpl.
  rewrite (minimax_fuel_eq fuel fuel')
    by (eapply Nat.le_lt_trans; [apply nulls9_le|done]).
  destruct (minimax fuel' _ _ _) as [score|]; [|done]. simpl.
  by rewrite !IH.
Qed.

Lemma getAIMove_fuel_eq fuel board difficulty rnd :
  9 < fuel →
  getAIMove_fuel fuel board difficulty rnd = getAIMove board difficulty rnd.
Proof.
  intros Hf. unfold getAIMove, getAIMove_fuel.
  by rewrite (root_loop_fuel_eq fuel search_fuel) by (unfold search_fuel; lia).
Qed.

(** X11. The search of the hard tier ends.  On every board, of any
    length, [minimax] returns once it may recurse to one level more than
    the number of [null] cells among the indices [0..8], hence within ten
    levels, and a larger bound does not change its result; [getAIMove]
    returns a value at every difficulty, the same for every bound of at
    least ten levels. *)
Theorem search_ends (board : Board) (depth : Z) (isMaximizing : bool)
    (difficulty : Difficulty) (rnd : nat) :
  nulls9 board < search_fuel
  ∧ (∃ s, ∀ fuel, nulls9 board < fuel →
                  minimax fuel board depth isMaximizing = Some s)
  ∧ (∃ v, ∀ fuel, 9 < fuel →
                  getAIMove_fuel fuel board difficulty rnd = Some v).
Proof.
  split_and!.
  - eapply Nat.le_lt_trans; [apply nulls9_le|unfold search_fuel; lia].
  - destruct (minimax_terminates (S (nulls9 board)) board depth isMaximizing)
      as [s Hs]; [lia|].
    exists s. intros fuel Hf. rewrite <- Hs. apply minimax_fuel_eq; lia.
  - destruct (getAIMove_returns board difficulty rnd) as [v Hv].
    exists v. intros fuel Hf. by rewrite getAIMove_fuel_eq.
Qed.

(** X12. On a board of nine cells, at a depth that the search can reach
    (the depth and the number of empty cells add up to at most nine),
    [minimax] returns a finite score between [depth - 10] and
    [10 - depth], never an infinity; on a board without a result the
    score lies between [depth - 9] and [9 - depth]. *)
Theorem minimax_score_range (board : Board) (depth : Z) (isMaximizing : bool) :
  length board = 9 → (0 ≤ depth)%Z →
  (depth + Z.of_nat (nulls9 board) ≤ 9)%Z →
  ∃ z, minimax search_fuel board depth isMaximizing = Some (Fin z)
       ∧ (depth - 10 ≤ z ≤ 10 - depth)%Z
       ∧ (checkWinner board = P null → (depth - 9 ≤ z ≤ 9 - depth)%Z).
Proof.
  intros Hl Hd Hn.
  destruct (minimax_search_fuel board depth isMaximizing) as [s Hs].
  destruct (minimax_bounds _ _ _ _ _ Hl Hd Hn Hs) as (z & -> & Hz).
  by exists z.
Qed.

Lemma minimax_score_range_witness :
  ∃ z, minimax search_fuel [X; O; null; X; null; null; null; null; O] 1 true
       = Some (Fin z)
       ∧ (1 - 10 ≤ z ≤ 10 - 1)%Z
       ∧ (checkWinner [X; O; null; X; null; null; null; null; O] = P null →
          (1 - 9 ≤ z ≤ 9 - 1)%Z).
Proof.
  apply (minimax_score_range [X; O; null; X; null; null; null; null; O] 1 true);
    [reflexivity|lia|vm_compute; discriminate].
Defined.

(** X13. On a board of nine cells with ['X'] to move, the score of
    [minimax] is non-negative exactly when ['O'] can avoid a defeat
    against every play of ['X']. *)
Theorem minimax_nonnegative_iff_safe (board : Board) :
  length board = 9 →
  (∃ z, minimax search_fuel board 0 false = Some (Fin z) ∧ (0 ≤ z)%Z)
  ↔ holds 5 board = true.
Proof.
  intros Hl. pose proof (nulls9_le board) as Hn. split.
  - intros (z & Hz & Hpos).
    apply (holds_complete 5 search_fuel board 0 (Fin z)); try done; try lia.
    simpl. lia.
  - intros Hh. apply (holds_sound 5); try done; try lia.
    unfold search_fuel; lia.
Qed.

Lemma minimax_nonnegative_iff_safe_witness :
  (∃ z, minimax search_fuel [X; null; null; null; O; null; null; null; null] 0 false
        = Some (Fin z) ∧ (0 ≤ z)%Z)
  ↔ holds 5 [X; null; null; null; O; null; null; null; null] = true.
Proof.
  apply (minimax_nonnegative_iff_safe
           [X; null; null; null; O; null; null; null; null]).
  reflexivity.
Defined.

(** ** The outcome evaluator *)

Lemma swap_marks_lookup (board : Board) i :
  swap_marks board !! i
  = (fun cell => match cell with X => O | O => X | null => null end)
      <$> board !! i.
Proof. unfold swap_marks. apply list_lookup_fmap. Qed.

Lemma line_complete_swap (board : Board) line :
  line_complete (swap_marks board) line = line_complete board line.
Proof.
  destruct line as [[a b] c]. unfold line_complete.
  rewrite !swap_marks_lookup.
  by destruct (board !! a) as [[]|], (board !! b) as [[]|],
    (board !! c) as [[]|].
Qed.

Lemma check_lines_swap (board : Board) ls :
  check_lines (swap_marks board) ls
  = (fun cell => match cell with X => O | O => X | null => null end)
      <$> check_lines board ls.
Proof.
  induction ls as [|line rest IH]; [done|].
  simpl. rewrite line_complete_swap, IH, swap_marks_lookup.
  by destruct (line_complete board line).
Qed.

Lemma forallb_not_null_swap (board : Board) :
  forallb not_null (swap_marks board) = forallb not_null board.
Proof.
  induction board as [|cell board IH]; [done|].
  simpl. rewrite <- IH. by destruct cell.
Qed.

(** X14. [checkWinner] treats the two marks alike: on the board with
    ['X'] and ['O'] exchanged it returns the result with ['X'] and ['O']
    exchanged. *)
Theorem checkWinner_swap_marks (board : Board) :
  checkWinner (swap_marks board) = swap_winner (checkWinner board).
Proof.
  unfold checkWinner. rewrite check_lines_swap, forallb_not_null_swap.
  destruct (check_lines board lines) as [[]|]; simpl; try done.
  by destruct (forallb not_null board).
Qed.

(** X15. A mark placed at an empty cell of a board without a result can
    only win for that mark: the new result is that mark, a draw, or none,
    never the other mark. *)
Theorem move_wins_only_for_mover (board : Board) (cell : nat) (mark : Player) :
  checkWinner board = P null → board !! cell = Some null →
  checkWinner (<[cell := mark]> board) = P mark
  ∨ checkWinner (<[cell := mark]> board) = draw
  ∨ checkWinner (<[cell := mark]> board) = P null.
Proof.
  intros Hw Hc.
  destruct (checkWinner (<[cell := mark]> board)) as [p|] eqn:Hp; [|auto].
  destruct (checkWinner_insert board cell mark p Hw Hc Hp) as [-> | ->]; auto.
Qed.

Lemma move_wins_only_for_mover_witness :
  checkWinner (<[2 := X]> [X; X; null; O; O; null; null; null; null]) = P X
  ∨ checkWinner (<[2 := X]> [X; X; null; O; O; null; null; null; null]) = draw
  ∨ checkWinner (<[2 := X]> [X; X; null; O; O; null; null; null; null]) = P null.
Proof.
  apply (move_wins_only_for_mover [X; X; null; O; O; null; null; null; null] 2 X);
    reflexivity.
Defined.

(** X16. [emptyCells] lists the indices of the [null] cells, all of them
    and no other index, in increasing order and so without repetition. *)
Theorem emptyCells_indices (board : Board) :
  (∀ cell, cell ∈ emptyCells board ↔ board !! cell = Some null)
  ∧ StronglySorted lt (emptyCells board).
Proof. split; [apply elem_of_emptyCells|apply emptyCells_sorted]. Qed.

(** ** The reply of the computer to a press *)

Lemma getAIMove_scan_O board difficulty rnd cell :
  difficulty ≠ easy → scan O board (emptyCells board) = Some cell →
  getAIMove board difficulty rnd = Some (number cell).
Proof.
  intros Hd Hs. unfold getAIMove, getAIMove_fuel.
  by rewrite bool_decide_eq_false_2, Hs by done.
Qed.

Lemma getAIMove_scan_X board difficulty rnd cell :
  difficulty ≠ easy → scan O board (emptyCells board) = None →
  scan X board (emptyCells board) = Some cell →
  getAIMove board difficulty rnd = Some (number cell).
Proof.
  intros Hd HO HX. unfold getAIMove, getAIMove_fuel.
  by rewrite bool_decide_eq_false_2, HO, HX by done.
Qed.

(** X17. Against the computer at the medium or the hard tier, after a
    press of ['X'] that does not end the game: if ['O'] can complete a
    line, the reply completes one, the game ends with winner ['O'] and the
    win is counted for the computer; if ['O'] cannot but ['X'] could
    complete a line at its next move, the reply puts ['O'] on a cell that
    completes a line for ['X']. *)
Theorem reply_wins_or_blocks (index rnd : nat) (s : State) :
  gameMode s = ai → currentPlayer s = X → difficulty s ≠ easy →
  winner s = P null → board s !! index = Some null →
  checkWinner (<[index := X]> (board s)) = P null →
  ((∃ c, completes O (<[index := X]> (board s)) c = true) →
   winner (handleCellPress index rnd s) = P O
   ∧ aiWins (stats (handleCellPress index rnd s)) = aiWins (stats s) + 1
   ∧ gameCount (handleCellPress index rnd s) = gameCount s + 1)
  ∧ ((∀ c, completes O (<[index := X]> (board s)) c = false) →
     (∃ c, completes X (<[index := X]> (board s)) c = true) →
     ∃ cell, completes X (<[index := X]> (board s)) cell = true
             ∧ board (handleCellPress index rnd s) !! cell = Some O).
Proof.
  intros Hm Hp Hd Hw Hc Hopen.
  rewrite handleCellPress_accepted by done. cbv zeta.
  rewrite Hp, Hm. set (newBoard := <[index := X]> (board s)) in *.
  replace (is_over (checkWinner newBoard)) with false
    by (symmetry; by apply is_over_false).
  rewrite !bool_decide_eq_true_2 by done. cbn [andb].
  split.
  - intros [c Hcomp].
    destruct (scan_empty_exists O newBoard c) as [cell Hscan]; [done..|].
    rewrite (getAIMove_scan_O _ _ _ cell) by done.
    apply scan_Some in Hscan as (_ & _ & _ & Htest & _).
    apply Winner_eqb_eq in Htest. rewrite Htest. simpl.
    by rewrite bool_decide_eq_true_2.
  - intros HnoO [c Hcomp].
    destruct (scan_empty_exists X newBoard c) as [cell Hscan]; [done..|].
    rewrite (getAIMove_scan_X _ _ _ cell)
      by (try done; by apply scan_no_completing).
    exists cell.
    destruct (scan_empty_Some X newBoard cell) as [Hcell _]; [done..|].
    split; [done|].
    assert (cell < length newBoard) as Hlt.
    { unfold completes in Hcell. apply andb_true_iff in Hcell as [Hn _].
      apply is_null_at_eq in Hn. by eapply lookup_lt_Some. }
    destruct (is_over (checkWinner (<[cell := O]> newBoard))); simpl;
      by apply list_lookup_insert_eq.
Qed.

Lemma reply_wins_or_blocks_witness :
  ((∃ c, completes O
           (<[8 := X]>
              (board (setBoard [O; O; null; X; X; null; null; null; null]
                      (startGame ai None initial))))
           c = true) →
   winner (handleCellPress 8 0
             (setBoard [O; O; null; X; X; null; null; null; null]
                (startGame ai None initial)))
   = P O
   ∧ aiWins (stats (handleCellPress 8 0
                      (setBoard [O; O; null; X; X; null; null; null; null]
                         (startGame ai None initial))))
     = aiWins (stats (setBoard [O; O; null; X; X; null; null; null; null]
                       (startGame ai None initial))) + 1
   ∧ gameCount (handleCellPress 8 0
                  (setBoard [O; O; null; X; X; null; null; null; null]
                     (startGame ai None initial)))
     = gameCount (setBoard [O; O; null; X; X; null; null; null; null]
                   (startGame ai None initial)) + 1)
  ∧ ((∀ c, completes O
             (<[8 := X]>
                (board (setBoard [O; O; null; X; X; null; null; null; null]
                        (startGame ai None initial))))
             c = false) →
     (∃ c, completes X
             (<[8 := X]>
                (board (setBoard [O; O; null; X; X; null; null; null; null]
                        (startGame ai None initial))))
             c = true) →
     ∃ cell, completes X
               (<[8 := X]>
                  (board (setBoard [O; O; null; X; X; null; null; null; null]
                          (startGame ai None initial))))
               cell = true
             ∧ board (handleCellPress 8 0
                        (setBoard [O; O; null; X; X; null; null; null; null]
                           (startGame ai None initial)))
               !! cell = Some O).
Proof.
  apply (reply_wins_or_blocks 8 0
           (setBoard [O; O; null; X; X; null; null; null; null]
              (startGame ai None initial)));
    [reflexivity|reflexivity|discriminate|reflexivity|reflexivity|reflexivity].
Defined.

(** ** The statistics screen *)

Lemma pretty_N_go_digits x s :
  all_digits s = true → all_digits (pretty_N_go x s) = true.
Proof.
  revert s. induction (N.lt_wf_0 x) as [x _ IH]; intros s Hs.
  assert (x = 0 ∨ 0 < x)%N as [->|Hx] by lia; [by rewrite pretty_N_go_0|].
  rewrite pretty_N_go_step by done. apply IH; [by apply N.div_lt|].
  simpl. rewrite Hs, andb_true_r.
  unfold pretty_N_char. by repeat case_match.
Qed.

Lemma pretty_nat_digits (n : nat) : all_digits (pretty n) = true.
Proof.
  unfold pretty, pretty_nat, pretty, pretty_N.
  case_decide; [done|]. by apply pretty_N_go_digits.
Qed.

(** A numeral followed by a character that is not a digit determines the
    numeral, the character and what follows it. *)
Lemma digits_split a b c1 r1 c2 r2 :
  all_digits a = true → all_digits b = true →
  is_digit c1 = false → is_digit c2 = false →
  a +:+ String c1 r1 = b +:+ String c2 r2 →
  a = b ∧ c1 = c2 ∧ r1 = r2.
Proof.
  intros Ha Hb H1 H2. revert b Hb.
  induction a as [|d a IH]; intros [|e b] Hb; simpl in *; intros Heq.
  - by injection Heq as -> ->.
  - injection Heq as -> _. apply andb_true_iff in Hb as [Hb _]. congruence.
  - injection Heq as -> _. apply andb_true_iff in Ha as [Ha _]. congruence.
  - injection Heq as -> Heq.
    apply andb_true_iff in Ha as [_ Ha]. apply andb_true_iff in Hb as [_ Hb].
    destruct (IH Ha b Hb Heq) as (-> & -> & ->). done.
Qed.

(** X18. [formatDuration] loses nothing: two whole numbers of seconds are
    displayed by the same text only if they are equal, be it in the form
    of seconds alone (below a minute) or of minutes and seconds. *)
Theorem formatDuration_inj (seconds seconds' : nat) :
  formatDuration seconds = formatDuration seconds' ↔ seconds = seconds'.
Proof.
  split; [|by intros ->].
  unfold formatDuration.
  destruct (seconds <? 60) eqn:Hs, (seconds' <? 60) eqn:Hs'; cbv zeta;
    intros Heq.
  - apply digits_split in Heq as (Heq & _); try done;
      try apply pretty_nat_digits.
    by apply (inj pretty) in Heq.
  - apply digits_split in Heq as (_ & Hc & _); try done;
      try apply pretty_nat_digits.
  - apply digits_split in Heq as (_ & Hc & _); try done;
      try apply pretty_nat_digits.
  - apply digits_split in Heq as (Hm & _ & Hr); try done;
      try apply pretty_nat_digits.
    apply (inj pretty) in Hm.
    assert (pretty (seconds mod 60) +:+ "s" = pretty (seconds' mod 60) +:+ "s")
      as Hr' by congruence.
    apply digits_split in Hr' as (Hr' & _); try done;
      try apply pretty_nat_digits.
    apply (inj pretty) in Hr'.
    rewrite (Nat.div_mod_eq seconds 60), (Nat.div_mod_eq seconds' 60). lia.
Qed.

(** ** The counters over a session *)

Lemma updateStats_mono w s :
  playerWins (stats s) ≤ playerWins (stats (updateStats w s))
  ∧ aiWins (stats s) ≤ aiWins (stats (updateStats w s))
  ∧ draws (stats s) ≤ draws (stats (updateStats w s)).
Proof.
  unfold updateStats; simpl.
  split_and!; repeat case_match; lia.
Qed.

Lemma counters_act s a :
  gameCount s ≤ gameCount (act s a)
  ∧ playerWins (stats s) ≤ playerWins (stats (act s a))
  ∧ aiWins (stats s) ≤ aiWins (stats (act s a))
  ∧ draws (stats s) ≤ draws (stats (act s a)).
Proof.
  destruct a; simpl; case_bool_decide; simpl; try done.
  destruct (handleCellPress_result index rnd s)
    as (_ & _ & [(_ & _ & -> & ->)|(_ & -> & ->)]); [|done].
  split; [lia|]. apply updateStats_mono.
Qed.

Lemma counters_run s actions :
  gameCount s ≤ gameCount (foldl act s actions)
  ∧ playerWins (stats s) ≤ playerWins (stats (foldl act s actions))
  ∧ aiWins (stats s) ≤ aiWins (stats (foldl act s actions))
  ∧ draws (stats s) ≤ draws (stats (foldl act s actions)).
Proof.
  revert s. induction actions as [|a actions IH]; intros s; [done|].
  simpl. destruct (counters_act s a) as (? & ? & ? & ?).
  destruct (IH (act s a)) as (? & ? & ? & ?). split_and!; lia.
Qed.

(** X19. No tap ever lowers or clears a counter: over a session that goes
    on, [gameCount] and each of the three counters of [stats] only grow,
    across new games, returns to the menu and changes of mode and
    difficulty. *)
Theorem session_counters_grow (actions more : list Action) :
  gameCount (session actions) ≤ gameCount (session (actions ++ more))
  ∧ playerWins (stats (session actions))
    ≤ playerWins (stats (session (actions ++ more)))
  ∧ aiWins (stats (session actions))
    ≤ aiWins (stats (session (actions ++ more)))
  ∧ draws (stats (session actions))
    ≤ draws (stats (session (actions ++ more))).
Proof. unfold session. rewrite foldl_app. apply counters_run. Qed.

(** ** The reply as a deferred callback *)

(** [handleCellPress] as one step is the press followed at once by the
    callback that it schedules. *)
Lemma press_then_reply index rnd s :
  handleCellPress index rnd s
  = match press_now index s with
    | (s', Some r) => reply_later r rnd s'
    | (s', None) => s'
    end.
Proof.
  unfold handleCellPress, press_now, reply_later.
  destruct (truthy (board s !! index) || is_over (winner s)); [done|].
  destruct (negb (index <? length (board s))); [done|]. cbv zeta.
  destruct (is_over (checkWinner (<[index:=currentPlayer s]> (board s))));
    [done|].
  destruct (bool_decide (gameMode s = ai)) eqn:Hai; cbn [andb];
    [|by destruct (bool_decide (gameMode s = pvp))].
  apply bool_decide_eq_true in Hai.
  destruct (bool_decide (currentPlayer s = X)) eqn:HX; cbn [andb];
    [|by destruct (bool_decide (gameMode s = pvp))].
  cbn [newBoard replyDifficulty].
  destruct (getAIMove _ _ _) as [aiMove|]; [|done].
  match goal with
  | |- context [is_over ?w] => destruct (is_over w); [|done]
  end.
  unfold updateStats, setGameMode; simpl. by rewrite Hai.
Qed.

Lemma patient_run s actions :
  foldl tick {| state := s; timers := [] |} (patient actions)
  = {| state := foldl act s actions; timers := [] |}.
Proof.
  revert s. induction actions as [|a actions IH]; intros s; [done|].
  unfold patient in *. rewrite bind_cons, foldl_app.
  cbn [foldl]. rewrite <- IH. f_equal.
  destruct a; try done. simpl.
  case_bool_decide; [done|]. rewrite press_then_reply.
  by destruct (press_now index s) as [s' [r|]].
Qed.

(** X20. For a user who waits for each reply before the next tap, the
    screen with its timers behaves as the sessions above: after the taps
    of such a user, each press followed by its timer, the state is that of
    the session with the press and the reply taken as one step, and no
    timer is pending. *)
Theorem patient_timeline_is_session (actions : list Action) :
  timeline (patient actions) = {| state := session actions; timers := [] |}.
Proof. apply patient_run. Qed.

Lemma press_now_counters index s :
  length (board s) = 9 →
  playerWins (stats s) + aiWins (stats s) + draws (stats s) ≤ gameCount s →
  length (board (press_now index s).1) = 9
  ∧ playerWins (stats (press_now index s).1)
    + aiWins (stats (press_now index s).1)
    + draws (stats (press_now index s).1)
    ≤ gameCount (press_now index s).1
  ∧ ∀ r, (press_now index s).2 = Some r → length (newBoard r) = 9.
Proof.
  intros Hl Hs. unfold press_now.
  destruct (truthy (board s !! index) || is_over (winner s)); [done|].
  destruct (negb (index <? length (board s))); [done|]. cbv zeta.
  set (b := <[index := currentPlayer s]> (board s)).
  assert (length b = 9) as Hb by (unfold b; by rewrite length_insert).
  destruct (is_over (checkWinner b)).
  { pose proof (updateStats_sum (checkWinner b)
                  (setWinner (checkWinner b) (setBoard b s))) as Hu.
    simpl in *. split_and!; [done|lia|done]. }
  destruct (bool_decide (gameMode s = ai) && bool_decide (currentPlayer s = X)).
  { simpl. split_and!; [done..|]. by intros r [= <-]. }
  by case_bool_decide.
Qed.

Lemma reply_later_counters r rnd s :
  length (newBoard r) = 9 → length (board s) = 9 →
  playerWins (stats s) + aiWins (stats s) + draws (stats s) ≤ gameCount s →
  length (board (reply_later r rnd s)) = 9
  ∧ playerWins (stats (reply_later r rnd s))
    + aiWins (stats (reply_later r rnd s))
    + draws (stats (reply_later r rnd s))
    ≤ gameCount (reply_later r rnd s).
Proof.
  intros Hr Hl Hs. unfold reply_later.
  destruct (getAIMove _ _ _) as [aiMove|]; [|done]. cbv zeta.
  set (b := match aiMove with
            | number i => <[i := O]> (newBoard r)
            | undefined => newBoard r
            end).
  assert (length b = 9) as Hb
    by (unfold b; destruct aiMove; by rewrite ?length_insert).
  destruct (is_over (checkWinner b)); [|done].
  pose proof (updateStats_sum (checkWinner b)
                (setGameMode ai (setWinner (checkWinner b) (setBoard b s))))
    as Hu.
  simpl in *. split; [done|lia].
Qed.

Lemma tick_counters w t :
  length (board (state w)) = 9
  ∧ playerWins (stats (state w)) + aiWins (stats (state w))
    + draws (stats (state w)) ≤ gameCount (state w)
  ∧ Forall (fun r => length (newBoard r) = 9) (timers w) →
  length (board (state (tick w t))) = 9
  ∧ playerWins (stats (state (tick w t))) + aiWins (stats (state (tick w t)))
    + draws (stats (state (tick w t))) ≤ gameCount (state (tick w t))
  ∧ Forall (fun r => length (newBoard r) = 9) (timers (tick w t)).
Proof.
  intros (Hl & Hs & Ht). destruct t as [a|rnd].
  - destruct a; simpl; try (case_bool_decide; simpl; by auto).
    case_bool_decide; [by auto|].
    destruct (press_now_counters index (state w) Hl Hs) as (Hl' & Hs' & Hr).
    destruct (press_now index (state w)) as [s' r]. simpl in *.
    split_and!; [done..|]. apply Forall_app. split; [done|].
    destruct r as [r|]; [|done]. apply Forall_singleton. by apply Hr.
  - simpl. destruct (timers w) as [|r rest] eqn:Htm;
      [rewrite Htm; by auto|].
    apply Forall_cons_1 in Ht as [Hr Ht]. simpl.
    destruct (reply_later_counters r rnd (state w) Hr Hl Hs). auto.
Qed.

(** X21. Whatever the order of the taps and of the timers, also when the
    user taps while a reply is pending: the board has nine cells and the
    three counters of [stats] add up to at most [gameCount]. *)
Theorem timeline_board_and_counters (ticks : list Tick) :
  length (board (state (timeline ticks))) = 9
  ∧ playerWins (stats (state (timeline ticks)))
    + aiWins (stats (state (timeline ticks)))
    + draws (stats (state (timeline ticks)))
    ≤ gameCount (state (timeline ticks)).
Proof.
  cut (length (board (state (timeline ticks))) = 9
       ∧ playerWins (stats (state (timeline ticks)))
         + aiWins (stats (state (timeline ticks)))
         + draws (stats (state (timeline ticks)))
         ≤ gameCount (state (timeline ticks))
       ∧ Forall (fun r => length (newBoard r) = 9) (timers (timeline ticks))).
  { intros (? & ? & _). done. }
  unfold timeline.
  induction ticks as [|t ticks IH] using rev_ind; [simpl; auto with lia|].
  rewrite foldl_app. simpl. by apply tick_counters.
Qed.

(** A reply that is pending when the user goes back to the menu writes
    its board after [goToMenu] has reset it. *)
Lemma reply_lands_in_menu :
  gameMode (state (timeline [touch tapVsAI; touch (tapCell 0 0);
                             touch tapMenu; fire 0])) = menu
  ∧ board (state (timeline [touch tapVsAI; touch (tapCell 0 0);
                            touch tapMenu; fire 0]))
    = [X; null; null; null; O; null; null; null; null].
Proof. split; reflexivity. Qed.

(** A tap while a reply is pending is played for ['O'], and the reply
    then writes the board of its own press over it. *)
Lemma impatient_tap_is_overwritten :
  board (state (timeline [touch tapVsAI; touch (tapCell 0 0);
                          touch (tapCell 1 0)]))
  = [X; O; null; null; null; null; null; null; null]
  ∧ board (state (timeline [touch tapVsAI; touch (tapCell 0 0);
                            touch (tapCell 1 0); fire 0]))
    = [X; null; null; null; O; null; null; null; null].
Proof. split; reflexivity. Qed.
